(** * Resume generator: rendering, PDF normalisation and renderer pool

    A shallow embedding of the core of the resume generator
    (template renderer, template cache, browser pool, PDF export and the
    determinism normaliser) together with the properties stated for it. *)

From Stdlib Require Import Ascii String List Arith ZArith Lia Bool DecimalString
  DecimalPos Permutation.
From Equations Require Import Equations.
Import ListNotations.

Set Warnings "-register-all".

(** Byte strings: a PDF read with the [binary] encoding is a string with one
    character per byte, which is what [list ascii] is. *)
Definition bytes := list ascii.

Definition lit (s : string) : bytes := list_ascii_of_string s.

Definition inspect {A} (a : A) : { b : A | a = b } := exist _ a eq_refl.

(* ===================================================================== *)
(** * The determinism normaliser (src/utils/deterministic-pdf.ts)        *)
(* ===================================================================== *)

Module Normalizer.

(** Every regular expression of the normaliser has the shape
    [key [^stop]* stop] or [key [^stop]+ stop]: a literal key, a body made of
    characters other than the closing one ([least] is 0 for [*] and 1 for
    [+]), and the closing character. *)
Record pattern := { key : bytes; stop : ascii; least : nat }.

(** [strip_key k s]: the rest of [s] after the literal [k], if [s] starts
    with [k]. *)
Fixpoint strip_key (k s : bytes) : option bytes :=
  match k, s with
  | [], _ => Some s
  | a :: k', b :: s' => if Ascii.eqb a b then strip_key k' s' else None
  | _ :: _, [] => None
  end.

(** [until_stop c s]: the greedy run [[^c]*] followed by [c]; gives the body
    and what follows the closing character. *)
Fixpoint until_stop (c : ascii) (s : bytes) : option (bytes * bytes) :=
  match s with
  | [] => None
  | a :: s' =>
      if Ascii.eqb a c then Some ([], s')
      else match until_stop c s' with
           | Some (body, rest) => Some (a :: body, rest)
           | None => None
           end
  end.

(** A match of the pattern anchored at the head of [s]. *)
Definition match_here (p : pattern) (s : bytes) : option (bytes * bytes) :=
  match strip_key (key p) s with
  | Some t =>
      match until_stop (stop p) t with
      | Some (body, rest) =>
          if Nat.leb (least p) (length body) then Some (body, rest) else None
      | None => None
      end
  | None => None
  end.

Lemma strip_key_length k s t : strip_key k s = Some t -> length t <= length s.
Proof.
  revert s; induction k as [|a k IH]; intros [|b s]; simpl; try congruence.
  - intros [= <-]; simpl; lia.
  - intros [= <-]; simpl; lia.
  - destruct (Ascii.eqb a b); [|discriminate]. intros H; apply IH in H; lia.
Qed.

Lemma until_stop_length c s b r :
  until_stop c s = Some (b, r) -> length r < length s.
Proof.
  revert b r; induction s as [|a s IH]; simpl; [discriminate|]. intros b r.
  destruct (Ascii.eqb a c). { intros [= _ <-]; lia. }
  destruct (until_stop c s) as [[b' r']|]; [|discriminate].
  intros [= _ <-]. specialize (IH _ _ eq_refl). lia.
Qed.

Lemma match_here_length p s b r :
  match_here p s = Some (b, r) -> length r < length s.
Proof.
  unfold match_here. destruct (strip_key (key p) s) as [t|] eqn:E; [|discriminate].
  destruct (until_stop (stop p) t) as [[b' r']|] eqn:U; [|discriminate].
  destruct (Nat.leb (least p) (length b')); [|discriminate]. intros [= _ <-].
  apply strip_key_length in E. apply until_stop_length in U. lia.
Qed.

(** [String.prototype.replace] with a global regular expression and a
    constant replacement: scan from the left, replace the leftmost match,
    resume right after it. *)
Equations? replace_all (p : pattern) (r : bytes) (s : bytes) : bytes
  by wf (length s) lt :=
  replace_all p r [] := [];
  replace_all p r (c :: s') with inspect (match_here p (c :: s')) => {
    | exist _ (Some (_, rest)) e := r ++ replace_all p r rest;
    | exist _ None _ := c :: replace_all p r s' }.
Proof.
  apply match_here_length in e. exact e.
Qed.

(** [String.prototype.match] without the global flag, used to find the
    insertion point [index + length] of the first match: the text up to and
    including the first match, and the text after it. *)
Fixpoint split_after_first (p : pattern) (s : bytes) : option (bytes * bytes) :=
  match s with
  | [] => None
  | c :: s' =>
      match match_here p s with
      | Some (body, rest) => Some (key p ++ body ++ [stop p], rest)
      | None =>
          match split_after_first p s' with
          | Some (pre, rest) => Some (c :: pre, rest)
          | None => None
          end
      end
  end.

(** The regular expressions of [ensureDeterministicPDF]. *)
Definition CreationDate_re : pattern :=
  {| key := lit "/CreationDate ("; stop := ")"%char; least := 0 |}.
Definition ModDate_re : pattern :=
  {| key := lit "/ModDate ("; stop := ")"%char; least := 0 |}.
Definition ID_re : pattern :=
  {| key := lit "/ID ["; stop := "]"%char; least := 1 |}.
Definition Producer_re : pattern :=
  {| key := lit "/Producer ("; stop := ")"%char; least := 0 |}.
Definition Creator_re : pattern :=
  {| key := lit "/Creator ("; stop := ")"%char; least := 0 |}.
Definition Title_re : pattern :=
  {| key := lit "/Title ("; stop := ")"%char; least := 0 |}.

Definition GENERATOR_NAME : bytes := lit "Resume PDF Generator".
Definition PRODUCER_ENTRY : bytes := lit "/Producer (Resume PDF Generator)".
Definition CREATOR_ENTRY : bytes := lit "/Creator (Resume PDF Generator)".

Record DeterministicConfig := {
  removeTimestamps : bool;
  fixedCreationDate : option bytes;
  removeVariableMetadata : bool
}.

Definition DEFAULT_DETERMINISTIC_CONFIG : DeterministicConfig :=
  {| removeTimestamps := true;
     fixedCreationDate := None;
     removeVariableMetadata := true |}.

(** JavaScript truthiness of the optional string [fixedCreationDate]. *)
Definition truthy_string (o : option bytes) : option bytes :=
  match o with
  | Some (c :: d) => Some (c :: d)
  | _ => None
  end.

(** [ensureDeterministicPDF], as a function of the file's content: the file
    is read whole, rewritten by the substitutions below and written back. *)
Definition ensureDeterministicPDF (config : DeterministicConfig) (pdf : bytes) : bytes :=
  if negb (removeTimestamps config) && negb (removeVariableMetadata config)
  then pdf
  else
    let s1 :=
      if removeTimestamps config
      then replace_all ModDate_re [] (replace_all CreationDate_re [] pdf)
      else pdf in
    let s2 :=
      if removeVariableMetadata config
      then replace_all Creator_re CREATOR_ENTRY
             (replace_all Producer_re PRODUCER_ENTRY
                (replace_all ID_re [] s1))
      else s1 in
    match truthy_string (fixedCreationDate config) with
    | Some d =>
        match split_after_first Title_re s2 with
        | Some (upto, rest) =>
            upto ++ (lit (String "010" "/CreationDate (") ++ d ++ lit ")") ++ rest
        | None => s2
        end
    | None => s2
    end.

(** The last step of [generatePDF]'s try block: the artifact is normalised
    unless [options.deterministic] is [false], with
    [options.deterministicConfig] or else the default configuration. *)
Definition normalize_output (deterministic : option bool)
    (deterministicConfig : option DeterministicConfig) (pdf : bytes) : bytes :=
  let shouldBeDeterministic :=
    match deterministic with Some false => false | _ => true end in
  if shouldBeDeterministic
  then ensureDeterministicPDF
         (match deterministicConfig with
          | Some c => c
          | None => DEFAULT_DETERMINISTIC_CONFIG
          end) pdf
  else pdf.

(** The bodies of all the entries of a pattern found in a byte string, at
    every position (not only the ones a left-to-right scan would visit). *)
Fixpoint values (q : pattern) (s : bytes) : list bytes :=
  match s with
  | [] => []
  | c :: s' =>
      match match_here q s with
      | Some (body, _) => body :: values q s'
      | None => values q s'
      end
  end.

(** The keys whose entries are deleted, and the words made of the proper
    start of one of them immediately followed by a whole one. *)
Definition deleted_keys : list bytes :=
  [key CreationDate_re; key ModDate_re; key ID_re].

Fixpoint proper_starts (k : bytes) : list bytes :=
  match k with
  | [] => []
  | [_] => []
  | a :: k' => [a] :: map (cons a) (proper_starts k')
  end.

Definition split_words : list bytes :=
  flat_map (fun k => flat_map (fun x => map (app x) deleted_keys) (proper_starts k))
           deleted_keys.

Definition starts_with (w s : bytes) : bool :=
  match strip_key w s with Some _ => true | None => false end.

(** [split_free s]: nowhere in [s] is a deleted key interrupted, after its
    first character and before its last, by another deleted key. *)
Fixpoint split_free (s : bytes) : bool :=
  match s with
  | [] => true
  | _ :: s' => negb (existsb (fun w => starts_with w s) split_words) && split_free s'
  end.

(** Shape of the patterns and replacements the normaliser uses: a key that
    starts with its only "/", a closing character other than "/", a body
    quantified by [*] or [+]; a replacement that is empty or is itself one
    entry of the pattern, with no "/" in its body. *)
Definition slash : ascii := "/"%char.

Definition no_slash (w : bytes) : bool := negb (existsb (Ascii.eqb slash) w).

Definition slash_key (k : bytes) : bool :=
  match k with
  | c :: k' => Ascii.eqb c slash && no_slash k'
  | [] => false
  end.

Definition wf_pattern (q : pattern) : bool :=
  slash_key (key q) && negb (Ascii.eqb (stop q) slash) && Nat.leb (least q) 1.

Definition wf_replacement (p : pattern) (r : bytes) : bool :=
  match r with
  | [] => true
  | _ => match match_here p r with
         | Some (b, []) => no_slash b
         | _ => false
         end
  end.

Definition is_suffix (u s : bytes) : Prop := exists pre, s = pre ++ u.

(** A deleted key is split in [s]: a proper, non-empty start [x] of one
    deleted key is immediately followed by a whole deleted key [l]. *)
Definition splits (s : bytes) : Prop :=
  exists pre x w l post,
    s = pre ++ x ++ l ++ post /\ x <> [] /\ w <> [] /\
    In (x ++ w) deleted_keys /\ In l deleted_keys.

(** ** Decomposition lemmas for the matcher *)

Lemma strip_key_spec k s t : strip_key k s = Some t <-> s = k ++ t.
Proof.
  revert s; induction k as [|a k IH]; intros s; simpl.
  - split; [intros [= ->]; reflexivity | intros ->; reflexivity].
  - destruct s as [|b s]; [split; discriminate|].
    destruct (Ascii.eqb_spec a b) as [->|N].
    + rewrite IH. split; [intros ->; reflexivity | intros [= ->]; reflexivity].
    + split; [discriminate | intros [= E _]; congruence].
Qed.

Lemma until_stop_sound c s b rest :
  until_stop c s = Some (b, rest) -> s = b ++ c :: rest /\ ~ In c b.
Proof.
  revert b rest; induction s as [|a s IH]; intros b rest; simpl; [discriminate|].
  destruct (Ascii.eqb_spec a c) as [->|N].
  - intros [= <- <-]. split; [reflexivity | intros []].
  - destruct (until_stop c s) as [[b' r']|]; [|discriminate].
    intros [= <- <-]. destruct (IH _ _ eq_refl) as [-> Hn].
    split; [reflexivity|]. intros [H|H]; [congruence | contradiction].
Qed.

Lemma until_stop_complete c b rest :
  ~ In c b -> until_stop c (b ++ c :: rest) = Some (b, rest).
Proof.
  induction b as [|x b IH]; intros Hn; simpl.
  - rewrite Ascii.eqb_refl. reflexivity.
  - destruct (Ascii.eqb_spec x c) as [->|N].
    + exfalso; apply Hn; left; reflexivity.
    + rewrite IH; [reflexivity|]. intros H; apply Hn; right; exact H.
Qed.

Lemma until_stop_spec c s b rest :
  until_stop c s = Some (b, rest) <-> s = b ++ c :: rest /\ ~ In c b.
Proof.
  split; [apply until_stop_sound|]. intros [-> Hn]. apply until_stop_complete, Hn.
Qed.

Lemma match_here_spec q s b rest :
  match_here q s = Some (b, rest) <->
  s = key q ++ b ++ stop q :: rest /\ ~ In (stop q) b /\ least q <= length b.
Proof.
  unfold match_here. split.
  - destruct (strip_key (key q) s) as [t|] eqn:E; [|discriminate].
    destruct (until_stop (stop q) t) as [[b' r']|] eqn:U; [|discriminate].
    destruct (Nat.leb_spec (least q) (length b')); [|discriminate].
    intros [= <- <-]. apply strip_key_spec in E. apply until_stop_spec in U.
    destruct U as [-> Hn]. subst s. auto.
  - intros (-> & Hn & Hl).
    assert (E : strip_key (key q) (key q ++ b ++ stop q :: rest)
                = Some (b ++ stop q :: rest)) by (apply strip_key_spec; reflexivity).
    rewrite E.
    assert (U : until_stop (stop q) (b ++ stop q :: rest) = Some (b, rest))
      by (apply until_stop_spec; auto).
    rewrite U. destruct (Nat.leb_spec (least q) (length b)); [reflexivity | lia].
Qed.

Lemma starts_with_spec w s : starts_with w s = true <-> exists t, s = w ++ t.
Proof.
  unfold starts_with. destruct (strip_key w s) as [t|] eqn:E.
  - apply strip_key_spec in E. split; [eauto | reflexivity].
  - split; [discriminate|]. intros [t Ht]. apply strip_key_spec in Ht. congruence.
Qed.

(** ** The scan, equation by equation *)

Lemma replace_all_nil p r : replace_all p r [] = [].
Proof. simp replace_all. reflexivity. Qed.

Lemma replace_all_hit p r s b rest :
  match_here p s = Some (b, rest) ->
  replace_all p r s = r ++ replace_all p r rest.
Proof.
  intros H. destruct s as [|c s].
  - apply match_here_length in H. simpl in H. lia.
  - simp replace_all.
    destruct (inspect (match_here p (c :: s))) as [[[b' rest']|] e].
    + assert (rest' = rest) as -> by congruence. reflexivity.
    + congruence.
Qed.

Lemma replace_all_miss p r c s :
  match_here p (c :: s) = None ->
  replace_all p r (c :: s) = c :: replace_all p r s.
Proof.
  intros H. simp replace_all.
  destruct (inspect (match_here p (c :: s))) as [[[b' rest']|] e].
  - congruence.
  - reflexivity.
Qed.

(** Induction along the scan. *)
Lemma scan_ind (p : pattern) (P : bytes -> Prop) :
  P [] ->
  (forall c s, match_here p (c :: s) = None -> P s -> P (c :: s)) ->
  (forall s b rest, match_here p s = Some (b, rest) -> P rest -> P s) ->
  forall s, P s.
Proof.
  intros Hnil Hmiss Hhit s.
  remember (length s) as n eqn:Hn.
  revert s Hn. induction n as [n IH] using lt_wf_ind. intros s Hn.
  destruct s as [|c s]; [exact Hnil|].
  destruct (match_here p (c :: s)) as [[b rest]|] eqn:M.
  - apply (Hhit _ _ _ M). apply (IH (length rest)); [|reflexivity].
    apply match_here_length in M. lia.
  - apply (Hmiss _ _ M). apply (IH (length s)); [|reflexivity].
    simpl in Hn. lia.
Qed.


(** ** Shape lemmas *)

Lemma no_slash_spec w : no_slash w = true <-> ~ In slash w.
Proof.
  unfold no_slash. rewrite negb_true_iff. split.
  - intros H Hin. assert (E : existsb (Ascii.eqb slash) w = true).
    { apply existsb_exists. exists slash. split; [exact Hin | apply Ascii.eqb_refl]. }
    congruence.
  - intros H. destruct (existsb (Ascii.eqb slash) w) eqn:E; [|reflexivity].
    apply existsb_exists in E. destruct E as (x & Hin & Hx).
    apply Ascii.eqb_eq in Hx. subst x. contradiction.
Qed.

Lemma slash_key_inv k :
  slash_key k = true -> exists k', k = slash :: k' /\ ~ In slash k'.
Proof.
  destruct k as [|c k']; simpl; [discriminate|].
  rewrite andb_true_iff, Ascii.eqb_eq, no_slash_spec. intros [-> H]. eauto.
Qed.

Lemma wf_pattern_inv q :
  wf_pattern q = true ->
  exists k, key q = slash :: k /\ ~ In slash k /\ stop q <> slash /\ least q <= 1.
Proof.
  unfold wf_pattern. rewrite !andb_true_iff, negb_true_iff, Ascii.eqb_neq, Nat.leb_le.
  intros [[Hk Hs] Hl]. destruct (slash_key_inv _ Hk) as (k & E & Hn). eauto.
Qed.

Lemma wf_replacement_inv p r :
  wf_replacement p r = true ->
  r = [] \/ exists v, r = key p ++ v ++ [stop p] /\ ~ In slash v /\ ~ In (stop p) v.
Proof.
  unfold wf_replacement. destruct r as [|c r']; [left; reflexivity|].
  destruct (match_here p (c :: r')) as [[b [|x rest]]|] eqn:M; try discriminate.
  intros Hb. right. exists b. apply match_here_spec in M.
  destruct M as (E & Hn & _). apply no_slash_spec in Hb. auto.
Qed.

Lemma match_here_head q c s :
  wf_pattern q = true -> c <> slash -> match_here q (c :: s) = None.
Proof.
  intros Hq Hc. destruct (wf_pattern_inv _ Hq) as (k & Ek & _).
  destruct (match_here q (c :: s)) as [[b rest]|] eqn:M; [|reflexivity].
  apply match_here_spec in M. destruct M as (E & _). rewrite Ek in E.
  simpl in E. congruence.
Qed.

Lemma until_stop_total c s : In c s -> exists b rest, until_stop c s = Some (b, rest).
Proof.
  induction s as [|a s IH]; simpl; [intros []|]. intros H.
  destruct (Ascii.eqb_spec a c) as [->|N]; [eauto|].
  destruct H as [H|H]; [congruence|]. destruct (IH H) as (b & rest & ->). eauto.
Qed.

Lemma is_suffix_refl s : is_suffix s s.
Proof. exists []. reflexivity. Qed.

Lemma is_suffix_cons u c s : is_suffix u s -> is_suffix u (c :: s).
Proof. intros [pre ->]. exists (c :: pre). reflexivity. Qed.

Lemma is_suffix_app u w s : is_suffix u s -> is_suffix u (w ++ s).
Proof. intros [pre ->]. exists (w ++ pre). rewrite app_assoc. reflexivity. Qed.

Lemma is_suffix_trans u v s : is_suffix u v -> is_suffix v s -> is_suffix u s.
Proof. intros [p1 ->] [p2 ->]. exists (p2 ++ p1). rewrite app_assoc. reflexivity. Qed.

Lemma match_here_suffix q s b rest : match_here q s = Some (b, rest) -> is_suffix rest s.
Proof.
  intros M. apply match_here_spec in M. destruct M as (-> & _).
  exists (key q ++ b ++ [stop q]). rewrite <- ?app_assoc. reflexivity.
Qed.

Lemma splits_suffix u s : is_suffix u s -> splits u -> splits s.
Proof.
  intros [pre ->] (pre' & x & w & l & post & -> & H).
  exists (pre ++ pre'), x, w, l, post. rewrite <- app_assoc. auto.
Qed.

Lemma values_spec q s b :
  In b (values q s) <->
  exists u rest, is_suffix u s /\ match_here q u = Some (b, rest).
Proof.
  induction s as [|c s IH]; simpl.
  - split; [intros []|]. intros (u & rest & [pre E] & M).
    symmetry in E. apply app_eq_nil in E. destruct E as [_ ->].
    apply match_here_length in M. simpl in M. lia.
  - split.
    + destruct (match_here q (c :: s)) as [[b0 r0]|] eqn:M.
      * intros [<-|H].
        -- exists (c :: s), r0. split; [apply is_suffix_refl | exact M].
        -- apply IH in H. destruct H as (u & rest & Hu & Mu).
           exists u, rest. split; [apply is_suffix_cons, Hu | exact Mu].
      * intros H. apply IH in H. destruct H as (u & rest & Hu & Mu).
        exists u, rest. split; [apply is_suffix_cons, Hu | exact Mu].
    + intros (u & rest & [pre E] & Mu). destruct pre as [|c' pre]; simpl in E.
      * subst u. rewrite Mu. left. reflexivity.
      * injection E as <- E.
        assert (H : In b (values q s)).
        { apply IH. exists u, rest. split; [exists pre; exact E | exact Mu]. }
        destruct (match_here q (c :: s)) as [[b0 r0]|]; [right|]; exact H.
Qed.

Lemma values_nil_spec q s :
  values q s = [] <-> forall u, is_suffix u s -> match_here q u = None.
Proof.
  split.
  - intros E u Hu. destruct (match_here q u) as [[b rest]|] eqn:M; [|reflexivity].
    assert (H : In b (values q s)) by (apply values_spec; eauto).
    rewrite E in H. destruct H.
  - intros H. destruct (values q s) as [|b l] eqn:E; [reflexivity|].
    assert (Hb : In b (values q s)) by (rewrite E; left; reflexivity).
    apply values_spec in Hb. destruct Hb as (u & rest & Hu & M).
    rewrite (H u Hu) in M. discriminate.
Qed.

(** ** One substitution pass *)

Section Pass.

Variables (p : pattern) (r : bytes).
Hypothesis Hp : wf_pattern p = true.
Hypothesis Hr : wf_replacement p r = true.

Local Abbreviation T := (replace_all p r).

(** The key of the pass's pattern interrupts the key of [q] at the head of
    [s]: a proper start of [key q] is followed by [key p]. *)
Definition interrupted (q : pattern) (s : bytes) : Prop :=
  exists x w u, x <> [] /\ w <> [] /\ key q = x ++ w /\ s = x ++ u /\
                starts_with (key p) u = true.

Lemma T_other c s : c <> slash -> T (c :: s) = c :: T s.
Proof. intros Hc. apply replace_all_miss. apply match_here_head; assumption. Qed.

Lemma T_app_other w s : ~ In slash w -> T (w ++ s) = w ++ T s.
Proof.
  induction w as [|c w IH]; intros H; simpl; [reflexivity|].
  rewrite T_other, IH; [reflexivity | |]; intros E; apply H; [right | left]; auto.
Qed.

Lemma replacement_head : r = [] \/ exists r', r = slash :: r' /\ ~ In slash r'.
Proof.
  destruct (wf_replacement_inv _ _ Hr) as [E|(v & E & Hv & _)]; [left; exact E|].
  right. destruct (wf_pattern_inv _ Hp) as (k & Ek & Hk & Hs & _).
  rewrite Ek in E. simpl in E. exists (k ++ v ++ [stop p]). split; [exact E|].
  rewrite !in_app_iff. simpl. intros [H|[H|[H|[]]]]; auto.
Qed.

Lemma match_here_starts s b rest :
  match_here p s = Some (b, rest) -> starts_with (key p) s = true.
Proof.
  intros M. apply match_here_spec in M. destruct M as (E & _).
  apply starts_with_spec. eauto.
Qed.

Lemma starts_with_no_match s : starts_with (key p) s = false -> match_here p s = None.
Proof.
  intros H. destruct (match_here p s) as [[b rest]|] eqn:M; [|reflexivity].
  apply match_here_starts in M. congruence.
Qed.

Lemma In_T c s : (In c r -> c = stop p) -> In c (T s) -> In c s.
Proof.
  intros Hc. induction s as [|a s Hm IH|s b rest M IH] using (scan_ind p).
  - rewrite replace_all_nil. auto.
  - rewrite (replace_all_miss p r _ _ Hm). simpl. intros [H|H]; auto.
  - rewrite (replace_all_hit p r _ _ _ M). apply match_here_spec in M.
    destruct M as (-> & _). rewrite in_app_iff. intros [H|H].
    + rewrite (Hc H). rewrite !in_app_iff. simpl. auto.
    + rewrite !in_app_iff. simpl. auto.
Qed.

(** Reading a "/"-free word off the output of the pass reads the same word
    off its input, unless the pass deleted an entry in the middle of it. *)
Lemma lockstep w : forall s t',
  ~ In slash w -> T s = w ++ t' ->
  (exists t, s = w ++ t /\ T t = t') \/
  (r = [] /\ exists w1 w2 s2,
      w = w1 ++ w2 /\ w2 <> [] /\ s = w1 ++ s2 /\ starts_with (key p) s2 = true).
Proof.
  induction w as [|k w IH]; intros s t' Hw E.
  - left. exists s. auto.
  - assert (Hk : k <> slash) by (intros ->; apply Hw; left; reflexivity).
    assert (Hw' : ~ In slash w) by (intros H; apply Hw; right; exact H).
    destruct s as [|c s]; [rewrite replace_all_nil in E; discriminate|].
    destruct (match_here p (c :: s)) as [[b rest]|] eqn:M.
    + rewrite (replace_all_hit p r _ _ _ M) in E.
      destruct replacement_head as [R|(r' & R & _)].
      * right. split; [exact R|]. exists [], (k :: w), (c :: s).
        repeat split; [discriminate | eapply match_here_starts; eauto].
      * rewrite R in E. simpl in E. congruence.
    + rewrite (replace_all_miss p r _ _ M) in E. simpl in E. injection E as -> E.
      destruct (IH _ _ Hw' E) as [(t & -> & Ht)|(R & w1 & w2 & s2 & -> & H2 & -> & Hs)].
      * left. exists t. auto.
      * right. split; [exact R|]. exists (k :: w1), w2, s2. auto.
Qed.

(** After the key: the closing character found in the output is found in
    the input too, after a body that is long enough. *)
Lemma body_phase q t b' rest' :
  wf_pattern q = true -> (In (stop q) r -> stop q = stop p) ->
  until_stop (stop q) (T t) = Some (b', rest') -> least q <= length b' ->
  exists b rest, until_stop (stop q) t = Some (b, rest) /\ least q <= length b.
Proof.
  intros Hq Hc U Hl. destruct (wf_pattern_inv _ Hq) as (k & _ & _ & Hs & Hl1).
  pose proof (until_stop_sound _ _ _ _ U) as [E Hn].
  assert (Hin : In (stop q) t).
  { apply (In_T _ _ Hc). rewrite E. rewrite in_app_iff. simpl. auto. }
  destruct (until_stop_total _ _ Hin) as (b & rest & U').
  exists b, rest. split; [exact U'|].
  destruct b as [|x b]; [|simpl; lia].
  apply until_stop_sound in U'. destruct U' as [-> _]. simpl in *.
  rewrite (T_other _ _ Hs) in U. simpl in U. rewrite Ascii.eqb_refl in U.
  injection U as <- _. exact Hl.
Qed.

(** An entry of [q] at a position of the output that the scan copied from
    the input is an entry of the input at the same position. *)
Lemma head_miss q c s b' rest' :
  wf_pattern q = true -> (In (stop q) r -> stop q = stop p) ->
  match_here p (c :: s) = None ->
  match_here q (c :: T s) = Some (b', rest') ->
  (exists b rest, match_here q (c :: s) = Some (b, rest) /\ (~ In slash b -> b' = b)) \/
  (r = [] /\ interrupted q (c :: s)).
Proof.
  intros Hq Hc Hm M. destruct (wf_pattern_inv _ Hq) as (k & Ek & Hk & Hs & _).
  apply match_here_spec in M. destruct M as (E & Hn & Hl).
  rewrite Ek in E. simpl in E. injection E as -> E.
  destruct (lockstep k _ _ Hk E)
    as [(t & -> & Ht)|(R & w1 & w2 & s2 & -> & H2 & -> & Hst)].
  - left.
    assert (U : until_stop (stop q) (T t) = Some (b', rest')).
    { rewrite Ht. apply until_stop_complete, Hn. }
    destruct (body_phase q _ _ _ Hq Hc U Hl) as (b & rest & U' & Hl').
    pose proof (until_stop_sound _ _ _ _ U') as [Et Hnb].
    exists b, rest. split.
    + apply match_here_spec. rewrite Ek, Et. simpl. auto.
    + intros Hb. rewrite Et, (T_app_other _ _ Hb), (T_other _ _ Hs) in U.
      rewrite (until_stop_complete _ _ _ Hnb) in U. congruence.
  - right. split; [exact R|]. exists (slash :: w1), w2, s2.
    rewrite Ek. repeat split; auto. discriminate.
Qed.

Lemma values_other q c s :
  wf_pattern q = true -> c <> slash -> values q (c :: s) = values q s.
Proof. intros Hq Hc. simpl. rewrite (match_here_head q c s Hq Hc). reflexivity. Qed.

Lemma values_app_other q w s :
  wf_pattern q = true -> ~ In slash w -> values q (w ++ s) = values q s.
Proof.
  intros Hq. induction w as [|c w IH]; intros H; [reflexivity|].
  change ((c :: w) ++ s) with (c :: (w ++ s)).
  rewrite values_other, IH; auto; intros E; apply H; [right | left]; auto.
Qed.

(** Where the entries of [q] in the output of the pass come from: from the
    replacement text, from an entry of the input at a position the scan did
    not replace, or from a key of [q] that a deletion closed up. *)
Lemma values_T q b' :
  wf_pattern q = true -> (In (stop q) r -> stop q = stop p) ->
  forall s, In b' (values q (T s)) ->
    (r <> [] /\ exists X rest, match_here q (r ++ X) = Some (b', rest))
    \/ (exists c u b rest,
          is_suffix (c :: u) s /\ match_here p (c :: u) = None /\
          match_here q (c :: u) = Some (b, rest) /\ (~ In slash b -> b' = b))
    \/ (r = [] /\ exists u, is_suffix u s /\ interrupted q u).
Proof.
  intros Hq Hc s.
  induction s as [|a s Hm IH|s b rest M IH] using (scan_ind p).
  - rewrite replace_all_nil. intros [].
  - rewrite (replace_all_miss p r _ _ Hm).
    assert (Tail : In b' (values q (T s)) ->
      (r <> [] /\ exists X rest, match_here q (r ++ X) = Some (b', rest))
      \/ (exists c u b rest,
            is_suffix (c :: u) (a :: s) /\ match_here p (c :: u) = None /\
            match_here q (c :: u) = Some (b, rest) /\ (~ In slash b -> b' = b))
      \/ (r = [] /\ exists u, is_suffix u (a :: s) /\ interrupted q u)).
    { intros H. destruct (IH H) as [H1|[(c & u & b & rest & Hu & H2)|(R & u & Hu & Hi)]].
      - left; exact H1.
      - right; left. exists c, u, b, rest. split; [apply is_suffix_cons, Hu | exact H2].
      - right; right. split; [exact R|]. exists u. split; [apply is_suffix_cons, Hu | exact Hi]. }
    simpl. destruct (match_here q (a :: T s)) as [[b0 r0]|] eqn:M0; [|exact Tail].
    intros [<-|H]; [|exact (Tail H)].
    destruct (head_miss q _ _ _ _ Hq Hc Hm M0) as [(b & rest & Mb & Hb)|(R & Hi)].
    + right; left. exists a, s, b, rest. split; [apply is_suffix_refl | auto].
    + right; right. split; [exact R|]. exists (a :: s). split; [apply is_suffix_refl | exact Hi].
  - rewrite (replace_all_hit p r _ _ _ M).
    assert (Tail : In b' (values q (T rest)) ->
      (r <> [] /\ exists X rest, match_here q (r ++ X) = Some (b', rest))
      \/ (exists c u b rest,
            is_suffix (c :: u) s /\ match_here p (c :: u) = None /\
            match_here q (c :: u) = Some (b, rest) /\ (~ In slash b -> b' = b))
      \/ (r = [] /\ exists u, is_suffix u s /\ interrupted q u)).
    { pose proof (match_here_suffix _ _ _ _ M) as Hsuf.
      intros H. destruct (IH H) as [H1|[(c & u & b1 & rest1 & Hu & H2)|(R & u & Hu & Hi)]].
      - left; exact H1.
      - right; left. exists c, u, b1, rest1. split; [eapply is_suffix_trans; eauto | exact H2].
      - right; right. split; [exact R|]. exists u. split; [eapply is_suffix_trans; eauto | exact Hi]. }
    clear IH. revert Tail. generalize (T rest). intros Y Tail.
    destruct replacement_head as [R|(r' & R & Hr')].
    + replace (r ++ Y) with Y by (rewrite R; reflexivity). exact Tail.
    + replace (r ++ Y) with (slash :: r' ++ Y) by (rewrite R; reflexivity).
      simpl. rewrite (values_app_other q _ _ Hq Hr').
      destruct (match_here q (slash :: r' ++ Y)) as [[b0 r0]|] eqn:M0; [|exact Tail].
      intros [<-|H]; [|exact (Tail H)].
      left. split; [rewrite R; discriminate|]. exists Y, r0.
      replace (r ++ Y) with (slash :: r' ++ Y) by (rewrite R; reflexivity). exact M0.
Qed.

(** Fixed points of a pass. *)
Lemma T_fixed_absent s : values p s = [] -> T s = s.
Proof.
  induction s as [|a s Hm IH|s b rest M IH] using (scan_ind p).
  - intros _. apply replace_all_nil.
  - simpl. rewrite Hm. intros H. rewrite (replace_all_miss p r _ _ Hm), (IH H). reflexivity.
  - intros H. exfalso.
    assert (Hb : In b (values p s)).
    { apply values_spec. exists s, rest. split; [apply is_suffix_refl | exact M]. }
    rewrite H in Hb. destruct Hb.
Qed.

Lemma T_fixed_same v s :
  r = key p ++ v ++ [stop p] -> Forall (eq v) (values p s) -> T s = s.
Proof.
  intros R. induction s as [|a s Hm IH|s b rest M IH] using (scan_ind p).
  - intros _. apply replace_all_nil.
  - simpl. rewrite Hm. intros H. rewrite (replace_all_miss p r _ _ Hm), (IH H). reflexivity.
  - intros H. rewrite (replace_all_hit p r _ _ _ M).
    assert (Hb : In b (values p s)).
    { apply values_spec. exists s, rest. split; [apply is_suffix_refl | exact M]. }
    rewrite Forall_forall in H. pose proof (H _ Hb) as <-.
    rewrite IH.
    + apply match_here_spec in M. destruct M as (-> & _). rewrite R.
      rewrite <- ?app_assoc. reflexivity.
    + apply Forall_forall. intros x Hx. apply H. apply values_spec in Hx.
      destruct Hx as (u & rest' & Hu & Mu). apply values_spec. exists u, rest'.
      split; [|exact Mu]. eapply is_suffix_trans; [exact Hu|].
      eapply match_here_suffix; eauto.
Qed.

End Pass.

(** ** Deletion passes and split keys *)

Lemma deleted_keys_shape k : In k deleted_keys -> slash_key k = true.
Proof.
  assert (H : forallb slash_key deleted_keys = true) by reflexivity.
  rewrite forallb_forall in H. apply H.
Qed.

Lemma proper_starts_spec x w : x <> [] -> w <> [] -> In x (proper_starts (x ++ w)).
Proof.
  induction x as [|a x IH]; intros Hx Hw; [congruence|].
  destruct x as [|b x].
  - destruct w as [|c w]; [congruence|]. simpl. left. reflexivity.
  - change (In (a :: b :: x) (proper_starts (a :: (b :: x) ++ w))).
    assert (IH' : In (b :: x) (proper_starts ((b :: x) ++ w))) by (apply IH; [discriminate | exact Hw]).
    simpl. simpl in IH'. right. apply in_map. exact IH'.
Qed.

Lemma split_free_sound s : split_free s = true -> ~ splits s.
Proof.
  intros H (pre & x & w & l & post & E & Hx & Hw & Hxw & Hl). subst s.
  induction pre as [|c pre IH].
  - destruct x as [|a x]; [congruence|]. simpl in H.
    apply andb_true_iff in H. destruct H as [H _]. apply negb_true_iff in H.
    assert (E : existsb (fun w0 => starts_with w0 ((a :: x) ++ l ++ post)) split_words = true).
    { apply existsb_exists. exists ((a :: x) ++ l). split.
      - unfold split_words. apply in_flat_map. exists ((a :: x) ++ w). split; [exact Hxw|].
        apply in_flat_map. exists (a :: x). split; [apply proper_starts_spec; assumption|].
        apply in_map. exact Hl.
      - apply starts_with_spec. exists post. rewrite <- app_assoc. reflexivity. }
    simpl in E. congruence.
  - simpl in H. apply andb_true_iff in H. destruct H as [_ H]. apply IH, H.
Qed.

Lemma interrupted_splits p q u :
  In (key p) deleted_keys -> In (key q) deleted_keys ->
  interrupted p q u -> splits u.
Proof.
  intros Kp Kq (x & w & t & Hx & Hw & E & -> & St).
  apply starts_with_spec in St. destruct St as [t' ->].
  exists [], x, w, (key p), t'. rewrite <- E. auto.
Qed.

Lemma suffix_deleted p s u' :
  u' <> [] -> is_suffix u' (replace_all p [] s) ->
  exists c u, is_suffix (c :: u) s /\ match_here p (c :: u) = None /\
              replace_all p [] (c :: u) = u'.
Proof.
  intros Hu. induction s as [|a s Hm IH|s b rest M IH] using (scan_ind p).
  - rewrite replace_all_nil. intros [pre E]. symmetry in E.
    apply app_eq_nil in E. destruct E; congruence.
  - rewrite (replace_all_miss p [] _ _ Hm). intros [[|c pre] E]; simpl in E.
    + exists a, s. split; [apply is_suffix_refl|]. split; [exact Hm|].
      rewrite (replace_all_miss p [] _ _ Hm). auto.
    + injection E as _ E. destruct IH as (c' & u & Hs & H); [exists pre; exact E|].
      exists c', u. split; [apply is_suffix_cons, Hs | exact H].
  - rewrite (replace_all_hit p [] _ _ _ M). simpl. intros H.
    destruct (IH H) as (c & u & Hs & H'). exists c, u. split; [|exact H'].
    eapply is_suffix_trans; [exact Hs|]. eapply match_here_suffix; eauto.
Qed.

(** Deleting entries never splits a key that was whole. *)
Lemma splits_deleted p s :
  wf_pattern p = true -> In (key p) deleted_keys ->
  splits (replace_all p [] s) -> splits s.
Proof.
  intros Hp Kp (pre' & x & w & l & post & E & Hx & Hw & Hxw & Hl).
  destruct (suffix_deleted p s (x ++ l ++ post)) as (c & u & Hsuf & Hm & ET).
  { destruct x; [congruence | discriminate]. }
  { exists pre'. exact E. }
  apply (splits_suffix _ _ Hsuf). clear E Hsuf pre' s.
  destruct (slash_key_inv _ (deleted_keys_shape _ Hxw)) as (kx & Ekx & Hkx).
  destruct (slash_key_inv _ (deleted_keys_shape _ Hl)) as (lr & -> & Hlr).
  destruct x as [|x0 xr]; [congruence|]. simpl in Ekx. injection Ekx as -> Ekx.
  assert (Hxr : ~ In slash xr).
  { intros H. apply Hkx. rewrite <- Ekx. apply in_app_iff. auto. }
  rewrite (replace_all_miss p [] _ _ Hm) in ET. simpl in ET. injection ET as -> ET.
  destruct (lockstep p [] Hp eq_refl xr _ _ Hxr ET)
    as [(t & -> & Ht)|(_ & w1 & w2 & s2 & -> & H2 & -> & St)].
  - destruct (starts_with (key p) t) eqn:St.
    + apply starts_with_spec in St. destruct St as [t' ->].
      exists [], (slash :: xr), w, (key p), t'. simpl. rewrite <- ?app_assoc. auto.
    + pose proof (starts_with_no_match p _ St) as Hm2.
      destruct t as [|c2 t2]; [rewrite replace_all_nil in Ht; discriminate|].
      rewrite (replace_all_miss p [] _ _ Hm2) in Ht. simpl in Ht. injection Ht as -> Ht.
      destruct (lockstep p [] Hp eq_refl lr _ _ Hlr Ht)
        as [(t3 & -> & _)|(_ & w1 & w2 & s2 & -> & H2 & -> & St2)].
      * exists [], (slash :: xr), w, (slash :: lr), t3. simpl. rewrite <- ?app_assoc. auto.
      * apply starts_with_spec in St2. destruct St2 as [s3 ->].
        exists (slash :: xr), (slash :: w1), w2, (key p), s3. simpl.
        rewrite <- ?app_assoc. repeat split; auto; discriminate.
  - apply starts_with_spec in St. destruct St as [s3 ->].
    exists [], (slash :: w1), (w2 ++ w), (key p), s3. simpl.
    rewrite <- ?app_assoc. repeat split; auto.
    + discriminate.
    + intros H. apply app_eq_nil in H. destruct H; congruence.
    + simpl in Hxw. rewrite <- ?app_assoc in Hxw. exact Hxw.
Qed.

(** What a deletion pass achieves on an input with no split key. *)
Section Deletion.

Variable p : pattern.
Hypothesis Hp : wf_pattern p = true.
Hypothesis Kp : In (key p) deleted_keys.

Lemma deleted_gone s : ~ splits s -> values p (replace_all p [] s) = [].
Proof.
  intros Hs. destruct (values p (replace_all p [] s)) as [|b' l] eqn:E; [reflexivity|].
  exfalso. assert (Hb : In b' (values p (replace_all p [] s))) by (rewrite E; left; reflexivity).
  destruct (values_T p [] Hp eq_refl p b' Hp (fun H => False_ind _ H) s Hb)
    as [[H _]|[(c & u & b & rest & _ & Hm & M & _)|(_ & u & Hu & Hi)]].
  - congruence.
  - congruence.
  - apply Hs. apply (splits_suffix _ _ Hu). eapply interrupted_splits; eauto.
Qed.

Lemma deleted_keeps_absent q s :
  wf_pattern q = true -> In (key q) deleted_keys -> ~ splits s ->
  values q s = [] -> values q (replace_all p [] s) = [].
Proof.
  intros Hq Kq Hs Hv.
  destruct (values q (replace_all p [] s)) as [|b' l] eqn:E; [reflexivity|].
  exfalso. assert (Hb : In b' (values q (replace_all p [] s))) by (rewrite E; left; reflexivity).
  destruct (values_T p [] Hp eq_refl q b' Hq (fun H => False_ind _ H) s Hb)
    as [[H _]|[(c & u & b & rest & Hu & Hm & M & _)|(_ & u & Hu & Hi)]].
  - congruence.
  - rewrite values_nil_spec in Hv. rewrite (Hv _ Hu) in M. discriminate.
  - apply Hs. apply (splits_suffix _ _ Hu). exact (interrupted_splits p q u Kp Kq Hi).
Qed.

Lemma deleted_no_split s : ~ splits s -> ~ splits (replace_all p [] s).
Proof. intros Hs H. apply Hs. eapply splits_deleted; eauto. Qed.

End Deletion.

(** ** Replacement passes *)

Lemma strip_key_within k : forall r X t,
  strip_key k (r ++ X) = Some t -> length k <= length r -> starts_with k r = true.
Proof.
  unfold starts_with.
  induction k as [|a k IH]; intros r X t H Hl; simpl; [reflexivity|].
  destruct r as [|b r]; simpl in *; [lia|].
  destruct (Ascii.eqb a b); [|discriminate].
  apply (IH r X t H). lia.
Qed.

Lemma no_head_match q r X :
  starts_with (key q) r = false -> length (key q) <= length r ->
  match_here q (r ++ X) = None.
Proof.
  intros Hs Hl. unfold match_here.
  destruct (strip_key (key q) (r ++ X)) as [t|] eqn:E; [|reflexivity].
  rewrite (strip_key_within _ _ _ _ E Hl) in Hs. discriminate.
Qed.

Section Replacement.

Variables (p : pattern) (v : bytes).
Let r := key p ++ v ++ [stop p].
Hypothesis Hp : wf_pattern p = true.
Hypothesis Hr : wf_replacement p r = true.
Hypothesis Hv : ~ In (stop p) v.
Hypothesis Hl : least p <= length v.

Lemma replacement_nonempty : r <> [].
Proof.
  unfold r. destruct (wf_pattern_inv _ Hp) as (k & -> & _). discriminate.
Qed.

Lemma replaced_values s : Forall (eq v) (values p (replace_all p r s)).
Proof.
  apply Forall_forall. intros b' Hb.
  destruct (values_T p r Hp Hr p b' Hp (fun _ => eq_refl) s Hb)
    as [(_ & X & rest & M)|[(c & u & b & rest & _ & Hm & M & _)|(R & _)]].
  - assert (M' : match_here p (r ++ X) = Some (v, X)).
    { apply match_here_spec. unfold r. rewrite <- !app_assoc. simpl. auto. }
    congruence.
  - congruence.
  - exfalso. exact (replacement_nonempty R).
Qed.

Lemma replaced_keeps_absent q s :
  wf_pattern q = true -> (In (stop q) r -> stop q = stop p) ->
  starts_with (key q) r = false -> length (key q) <= length r ->
  values q s = [] -> values q (replace_all p r s) = [].
Proof.
  intros Hq Hc Hs Hlen H0.
  destruct (values q (replace_all p r s)) as [|b' l] eqn:E; [reflexivity|].
  exfalso. assert (Hb : In b' (values q (replace_all p r s))) by (rewrite E; left; reflexivity).
  destruct (values_T p r Hp Hr q b' Hq Hc s Hb)
    as [(_ & X & rest & M)|[(c & u & b & rest & Hu & _ & M & _)|(R & _)]].
  - rewrite (no_head_match q r X Hs Hlen) in M. discriminate.
  - rewrite values_nil_spec in H0. rewrite (H0 _ Hu) in M. discriminate.
  - exact (replacement_nonempty R).
Qed.

Lemma replaced_keeps_values q v' s :
  wf_pattern q = true -> (In (stop q) r -> stop q = stop p) ->
  starts_with (key q) r = false -> length (key q) <= length r ->
  ~ In slash v' ->
  Forall (eq v') (values q s) -> Forall (eq v') (values q (replace_all p r s)).
Proof.
  intros Hq Hc Hs Hlen Hv' H0. apply Forall_forall. intros b' Hb.
  destruct (values_T p r Hp Hr q b' Hq Hc s Hb)
    as [(_ & X & rest & M)|[(c & u & b & rest & Hu & _ & M & Hbb)|(R & _)]].
  - rewrite (no_head_match q r X Hs Hlen) in M. discriminate.
  - rewrite Forall_forall in H0.
    assert (Eb : v' = b) by (apply H0; apply values_spec; eauto).
    subst b. symmetry. apply Hbb, Hv'.
  - exfalso. exact (replacement_nonempty R).
Qed.

End Replacement.

(** ** The passes of [ensureDeterministicPDF] *)

Definition no_timestamps (s : bytes) : Prop :=
  values CreationDate_re s = [] /\ values ModDate_re s = [].

Definition fixed_metadata (s : bytes) : Prop :=
  values ID_re s = [] /\
  Forall (eq GENERATOR_NAME) (values Producer_re s) /\
  Forall (eq GENERATOR_NAME) (values Creator_re s).

Definition strip_timestamps (s : bytes) : bytes :=
  replace_all ModDate_re [] (replace_all CreationDate_re [] s).

Definition strip_variable (s : bytes) : bytes :=
  replace_all Creator_re CREATOR_ENTRY
    (replace_all Producer_re PRODUCER_ENTRY (replace_all ID_re [] s)).

Lemma In_1 {A} (a : A) l : In a (a :: l).
Proof. left; reflexivity. Qed.
Lemma In_2 {A} (a b : A) l : In b (a :: b :: l).
Proof. right; left; reflexivity. Qed.
Lemma In_3 {A} (a b c : A) l : In c (a :: b :: c :: l).
Proof. right; right; left; reflexivity. Qed.

Lemma absent_spec (c : ascii) (w : bytes) :
  existsb (Ascii.eqb c) w = false -> ~ In c w.
Proof.
  intros H Hin.
  assert (E : existsb (Ascii.eqb c) w = true).
  { apply existsb_exists. exists c. split; [exact Hin | apply Ascii.eqb_refl]. }
  congruence.
Qed.

Lemma generator_name_closed : ~ In ")"%char GENERATOR_NAME.
Proof. apply absent_spec. reflexivity. Qed.

Lemma generator_name_length : 0 <= length GENERATOR_NAME.
Proof. apply Nat.le_0_l. Qed.

Lemma stop_other (c d : ascii) (r : bytes) :
  negb (existsb (Ascii.eqb c) r) || Ascii.eqb c d = true -> In c r -> c = d.
Proof.
  intros H Hin. apply orb_true_iff in H. destruct H as [H|H].
  - apply negb_true_iff in H.
    assert (E : existsb (Ascii.eqb c) r = true).
    { apply existsb_exists. exists c. split; [exact Hin | apply Ascii.eqb_refl]. }
    congruence.
  - apply Ascii.eqb_eq, H.
Qed.

Lemma strip_timestamps_spec s :
  ~ splits s ->
  no_timestamps (strip_timestamps s) /\ ~ splits (strip_timestamps s) /\
  (values ID_re s = [] -> values ID_re (strip_timestamps s) = []).
Proof.
  intros Hs. unfold strip_timestamps, no_timestamps.
  pose proof (deleted_no_split CreationDate_re eq_refl (In_1 _ _) s Hs) as Hs1.
  pose proof (deleted_gone CreationDate_re eq_refl (In_1 _ _) s Hs) as H1.
  repeat split.
  - apply (deleted_keeps_absent ModDate_re eq_refl (In_2 _ _ _)); auto.
    apply In_1.
  - apply (deleted_gone ModDate_re eq_refl (In_2 _ _ _)); auto.
  - apply (deleted_no_split ModDate_re eq_refl (In_2 _ _ _)); auto.
  - intros H0.
    apply (deleted_keeps_absent ModDate_re eq_refl (In_2 _ _ _)); auto; [apply In_3|].
    apply (deleted_keeps_absent CreationDate_re eq_refl (In_1 _ _)); auto. apply In_3.
Qed.

Lemma strip_variable_spec s :
  ~ splits s ->
  fixed_metadata (strip_variable s) /\
  (no_timestamps s -> no_timestamps (strip_variable s)).
Proof.
  intros Hs. unfold strip_variable, fixed_metadata, no_timestamps.
  set (s3 := replace_all ID_re [] s).
  set (s4 := replace_all Producer_re PRODUCER_ENTRY s3).
  pose proof (deleted_gone ID_re eq_refl (In_3 _ _ _ _) s Hs) as H3. fold s3 in H3.
  assert (P : forall q t, wf_pattern q = true ->
              negb (existsb (Ascii.eqb (stop q)) PRODUCER_ENTRY)
              || Ascii.eqb (stop q) (stop Producer_re) = true ->
              starts_with (key q) PRODUCER_ENTRY = false ->
              length (key q) <= length PRODUCER_ENTRY ->
              values q t = [] ->
              values q (replace_all Producer_re PRODUCER_ENTRY t) = []).
  { intros q t Hq Hc Hst Hlen H0.
    apply (replaced_keeps_absent Producer_re GENERATOR_NAME eq_refl eq_refl q t Hq);
      auto. apply stop_other, Hc. }
  assert (C : forall q t, wf_pattern q = true ->
              negb (existsb (Ascii.eqb (stop q)) CREATOR_ENTRY)
              || Ascii.eqb (stop q) (stop Creator_re) = true ->
              starts_with (key q) CREATOR_ENTRY = false ->
              length (key q) <= length CREATOR_ENTRY ->
              values q t = [] ->
              values q (replace_all Creator_re CREATOR_ENTRY t) = []).
  { intros q t Hq Hc Hst Hlen H0.
    apply (replaced_keeps_absent Creator_re GENERATOR_NAME eq_refl eq_refl q t Hq);
      auto. apply stop_other, Hc. }
  split; [split; [|split]|].
  - apply C; try reflexivity; [simpl; lia|]. apply P; try reflexivity; [simpl; lia|]. exact H3.
  - apply (replaced_keeps_values Creator_re GENERATOR_NAME eq_refl eq_refl
             Producer_re GENERATOR_NAME s4 eq_refl).
    + apply stop_other. reflexivity.
    + reflexivity.
    + simpl; lia.
    + apply no_slash_spec. reflexivity.
    + apply (replaced_values Producer_re GENERATOR_NAME eq_refl eq_refl
               generator_name_closed generator_name_length).
  - apply (replaced_values Creator_re GENERATOR_NAME eq_refl eq_refl
             generator_name_closed generator_name_length).
  - intros [Hc Hm]. split.
    + apply C; try reflexivity; [simpl; lia|]. apply P; try reflexivity; [simpl; lia|].
      apply (deleted_keeps_absent ID_re eq_refl (In_3 _ _ _ _)); auto. apply In_1.
    + apply C; try reflexivity; [simpl; lia|]. apply P; try reflexivity; [simpl; lia|].
      apply (deleted_keeps_absent ID_re eq_refl (In_3 _ _ _ _)); auto. apply In_2.
Qed.

(** A normalised artifact is left as it is by each group of passes. *)
Lemma strip_timestamps_fixed s : no_timestamps s -> strip_timestamps s = s.
Proof.
  intros [Hc Hm]. unfold strip_timestamps.
  rewrite (T_fixed_absent CreationDate_re [] s Hc).
  apply (T_fixed_absent ModDate_re [] s Hm).
Qed.

Lemma strip_variable_fixed s : fixed_metadata s -> strip_variable s = s.
Proof.
  intros (Hi & Hp & Hc). unfold strip_variable.
  rewrite (T_fixed_absent ID_re [] s Hi).
  rewrite (T_fixed_same Producer_re PRODUCER_ENTRY GENERATOR_NAME s eq_refl Hp).
  apply (T_fixed_same Creator_re CREATOR_ENTRY GENERATOR_NAME s eq_refl Hc).
Qed.

Example replace_example :
  replace_all ID_re [] (lit "trailer /ID [<ab><cd>] /Size 4") = lit "trailer  /Size 4".
Proof. reflexivity. Qed.

Example ensure_example :
  ensureDeterministicPDF DEFAULT_DETERMINISTIC_CONFIG
    (lit "<</Title (CV)/Creator (Chromium)/Producer (Skia/PDF m120)/CreationDate (D:20240102030405+00'00')/ModDate (D:20240102030405+00'00')>>")
  = lit "<</Title (CV)/Creator (Resume PDF Generator)/Producer (Resume PDF Generator)>>".
Proof. reflexivity. Qed.

(** ** Statements about [ensureDeterministicPDF] *)

Lemma ensure_without_fixed_date config pdf :
  truthy_string (fixedCreationDate config) = None ->
  ensureDeterministicPDF config pdf =
    match removeTimestamps config, removeVariableMetadata config with
    | true, true => strip_variable (strip_timestamps pdf)
    | true, false => strip_timestamps pdf
    | false, true => strip_variable pdf
    | false, false => pdf
    end.
Proof.
  intros H. unfold ensureDeterministicPDF. rewrite H.
  destruct (removeTimestamps config), (removeVariableMetadata config); reflexivity.
Qed.

(** C1, as amended.  With the default configuration (which is what
    [generatePDF] applies when [options.deterministic] is not [false] and no
    configuration is given), and for an artifact in which no [/CreationDate (],
    [/ModDate (] or [/ID [] key is interrupted by another such key, the output
    has no [/CreationDate (...)] entry, no [/ModDate (...)] entry, no
    [/ID [...]] array, and every [/Producer (...)] and [/Creator (...)] value is
    [Resume PDF Generator]. *)
Theorem default_normalization (deterministic : option bool) (pdf : bytes) :
  split_free pdf = true ->
  deterministic <> Some false ->
  normalize_output deterministic None pdf
    = ensureDeterministicPDF DEFAULT_DETERMINISTIC_CONFIG pdf /\
  let out := ensureDeterministicPDF DEFAULT_DETERMINISTIC_CONFIG pdf in
  values CreationDate_re out = [] /\
  values ModDate_re out = [] /\
  values ID_re out = [] /\
  Forall (eq GENERATOR_NAME) (values Producer_re out) /\
  Forall (eq GENERATOR_NAME) (values Creator_re out).
Proof.
  intros Hs Hd. split.
  - unfold normalize_output. destruct deterministic as [[|]|]; congruence.
  - rewrite (ensure_without_fixed_date DEFAULT_DETERMINISTIC_CONFIG pdf eq_refl).
    cbn [removeTimestamps removeVariableMetadata DEFAULT_DETERMINISTIC_CONFIG].
    apply split_free_sound in Hs.
    destruct (strip_timestamps_spec pdf Hs) as (Ht & Hs1 & _).
    destruct (strip_variable_spec (strip_timestamps pdf) Hs1) as ((Hi & Hp & Hc) & Hk).
    destruct (Hk Ht) as [Hcd Hmd]. cbv zeta. auto.
Qed.

Definition sample_pdf : bytes :=
  lit "<</Title (CV)/Creator (Chromium)/Producer (Skia/PDF m120)/CreationDate (D:20240102030405+00'00')/ModDate (D:20240102030405+00'00')>> trailer <</ID [<0a1b><2c3d>]>>".

Lemma default_normalization_witness :
  let out := ensureDeterministicPDF DEFAULT_DETERMINISTIC_CONFIG sample_pdf in
  values CreationDate_re out = [] /\
  values ModDate_re out = [] /\
  values ID_re out = [] /\
  Forall (eq GENERATOR_NAME) (values Producer_re out) /\
  Forall (eq GENERATOR_NAME) (values Creator_re out).
Proof.
  refine (proj2 (default_normalization None sample_pdf _ _)).
  - reflexivity.
  - discriminate.
Defined.

(** C1 as stated fails: deleting the [/ID [...]] array can close a
    [/CreationDate (...)] entry up around it, and that entry is in the
    output. *)
Lemma spliced_creation_date_survives :
  let pdf := lit "/CreationDate /ID [<0a1b>](D:20240102030405Z)" in
  let out := ensureDeterministicPDF DEFAULT_DETERMINISTIC_CONFIG pdf in
  out = lit "/CreationDate (D:20240102030405Z)" /\
  values CreationDate_re out = [lit "D:20240102030405Z"].
Proof. split; reflexivity. Qed.

(** C2, as amended.  For every configuration without a (non-empty)
    [fixedCreationDate] and every artifact with no interrupted key, applying
    [ensureDeterministicPDF] twice gives the same bytes as applying it
    once. *)
Theorem normalization_idempotent (config : DeterministicConfig) (pdf : bytes) :
  truthy_string (fixedCreationDate config) = None ->
  split_free pdf = true ->
  ensureDeterministicPDF config (ensureDeterministicPDF config pdf)
  = ensureDeterministicPDF config pdf.
Proof.
  intros Hf Hs. rewrite !(ensure_without_fixed_date config _ Hf).
  apply split_free_sound in Hs.
  destruct (strip_timestamps_spec pdf Hs) as (Ht & Hs1 & _).
  destruct (removeTimestamps config), (removeVariableMetadata config).
  - destruct (strip_variable_spec (strip_timestamps pdf) Hs1) as (Hm & Hk).
    rewrite (strip_timestamps_fixed _ (Hk Ht)). apply strip_variable_fixed, Hm.
  - apply strip_timestamps_fixed, Ht.
  - destruct (strip_variable_spec pdf Hs) as (Hm & _).
    apply strip_variable_fixed, Hm.
  - reflexivity.
Qed.

Lemma normalization_idempotent_witness :
  ensureDeterministicPDF DEFAULT_DETERMINISTIC_CONFIG
    (ensureDeterministicPDF DEFAULT_DETERMINISTIC_CONFIG sample_pdf)
  = ensureDeterministicPDF DEFAULT_DETERMINISTIC_CONFIG sample_pdf.
Proof.
  apply (normalization_idempotent DEFAULT_DETERMINISTIC_CONFIG sample_pdf);
    reflexivity.
Defined.

Definition fixed_date_config : DeterministicConfig :=
  {| removeTimestamps := true;
     fixedCreationDate := Some (lit "D:20240101000000+00'00'");
     removeVariableMetadata := true |}.

(** C2 as stated fails.  With a fixed creation date, the second application
    deletes the inserted entry but not the line break before it, and inserts
    the entry again: the artifact grows by one byte per application.  With
    the default configuration it fails on an artifact with an interrupted
    key. *)
Lemma fixed_date_not_idempotent :
  ensureDeterministicPDF fixed_date_config (lit "<</Title (CV)>>")
    = lit ("<</Title (CV)" ++ String "010" "/CreationDate (D:20240101000000+00'00')>>") /\
  ensureDeterministicPDF fixed_date_config
    (ensureDeterministicPDF fixed_date_config (lit "<</Title (CV)>>"))
    = lit ("<</Title (CV)" ++ String "010" "/CreationDate (D:20240101000000+00'00')" ++ String "010" ">>") /\
  ensureDeterministicPDF fixed_date_config
    (ensureDeterministicPDF fixed_date_config (lit "<</Title (CV)>>"))
    <> ensureDeterministicPDF fixed_date_config (lit "<</Title (CV)>>") /\
  ensureDeterministicPDF DEFAULT_DETERMINISTIC_CONFIG
    (ensureDeterministicPDF DEFAULT_DETERMINISTIC_CONFIG (lit "/I/ID [a]D [b]"))
    <> ensureDeterministicPDF DEFAULT_DETERMINISTIC_CONFIG (lit "/I/ID [a]D [b]").
Proof.
  split; [reflexivity|]. split; [reflexivity|]. split.
  - vm_compute. discriminate.
  - vm_compute. discriminate.
Qed.

End Normalizer.

(* ===================================================================== *)
(** * The host's [Date] and the date helpers of the HTML generator       *)
(* ===================================================================== *)

(** The part of ECMAScript's [Date] that [formatDate] and [formatYear] use,
    following the abstract operations of the language specification (Day,
    DayFromYear, YearFromTime, MonthFromTime, MakeDay, MakeDate, TimeClip,
    UTC, LocalTime).  Time values are integers, in milliseconds since the
    epoch; [None] stands for NaN and for an invalid date. *)
Module JsDate.

Open Scope Z_scope.

Definition msPerDay : Z := 86400000.

Definition Day (t : Z) : Z := t / msPerDay.

Definition InLeapYear (y : Z) : bool :=
  if negb (y mod 4 =? 0) then false
  else if negb (y mod 100 =? 0) then true
  else if negb (y mod 400 =? 0) then false
  else true.

Definition DaysInYear (y : Z) : Z := if InLeapYear y then 366 else 365.

Definition DayFromYear (y : Z) : Z :=
  365 * (y - 1970) + (y - 1969) / 4 - (y - 1901) / 100 + (y - 1601) / 400.

(** YearFromTime: the largest year whose first day is not after the given
    day.  It is found by counting up from a year that is not after it. *)
Definition year_lower (d : Z) : Z :=
  1970 + (if 0 <=? d then d / 366 else d / 365).

Definition year_upper (d : Z) : Z :=
  1970 + (if 0 <=? d then d / 365 else d / 366).

Fixpoint year_search (fuel : nat) (y d : Z) : Z :=
  match fuel with
  | O => y
  | S f => if DayFromYear (y + 1) <=? d then year_search f (y + 1) d else y
  end.

Definition YearFromDay (d : Z) : Z :=
  year_search (Z.to_nat (year_upper d - year_lower d)) (year_lower d) d.

Definition YearFromTime (t : Z) : Z := YearFromDay (Day t).

Definition DayWithinYear (t : Z) : Z := Day t - DayFromYear (YearFromTime t).

(** Day within the year on which month [mn] (0 for January) starts; 12
    gives the length of the year. *)
Definition month_start (leap : bool) (mn : Z) : Z :=
  let l := if leap then 1 else 0 in
  match mn with
  | 0 => 0
  | 1 => 31
  | 2 => 59 + l
  | 3 => 90 + l
  | 4 => 120 + l
  | 5 => 151 + l
  | 6 => 181 + l
  | 7 => 212 + l
  | 8 => 243 + l
  | 9 => 273 + l
  | 10 => 304 + l
  | 11 => 334 + l
  | _ => 365 + l
  end.

Definition MonthFromTime (t : Z) : Z :=
  let d := DayWithinYear t in
  let leap := InLeapYear (YearFromTime t) in
  if d <? month_start leap 1 then 0
  else if d <? month_start leap 2 then 1
  else if d <? month_start leap 3 then 2
  else if d <? month_start leap 4 then 3
  else if d <? month_start leap 5 then 4
  else if d <? month_start leap 6 then 5
  else if d <? month_start leap 7 then 6
  else if d <? month_start leap 8 then 7
  else if d <? month_start leap 9 then 8
  else if d <? month_start leap 10 then 9
  else if d <? month_start leap 11 then 10
  else 11.

Definition MakeDay (year month date : Z) : Z :=
  let ym := year + month / 12 in
  let mn := month mod 12 in
  DayFromYear ym + month_start (InLeapYear ym) mn + date - 1.

Definition MakeDate (day time : Z) : Z := day * msPerDay + time.

Definition TimeClip (t : Z) : option Z :=
  if Z.abs t <=? 8640000000000000 then Some t else None.

(** What the host supplies: the time zone ([LocalTZA t isUTC], the offset of
    local time in milliseconds), [Number] applied to a string (its integer
    value, [None] for NaN; values that are not integers are outside this
    model) and the [Date] constructor applied to a string. *)
Record host := {
  LocalTZA : Z -> bool -> Z;
  ToNumber : bytes -> option Z;
  DateParse : bytes -> option Z
}.

Definition UTC (h : host) (t : Z) : Z := t - LocalTZA h t false.

Definition LocalTime (h : host) (t : Z) : Z := t + LocalTZA h t true.

(** A year from 0 to 99 given to the [Date] constructor means 1900 + year. *)
Definition MakeFullYear (y : Z) : Z :=
  if (0 <=? y) && (y <=? 99) then 1900 + y else y.

(** [new Date(year, month, date)]. *)
Definition Date_of_fields (h : host) (year month date : option Z) : option Z :=
  match year, month, date with
  | Some y, Some m, Some dt =>
      TimeClip (UTC h (MakeDate (MakeDay (MakeFullYear y) m dt) 0))
  | _, _, _ => None
  end.

Definition getFullYear (h : host) (tv : Z) : Z := YearFromTime (LocalTime h tv).

Definition month_name (mn : Z) : bytes :=
  match mn with
  | 0 => lit "January"
  | 1 => lit "February"
  | 2 => lit "March"
  | 3 => lit "April"
  | 4 => lit "May"
  | 5 => lit "June"
  | 6 => lit "July"
  | 7 => lit "August"
  | 8 => lit "September"
  | 9 => lit "October"
  | 10 => lit "November"
  | _ => lit "December"
  end.

(** [Number.prototype.toString] of an integer. *)
Definition decimal (z : Z) : bytes :=
  list_ascii_of_string (NilZero.string_of_int (Z.to_int z)).

(** The year of the era, which is what the [numeric] year shows. *)
Definition year_of_era (y : Z) : Z := if 0 <? y then y else 1 - y.

(** [date.toLocaleDateString('en-US', { year: 'numeric', month: 'long' })]. *)
Definition toLocaleDateString_month_year (h : host) (tv : Z) : bytes :=
  let t := LocalTime h tv in
  month_name (MonthFromTime t) ++ lit " " ++ decimal (year_of_era (YearFromTime t)).

(** [String.prototype.includes] for a one-character string, and
    [String.prototype.split] on a one-character separator. *)
Definition includes (c : ascii) (s : bytes) : bool := existsb (Ascii.eqb c) s.

Fixpoint split_on (sep : ascii) (s : bytes) : list bytes :=
  match s with
  | [] => [[]]
  | c :: s' =>
      if Ascii.eqb c sep then [] :: split_on sep s'
      else match split_on sep s' with
           | w :: ws => (c :: w) :: ws
           | [] => [[c]]
           end
  end.

(** An element taken out of an array by destructuring; a missing element is
    [undefined], which is NaN as soon as it is used as a number. *)
Definition element (i : nat) (parts : list (option Z)) : option Z := nth i parts None.

(** The [formatDate] helper; its argument is a string, or is absent. *)
Definition formatDate (h : host) (dateString : option bytes) : bytes :=
  match dateString with
  | None => lit "Present"
  | Some [] => lit "Present"
  | Some s =>
      let date :=
        if includes "T" s then DateParse h s
        else
          let parts := map (ToNumber h) (split_on "-" s) in
          let year := element 0 parts in
          let month := element 1 parts in
          let day := element 2 parts in
          Date_of_fields h year (option_map (fun m => m - 1) month) day in
      match date with
      | None => lit "Invalid Date"
      | Some tv => toLocaleDateString_month_year h tv
      end
  end.

(** The [formatYear] helper. *)
Definition formatYear (h : host) (dateString : option bytes) : bytes :=
  match dateString with
  | None => []
  | Some [] => []
  | Some s =>
      if includes "T" s then
        match DateParse h s with
        | None => []
        | Some tv => decimal (getFullYear h tv)
        end
      else
        match element 0 (map (ToNumber h) (split_on "-" s)) with
        | Some year => decimal year
        | None => lit "NaN"
        end
  end.

(** Decimal digits, and the date-only strings [YYYY-MM-DD]. *)
Definition digit_char (n : Z) : ascii :=
  match n with
  | 0 => "0" | 1 => "1" | 2 => "2" | 3 => "3" | 4 => "4"
  | 5 => "5" | 6 => "6" | 7 => "7" | 8 => "8" | _ => "9"
  end%char.

Definition is_digit (c : ascii) : bool :=
  (48 <=? Z.of_nat (nat_of_ascii c)) && (Z.of_nat (nat_of_ascii c) <=? 57).

Definition digit_value (c : ascii) : Z := Z.of_nat (nat_of_ascii c) - 48.

Definition digits_value (s : bytes) : Z :=
  fold_left (fun v c => 10 * v + digit_value c) s 0.

Definition pad2 (n : Z) : bytes := [digit_char (n / 10 mod 10); digit_char (n mod 10)].

Definition pad4 (n : Z) : bytes :=
  [digit_char (n / 1000 mod 10); digit_char (n / 100 mod 10);
   digit_char (n / 10 mod 10); digit_char (n mod 10)].

Definition date_only (y m d : Z) : bytes :=
  pad4 y ++ lit "-" ++ pad2 m ++ lit "-" ++ pad2 d.

Definition days_in_month (y m : Z) : Z :=
  month_start (InLeapYear y) m - month_start (InLeapYear y) (m - 1).

(** What is assumed of a host: [Number] reads a string of decimal digits
    as its value; the offset of local time is less than a day; and a local
    midnight is resolved to a time of the same local day (no change of the
    clock skips a whole day). *)
Definition host_ok (h : host) : Prop :=
  (forall s, s <> [] -> forallb is_digit s = true ->
             ToNumber h s = Some (digits_value s)) /\
  (forall t b, Z.abs (LocalTZA h t b) < msPerDay) /\
  (forall t, t mod msPerDay = 0 -> 0 <= LocalTime h (UTC h t) - t < msPerDay).

(** Two hosts: one on UTC, and one on the clock of Kiritimati, which went
    from UTC-10 to UTC+14 at the end of 30 December 1994, so that
    31 December 1994 did not exist there. *)
Definition read_digits (s : bytes) : option Z :=
  match s with
  | [] => Some 0
  | _ => if forallb is_digit s then Some (digits_value s) else None
  end.

Definition utc_host : host :=
  {| LocalTZA := fun _ _ => 0; ToNumber := read_digits; DateParse := fun _ => None |}.

Definition fixed_offset_host (minutes : Z) : host :=
  {| LocalTZA := fun _ _ => minutes * 60000;
     ToNumber := read_digits;
     DateParse := fun _ => None |}.

Definition kiritimati_host : host :=
  {| LocalTZA := fun t isUTC =>
       if isUTC
       then (if t <? 788868000000 then -36000000 else 50400000)
       else (if t <? 788918400000 then -36000000 else 50400000);
     ToNumber := read_digits;
     DateParse := fun _ => None |}.

Example formatDate_example :
  formatDate (fixed_offset_host (-480)) (Some (lit "2021-03-15")) = lit "March 2021".
Proof. reflexivity. Qed.

Example formatDate_first_of_month :
  formatDate (fixed_offset_host (-480)) (Some (lit "2024-01-01")) = lit "January 2024".
Proof. reflexivity. Qed.

(** ** Years and months of a day *)

(** Case analysis on a small integer. *)
Definition below (k : nat) : list Z := map Z.of_nat (seq 0 k).

Lemma below_In k n : 0 <= n < Z.of_nat k -> In n (below k).
Proof.
  intros H. unfold below. apply in_map_iff. exists (Z.to_nat n).
  split; [lia|]. apply in_seq. lia.
Qed.

Ltac each_below k n :=
  let H := fresh "Hcase" in
  assert (H : In n (below k)) by (apply below_In; lia);
  vm_compute in H;
  repeat (destruct H as [H|H]; [subst n|]);
  [..|destruct H].


Lemma DayFromYear_step y : DayFromYear (y + 1) = DayFromYear y + DaysInYear y.
Proof.
  unfold DayFromYear, DaysInYear, InLeapYear.
  destruct (Z.eqb_spec (y mod 4) 0); destruct (Z.eqb_spec (y mod 100) 0);
    destruct (Z.eqb_spec (y mod 400) 0); cbn [negb];
    Z.div_mod_to_equations; lia.
Qed.

Lemma DayFromYear_mono a b : a <= b -> DayFromYear a <= DayFromYear b.
Proof. unfold DayFromYear. intros H. Z.div_mod_to_equations. lia. Qed.

Lemma year_bounds y d :
  DayFromYear y <= d < DayFromYear (y + 1) -> year_lower d <= y <= year_upper d.
Proof.
  unfold DayFromYear, year_lower, year_upper. intros H.
  destruct (Z.leb_spec 0 d); Z.div_mod_to_equations; lia.
Qed.

Lemma year_search_spec y d fuel : forall y0,
  DayFromYear y <= d < DayFromYear (y + 1) ->
  y0 <= y -> y - y0 <= Z.of_nat fuel ->
  year_search fuel y0 d = y.
Proof.
  induction fuel as [|f IH]; intros y0 Hd H0 Hf; simpl.
  - lia.
  - destruct (Z.leb_spec (DayFromYear (y0 + 1)) d) as [L|L].
    + assert (y0 < y).
      { destruct (Z.eq_dec y0 y) as [->|]; lia. }
      apply IH; [exact Hd | lia | lia].
    + destruct (Z.eq_dec y0 y) as [E|N]; [exact E|].
      pose proof (DayFromYear_mono (y0 + 1) y). lia.
Qed.

Lemma YearFromDay_spec y d :
  DayFromYear y <= d < DayFromYear (y + 1) -> YearFromDay d = y.
Proof.
  intros H. pose proof (year_bounds y d H). unfold YearFromDay.
  apply year_search_spec; [exact H | lia | lia].
Qed.

Lemma Day_within D e : 0 <= e < msPerDay -> Day (D * msPerDay + e) = D.
Proof.
  intros H. unfold Day, msPerDay in *. Z.div_mod_to_equations. lia.
Qed.

Lemma month_start_year leap : month_start leap 12 = if leap then 366 else 365.
Proof. destruct leap; reflexivity. Qed.

(** The local year and month of a time in day [DayFromYear y + k + d - 1],
    where [k] is the start of month [mn]. *)
Lemma fields_of_day y mn d t :
  0 <= mn <= 11 ->
  1 <= d <= month_start (InLeapYear y) (mn + 1) - month_start (InLeapYear y) mn ->
  Day t = DayFromYear y + month_start (InLeapYear y) mn + d - 1 ->
  YearFromTime t = y /\ MonthFromTime t = mn.
Proof.
  intros Hm Hd HD.
  assert (HY : YearFromTime t = y).
  { unfold YearFromTime. apply YearFromDay_spec. rewrite HD, DayFromYear_step.
    unfold DaysInYear.
    destruct (InLeapYear y); each_below 12%nat mn; cbn in Hd |- *; lia. }
  split; [exact HY|].
  unfold MonthFromTime, DayWithinYear. rewrite HY, HD.
  destruct (InLeapYear y); each_below 12%nat mn; cbn in Hd |- *;
    repeat match goal with
           | |- context [Z.ltb ?a ?b] => destruct (Z.ltb_spec a b); try lia
           end.
Qed.

(** ** Digits and date-only strings *)

Lemma digit_char_cases n :
  0 <= n <= 9 ->
  is_digit (digit_char n) = true /\ digit_value (digit_char n) = n /\
  Ascii.eqb (digit_char n) "-" = false /\ Ascii.eqb "T" (digit_char n) = false.
Proof.
  intros H. each_below 10%nat n; repeat split; reflexivity.
Qed.

Lemma digit_in_range n k : 0 <= n -> 0 <= n / k mod 10 <= 9.
Proof. intros H. pose proof (Z.mod_pos_bound (n / k) 10). lia. Qed.

Lemma digit_in_range0 n : 0 <= n mod 10 <= 9.
Proof. pose proof (Z.mod_pos_bound n 10). lia. Qed.

Lemma split_on_plain sep w :
  existsb (fun c => Ascii.eqb c sep) w = false -> split_on sep w = [w].
Proof.
  induction w as [|c w IH]; simpl; [reflexivity|].
  intros H. apply orb_false_iff in H. destruct H as [Hc Hw].
  rewrite Hc, (IH Hw). reflexivity.
Qed.

Lemma split_on_app sep w rest :
  existsb (fun c => Ascii.eqb c sep) w = false ->
  split_on sep (w ++ sep :: rest) = w :: split_on sep rest.
Proof.
  induction w as [|c w IH]; simpl.
  - intros _. rewrite Ascii.eqb_refl. reflexivity.
  - intros H. apply orb_false_iff in H. destruct H as [Hc Hw].
    rewrite Hc, (IH Hw). reflexivity.
Qed.

Lemma pad4_facts n :
  0 <= n <= 9999 ->
  forallb is_digit (pad4 n) = true /\ digits_value (pad4 n) = n /\
  existsb (fun c => Ascii.eqb c "-") (pad4 n) = false /\
  includes "T" (pad4 n) = false.
Proof.
  intros H. unfold pad4, includes, digits_value. cbn [forallb existsb fold_left].
  destruct (digit_char_cases (n / 1000 mod 10)) as (A1 & B1 & C1 & D1);
    [apply digit_in_range; lia|].
  destruct (digit_char_cases (n / 100 mod 10)) as (A2 & B2 & C2 & D2);
    [apply digit_in_range; lia|].
  destruct (digit_char_cases (n / 10 mod 10)) as (A3 & B3 & C3 & D3);
    [apply digit_in_range; lia|].
  destruct (digit_char_cases (n mod 10)) as (A4 & B4 & C4 & D4);
    [apply digit_in_range0|].
  rewrite A1, A2, A3, A4, B1, B2, B3, B4, C1, C2, C3, C4, D1, D2, D3, D4.
  repeat split; try reflexivity. Z.div_mod_to_equations. lia.
Qed.

Lemma pad2_facts n :
  0 <= n <= 99 ->
  forallb is_digit (pad2 n) = true /\ digits_value (pad2 n) = n /\
  existsb (fun c => Ascii.eqb c "-") (pad2 n) = false /\
  includes "T" (pad2 n) = false.
Proof.
  intros H. unfold pad2, includes, digits_value. cbn [forallb existsb fold_left].
  destruct (digit_char_cases (n / 10 mod 10)) as (A3 & B3 & C3 & D3);
    [apply digit_in_range; lia|].
  destruct (digit_char_cases (n mod 10)) as (A4 & B4 & C4 & D4);
    [apply digit_in_range0|].
  rewrite A3, A4, B3, B4, C3, C4, D3, D4.
  repeat split; try reflexivity. Z.div_mod_to_equations. lia.
Qed.

Lemma days_in_month_bound y m : 1 <= m <= 12 -> days_in_month y m <= 31.
Proof.
  intros H. unfold days_in_month.
  destruct (InLeapYear y); each_below 13%nat m; cbn; lia.
Qed.


Lemma utc_host_ok : host_ok utc_host.
Proof.
  split; [|split].
  - intros s Hs Hd. destruct s as [|c s]; [congruence|]. cbn [utc_host ToNumber read_digits].
    rewrite Hd. reflexivity.
  - intros t b. cbn. unfold msPerDay. lia.
  - intros t _. unfold LocalTime, UTC, msPerDay. cbn. lia.
Qed.



(** ** [formatYear] on date-only strings *)

(** On a date-only string [formatYear] returns the year as a number,
    without the zeros that pad it, whatever the time zone of the host: no
    [Date] is made.  (So the year 0050 is shown as 50, where [formatDate]
    shows 1950.)  An absent or empty date gives the empty string. *)
Theorem formatYear_date_only h y m d :
  (forall s, s <> [] -> forallb is_digit s = true ->
             ToNumber h s = Some (digits_value s)) ->
  0 <= y <= 9999 -> 0 <= m <= 99 -> 0 <= d <= 99 ->
  formatYear h (Some (date_only y m d)) = decimal y /\
  formatYear h None = [] /\
  formatYear h (Some []) = [].
Proof.
  intros Hnum Hy Hm Hd. split; [|split; reflexivity].
  destruct (pad4_facts y) as (Y1 & Y2 & Y3 & Y4); [lia|].
  destruct (pad2_facts m) as (M1 & M2 & M3 & M4); [lia|].
  destruct (pad2_facts d) as (D1 & D2 & D3 & D4); [lia|].
  assert (Hsplit : split_on "-" (date_only y m d) = [pad4 y; pad2 m; pad2 d]).
  { unfold date_only. change (lit "-") with ["-"%char]. cbn [app].
    rewrite (split_on_app "-" (pad4 y) _ Y3).
    rewrite (split_on_app "-" (pad2 m) _ M3).
    rewrite (split_on_plain "-" (pad2 d) D3). reflexivity. }
  assert (HT : includes "T" (date_only y m d) = false).
  { unfold date_only, includes. rewrite !existsb_app.
    unfold includes in Y4, M4, D4. rewrite Y4, M4, D4. reflexivity. }
  assert (Hne : exists c s, date_only y m d = c :: s) by (unfold date_only, pad4; cbn; eauto).
  destruct Hne as (c0 & s0 & Hne).
  unfold formatYear. rewrite Hne. rewrite <- Hne.
  rewrite HT, Hsplit. cbn [map element nth].
  rewrite (Hnum (pad4 y)) by (first [exact Y1 | discriminate]).
  rewrite Y2. reflexivity.
Qed.

Lemma formatYear_date_only_witness :
  formatYear kiritimati_host (Some (date_only 50 3 15)) = decimal 50 /\
  formatYear kiritimati_host None = [] /\
  formatYear kiritimati_host (Some []) = [].
Proof.
  apply (formatYear_date_only kiritimati_host 50 3 15); try lia.
  intros s Hs Hd. destruct s as [|c s]; [congruence|].
  cbn [kiritimati_host ToNumber read_digits]. rewrite Hd. reflexivity.
Defined.

End JsDate.

(* ===================================================================== *)
(** * Resume data and the template engine                                *)
(* ===================================================================== *)

(** Resume data is what [JSON.parse] gives: null, booleans, numbers
    (integers in this model), strings, arrays and objects.  An object is the
    list of its properties; a property that is absent is [undefined], which
    is [None] below. *)
Inductive json :=
| JNull
| JBool (b : bool)
| JNum (n : Z)
| JStr (s : bytes)
| JArr (items : list json)
| JObj (fields : list (string * json)).

Fixpoint assoc {A} (k : string) (l : list (string * A)) : option A :=
  match l with
  | [] => None
  | (k', v) :: l' => if String.eqb k' k then Some v else assoc k l'
  end.

Definition property (k : string) (v : json) : option json :=
  match v with
  | JObj fields => assoc k fields
  | _ => None
  end.

Section JsonInduction.

Variable P : json -> Prop.
Hypothesis HNull : P JNull.
Hypothesis HBool : forall b, P (JBool b).
Hypothesis HNum : forall n, P (JNum n).
Hypothesis HStr : forall s, P (JStr s).
Hypothesis HArr : forall items, Forall P items -> P (JArr items).
Hypothesis HObj : forall fields, Forall (fun kv => P (snd kv)) fields -> P (JObj fields).

Fixpoint json_induction (v : json) : P v :=
  match v with
  | JNull => HNull
  | JBool b => HBool b
  | JNum n => HNum n
  | JStr s => HStr s
  | JArr items =>
      HArr items
        ((fix all (l : list json) : Forall P l :=
            match l with
            | [] => Forall_nil P
            | x :: l' => Forall_cons x (json_induction x) (all l')
            end) items)
  | JObj fields =>
      HObj fields
        ((fix all (l : list (string * json)) : Forall (fun kv => P (snd kv)) l :=
            match l with
            | [] => Forall_nil _
            | kv :: l' => Forall_cons kv (json_induction (snd kv)) (all l')
            end) fields)
  end.

End JsonInduction.

(** JavaScript's ToBoolean of a property that may be absent. *)
Definition ToBoolean (v : option json) : bool :=
  match v with
  | None => false
  | Some JNull => false
  | Some (JBool b) => b
  | Some (JNum n) => negb (Z.eqb n 0)
  | Some (JStr s) => negb (Nat.eqb (length s) 0)
  | Some (JArr _) => true
  | Some (JObj _) => true
  end.

(** The double quote, which a string of this file cannot hold. *)
Definition dq : bytes := [ascii_of_nat 34].

(** The part of Handlebars that the resume template uses: text, [{{path}}],
    [{{helper path}}], and the blocks [#if], [#unless] and [#each]. *)
Module Handlebars.

Inductive expr :=
| Lookup (path : list string)                  (* {{a.b}}, and {{this}} for [] *)
| Call (helper : string) (arg : list string).  (* {{helper a.b}} *)

Inductive node :=
| Text (s : bytes)
| Mustache (e : expr)
| If (path : list string) (body : list node)
| Unless (path : list string) (body : list node)
| Each (path : list string) (body : list node).

Definition program := list node.

(** A compiled path [a.b.c]: each step is taken unless the value reached is
    null or undefined, which is then the result.  A step reads a property
    of the value's own; the names of the resume template are names of
    properties of objects (no index, and not [length]), which an array, a
    string, a number and a boolean do not have. *)
Fixpoint lookup_path (path : list string) (v : option json) : option json :=
  match path with
  | [] => v
  | k :: path' =>
      match v with
      | None => None
      | Some JNull => Some JNull
      | Some c => lookup_path path' (property k c)
      end
  end.

(** The condition of [#if]: false for undefined, null, false, 0, the empty
    string and the empty array. *)
Definition truthy (v : option json) : bool :=
  match v with
  | None => false
  | Some JNull => false
  | Some (JBool b) => b
  | Some (JNum n) => negb (Z.eqb n 0)
  | Some (JStr s) => match s with [] => false | _ => true end
  | Some (JArr l) => match l with [] => false | _ => true end
  | Some (JObj _) => true
  end.

Fixpoint intercalate (sep : bytes) (l : list bytes) : bytes :=
  match l with
  | [] => []
  | [x] => x
  | x :: l' => x ++ sep ++ intercalate sep l'
  end.

Fixpoint all_some {A} (l : list (option A)) : option (list A) :=
  match l with
  | [] => Some []
  | None :: _ => None
  | Some a :: l' => option_map (cons a) (all_some l')
  end.

(** A value as a string, the way [Array.prototype.join] and string
    concatenation turn it into one; [None] when that throws a TypeError.
    Null gives the empty string in the two places where the template engine
    needs the string of a value, an element of an array that is joined and
    the value of a mustache.  An object is [[object Object]] by the
    [toString] that it inherits; an object with a property [toString] of its
    own, which no value of [JSON] makes a function, has no string, and the
    conversion throws. *)
Fixpoint js_string (v : json) : option bytes :=
  match v with
  | JNull => Some []
  | JBool true => Some (lit "true")
  | JBool false => Some (lit "false")
  | JNum n => Some (JsDate.decimal n)
  | JStr s => Some s
  | JArr l => option_map (intercalate (lit ",")) (all_some (map js_string l))
  | JObj fields =>
      match assoc "toString" fields with
      | Some _ => None
      | None => Some (lit "[object Object]")
      end
  end.

(** The string that [Handlebars.Utils.escapeExpression] escapes for a
    value that is no string: [value.toHTML()] when the value has a truthy
    [toHTML], which throws since no value of [JSON] is a function; the empty
    string for null and undefined; and the string of the value otherwise. *)
Definition display (v : option json) : option bytes :=
  match v with
  | None => Some []
  | Some (JObj fields) =>
      if ToBoolean (assoc "toHTML" fields) then None else js_string (JObj fields)
  | Some x => js_string x
  end.

(** [Handlebars.Utils.escapeExpression] on a string. *)
Definition escape_char (c : ascii) : bytes :=
  if Ascii.eqb c "&" then lit "&amp;"
  else if Ascii.eqb c "<" then lit "&lt;"
  else if Ascii.eqb c ">" then lit "&gt;"
  else if Ascii.eqb c (ascii_of_nat 34) then lit "&quot;"
  else if Ascii.eqb c "'" then lit "&#x27;"
  else if Ascii.eqb c "`" then lit "&#x60;"
  else if Ascii.eqb c "=" then lit "&#x3D;"
  else [c].

Definition escapeExpression (s : bytes) : bytes := flat_map escape_char s.

(** What a template writes: text of the template, and escaped values. *)
Inductive chunk :=
| Static (s : bytes)
| Dynamic (s : bytes).

Definition chunk_text (c : chunk) : bytes :=
  match c with
  | Static s => s
  | Dynamic s => s
  end.

Definition flatten (cs : list chunk) : bytes := flat_map chunk_text cs.

Section Render.

(** The registered helpers: the result of a helper on the value of its
    argument, [None] when it throws. *)
Variable helpers : string -> option (option json -> option bytes).

Fixpoint sequence (l : list (option (list chunk))) : option (list chunk) :=
  match l with
  | [] => Some []
  | None :: _ => None
  | Some a :: l' =>
      match sequence l' with
      | Some b => Some (a ++ b)
      | None => None
      end
  end.

(** Rendering a node in a context; [None] when a helper throws or is
    missing, or when a value has no string. *)
Fixpoint render_node (n : node) (ctx : json) {struct n} : option (list chunk) :=
  let render_body (body : list node) (c : json) :=
    sequence (map (fun m => render_node m c) body) in
  match n with
  | Text s => Some [Static s]
  | Mustache (Lookup path) =>
      match display (lookup_path path (Some ctx)) with
      | Some s => Some [Dynamic (escapeExpression s)]
      | None => None
      end
  | Mustache (Call name path) =>
      match helpers name with
      | None => None
      | Some f =>
          match f (lookup_path path (Some ctx)) with
          | Some s => Some [Dynamic (escapeExpression s)]
          | None => None
          end
      end
  | If path body =>
      if truthy (lookup_path path (Some ctx)) then render_body body ctx else Some []
  | Unless path body =>
      if truthy (lookup_path path (Some ctx)) then Some [] else render_body body ctx
  | Each path body =>
      match lookup_path path (Some ctx) with
      | Some (JArr items) => sequence (map (render_body body) items)
      | Some (JObj fields) => sequence (map (render_body body) (map snd fields))
      | _ => Some []
      end
  end.

Definition render (p : program) (ctx : json) : option (list chunk) :=
  sequence (map (fun n => render_node n ctx) p).

End Render.

(** All the text of a program, and the paths it looks up in the context it
    is rendered in (the body of an [#each] is rendered in other contexts). *)
Fixpoint texts_of (n : node) : list bytes :=
  match n with
  | Text s => [s]
  | Mustache _ => []
  | If _ body => flat_map texts_of body
  | Unless _ body => flat_map texts_of body
  | Each _ body => flat_map texts_of body
  end.

Fixpoint paths_of (n : node) : list (list string) :=
  match n with
  | Text _ => []
  | Mustache (Lookup p) => [p]
  | Mustache (Call _ p) => [p]
  | If p body => p :: flat_map paths_of body
  | Unless p body => p :: flat_map paths_of body
  | Each p _ => [p]
  end.

(** The text of a program without the bodies of the [#if] blocks, in the
    outer context, whose condition is on one of the given paths. *)
Fixpoint texts_without (skip : list string -> bool) (n : node) : list bytes :=
  match n with
  | Text s => [s]
  | Mustache _ => []
  | If p body => if skip p then [] else flat_map (texts_without skip) body
  | Unless _ body => flat_map (texts_without skip) body
  | Each _ body => flat_map texts_of body
  end.

(** ** Induction on templates *)

Section NodeInduction.

Variable P : node -> Prop.
Hypothesis HText : forall s, P (Text s).
Hypothesis HMustache : forall e, P (Mustache e).
Hypothesis HIf : forall p body, Forall P body -> P (If p body).
Hypothesis HUnless : forall p body, Forall P body -> P (Unless p body).
Hypothesis HEach : forall p body, Forall P body -> P (Each p body).

Fixpoint node_induction (n : node) : P n :=
  let all :=
    fix all (l : list node) : Forall P l :=
      match l with
      | [] => Forall_nil P
      | m :: l' => Forall_cons m (node_induction m) (all l')
      end in
  match n with
  | Text s => HText s
  | Mustache e => HMustache e
  | If p body => HIf p body (all body)
  | Unless p body => HUnless p body (all body)
  | Each p body => HEach p body (all body)
  end.

End NodeInduction.

(** ** What a render is made of *)

Lemma sequence_In l cs c :
  sequence l = Some cs -> In c cs -> exists a, In (Some a) l /\ In c a.
Proof.
  revert cs. induction l as [|[a|] l IH]; simpl; intros cs.
  - intros [= <-] [].
  - destruct (sequence l) as [b|]; [|discriminate]. intros [= <-] Hc.
    apply in_app_iff in Hc. destruct Hc as [Hc|Hc].
    + exists a. auto.
    + destruct (IH b eq_refl Hc) as (a' & Ha & Hc'). exists a'. auto.
  - discriminate.
Qed.

Lemma sequence_ext {A} (f g : A -> option (list chunk)) l :
  (forall x, In x l -> f x = g x) -> sequence (map f l) = sequence (map g l).
Proof.
  intros H. rewrite (map_ext_in f g l H). reflexivity.
Qed.

Definition escaped (d : bytes) : Prop := exists x, d = escapeExpression x.

(** What the chunks of a render are: text of the template, and escaped
    values. *)
Definition made_of (allowed : list bytes) (c : chunk) : Prop :=
  match c with
  | Static s => In s allowed
  | Dynamic d => escaped d
  end.

Lemma made_of_incl a b c : incl a b -> made_of a c -> made_of b c.
Proof. destruct c; simpl; auto. Qed.

Lemma In_flat_map_texts {A} (f : A -> list bytes) l x s :
  In x l -> In s (f x) -> In s (flat_map f l).
Proof. intros Hx Hs. apply in_flat_map. eauto. Qed.

Section RenderFacts.

Variable helpers : string -> option (option json -> option bytes).

Lemma render_body_made_of (texts : node -> list bytes) body ctx cs c :
  Forall (fun m => forall ctx cs, render_node helpers m ctx = Some cs ->
                   forall c, In c cs -> made_of (texts m) c) body ->
  sequence (map (fun m => render_node helpers m ctx) body) = Some cs ->
  In c cs -> made_of (flat_map texts body) c.
Proof.
  intros Hall Hs Hc. destruct (sequence_In _ _ _ Hs Hc) as (a & Ha & Hca).
  apply in_map_iff in Ha. destruct Ha as (m & Hm & Hin).
  rewrite Forall_forall in Hall.
  apply (made_of_incl (texts m)).
  - intros s Hsm. eapply In_flat_map_texts; eauto.
  - eapply Hall; eauto.
Qed.

Lemma render_items_made_of texts (body : list node) (items : list json) cs c :
  (forall ctx cs, sequence (map (fun m => render_node helpers m ctx) body) = Some cs ->
                  forall c, In c cs -> made_of texts c) ->
  sequence (map (fun item => sequence (map (fun m => render_node helpers m item) body))
                items) = Some cs ->
  In c cs -> made_of texts c.
Proof.
  intros Hb Hs Hc. destruct (sequence_In _ _ _ Hs Hc) as (a & Ha & Hca).
  apply in_map_iff in Ha. destruct Ha as (item & Hm & Hin). eapply Hb; eauto.
Qed.

Lemma render_node_made_of n : forall ctx cs,
  render_node helpers n ctx = Some cs -> forall c, In c cs -> made_of (texts_of n) c.
Proof.
  induction n as [s|e|p body IH|p body IH|p body IH] using node_induction;
    intros ctx cs H c Hc.
  - simpl in H. injection H as <-. destruct Hc as [<-|[]]. simpl. auto.
  - destruct e as [path|name path]; simpl in H.
    + destruct (display _) as [s|]; [|discriminate].
      injection H as <-. destruct Hc as [<-|[]]. simpl. eexists; reflexivity.
    + destruct (helpers name) as [f|]; [|discriminate].
      destruct (f _) as [s|]; [|discriminate]. injection H as <-.
      destruct Hc as [<-|[]]. simpl. eexists; reflexivity.
  - simpl in H. destruct (truthy _).
    + eapply (render_body_made_of texts_of); eauto.
    + injection H as <-. destruct Hc.
  - simpl in H. destruct (truthy _).
    + injection H as <-. destruct Hc.
    + eapply (render_body_made_of texts_of); eauto.
  - simpl in H.
    assert (Hb : forall ctx cs,
               sequence (map (fun m => render_node helpers m ctx) body) = Some cs ->
               forall c, In c cs -> made_of (flat_map texts_of body) c).
    { intros ctx' cs' H' c' Hc'. eapply (render_body_made_of texts_of); eauto. }
    destruct (lookup_path p (Some ctx)) as [[| | | |items|fields]|];
      try (injection H as <-; destruct Hc).
    + eapply render_items_made_of; eauto.
    + eapply render_items_made_of; eauto.
Qed.

(** The same, leaving out the blocks whose condition is known to fail in
    the context of the render. *)
Lemma render_node_made_of_without skip ctx :
  (forall p, skip p = true -> truthy (lookup_path p (Some ctx)) = false) ->
  forall n cs, render_node helpers n ctx = Some cs ->
  forall c, In c cs -> made_of (texts_without skip n) c.
Proof.
  intros Hskip.
  induction n as [s|e|p body IH|p body IH|p body IH] using node_induction;
    intros cs H c Hc.
  - simpl in H. injection H as <-. destruct Hc as [<-|[]]. simpl. auto.
  - apply (render_node_made_of (Mustache e) ctx cs H c Hc).
  - simpl in H. simpl. destruct (skip p) eqn:Sp.
    + rewrite (Hskip p Sp) in H. injection H as <-. destruct Hc.
    + destruct (truthy _).
      * destruct (sequence_In _ _ _ H Hc) as (a & Ha & Hca).
        apply in_map_iff in Ha. destruct Ha as (m & Hm & Hin).
        rewrite Forall_forall in IH.
        apply (made_of_incl (texts_without skip m)).
        -- intros s Hsm. eapply In_flat_map_texts; eauto.
        -- eapply IH; eauto.
      * injection H as <-. destruct Hc.
  - simpl in H. simpl. destruct (truthy _).
    + injection H as <-. destruct Hc.
    + destruct (sequence_In _ _ _ H Hc) as (a & Ha & Hca).
      apply in_map_iff in Ha. destruct Ha as (m & Hm & Hin).
      rewrite Forall_forall in IH.
      apply (made_of_incl (texts_without skip m)).
      * intros s Hsm. eapply In_flat_map_texts; eauto.
      * eapply IH; eauto.
  - apply (render_node_made_of (Each p body) ctx cs H c Hc).
Qed.

Lemma render_made_of_without skip ctx (p : program) cs :
  (forall q, skip q = true -> truthy (lookup_path q (Some ctx)) = false) ->
  render helpers p ctx = Some cs ->
  forall c, In c cs -> made_of (flat_map (texts_without skip) p) c.
Proof.
  intros Hskip H c Hc. unfold render in H.
  destruct (sequence_In _ _ _ H Hc) as (a & Ha & Hca).
  apply in_map_iff in Ha. destruct Ha as (m & Hm & Hin).
  apply (made_of_incl (texts_without skip m)).
  - intros s Hsm. eapply In_flat_map_texts; eauto.
  - eapply render_node_made_of_without; eauto.
Qed.

(** Two contexts that agree on the paths of a template give the same
    render. *)
Lemma render_node_agree n : forall ctx1 ctx2,
  (forall p, In p (paths_of n) ->
             lookup_path p (Some ctx1) = lookup_path p (Some ctx2)) ->
  render_node helpers n ctx1 = render_node helpers n ctx2.
Proof.
  induction n as [s|e|p body IH|p body IH|p body IH] using node_induction;
    intros ctx1 ctx2 H.
  - reflexivity.
  - destruct e as [path|name path]; simpl; rewrite (H path) by (simpl; auto);
      reflexivity.
  - simpl. rewrite (H p) by (simpl; auto). destruct (truthy _); [|reflexivity].
    apply sequence_ext. intros m Hm. rewrite Forall_forall in IH. apply (IH m Hm).
    intros q Hq. apply H. simpl. right. apply in_flat_map. eauto.
  - simpl. rewrite (H p) by (simpl; auto). destruct (truthy _); [reflexivity|].
    apply sequence_ext. intros m Hm. rewrite Forall_forall in IH. apply (IH m Hm).
    intros q Hq. apply H. simpl. right. apply in_flat_map. eauto.
  - simpl. rewrite (H p) by (simpl; auto). reflexivity.
Qed.

Lemma render_agree (p : program) ctx1 ctx2 :
  (forall q, In q (flat_map paths_of p) ->
             lookup_path q (Some ctx1) = lookup_path q (Some ctx2)) ->
  render helpers p ctx1 = render helpers p ctx2.
Proof.
  intros H. unfold render. apply sequence_ext. intros m Hm.
  apply render_node_agree. intros q Hq. apply H. apply in_flat_map. eauto.
Qed.

End RenderFacts.

(** ** Escaped values and occurrences of markup *)

Lemma escape_char_no_lt c : ~ In "<"%char (escape_char c).
Proof.
  unfold escape_char.
  repeat match goal with
         | |- context [Ascii.eqb c ?x] => destruct (Ascii.eqb_spec c x)
         end;
    try (apply Normalizer.absent_spec; reflexivity).
  simpl. intros [E|[]]. congruence.
Qed.

Lemma escaped_no_lt d : escaped d -> ~ In "<"%char d.
Proof.
  intros [x ->]. unfold escapeExpression. intros H. apply in_flat_map in H.
  destruct H as (c & _ & Hc). exact (escape_char_no_lt c Hc).
Qed.

(** [occurs needle hay]: the needle is a substring of [hay]. *)
Definition occurs (needle hay : bytes) : Prop :=
  exists pre post, hay = pre ++ needle ++ post.

(** The needle and [s] differ at a position that both have. *)
Fixpoint clash (needle s : bytes) : bool :=
  match needle, s with
  | a :: needle', b :: s' => if Ascii.eqb a b then clash needle' s' else true
  | _, _ => false
  end.

(** No suffix of [s] is the start of an occurrence of the needle, whatever
    follows [s]. *)
Fixpoint clear_of (needle s : bytes) : bool :=
  match s with
  | [] => true
  | _ :: s' => clash needle s && clear_of needle s'
  end.

Lemma clash_spec needle : forall s rest post,
  clash needle s = true -> s ++ rest <> needle ++ post.
Proof.
  induction needle as [|a needle IH]; intros s rest post; [discriminate|].
  destruct s as [|b s]; [discriminate|]. simpl.
  destruct (Ascii.eqb_spec a b) as [->|N].
  - intros H E. injection E as E. exact (IH _ _ _ H E).
  - intros _ E. injection E as E _. congruence.
Qed.

Lemma no_occurrence (first : ascii) (needle : bytes) (cs : list chunk) :
  (forall c, In c cs -> match c with
                        | Static s => clear_of (first :: needle) s = true
                        | Dynamic d => ~ In first d
                        end) ->
  ~ occurs (first :: needle) (flatten cs).
Proof.
  induction cs as [|c cs IH]; intros H (pre & post & E).
  - destruct pre; discriminate.
  - unfold flatten in E. simpl in E. fold (flatten cs) in E.
    assert (Hc := H c (or_introl eq_refl)).
    assert (Hcs : forall c', In c' cs -> match c' with
                        | Static s => clear_of (first :: needle) s = true
                        | Dynamic d => ~ In first d
                        end) by (intros c' Hc'; apply H; right; exact Hc').
    assert (G : forall s pre,
              match c with
              | Static _ => clear_of (first :: needle) s = true
              | Dynamic _ => ~ In first s
              end ->
              s ++ flatten cs = pre ++ (first :: needle) ++ post -> False).
    { clear E Hc. induction s as [|a s IHs]; intros pre0 Hs E.
      - apply (IH Hcs). exists pre0, post. exact E.
      - destruct pre0 as [|b pre0].
        + destruct c.
          * simpl in Hs. apply andb_true_iff in Hs. destruct Hs as [Hs _].
            exact (clash_spec (first :: needle) (a :: s) (flatten cs) post Hs E).
          * simpl in E. injection E as -> _. apply Hs. left. reflexivity.
        + simpl in E. injection E as _ E. apply (IHs pre0); [|exact E].
          destruct c.
          * simpl in Hs. apply andb_true_iff in Hs. apply Hs.
          * intros Hin. apply Hs. right. exact Hin. }
    apply (G (chunk_text c) pre); [|exact E].
    destruct c; exact Hc.
Qed.

(** ** Counting markup *)

(** The number of places of [s] at which the needle starts. *)
Fixpoint count (needle s : bytes) : nat :=
  match s with
  | [] => O
  | _ :: s' => ((if Normalizer.starts_with needle s then 1 else 0) + count needle s')%nat
  end.

(** At every place of [s] the needle starts, or differs from what is
    there: no occurrence of the needle begins in [s] and ends after it. *)
Fixpoint whole (needle s : bytes) : bool :=
  match s with
  | [] => true
  | _ :: s' => (Normalizer.starts_with needle s || clash needle s) && whole needle s'
  end.

Lemma clash_starts needle s :
  clash needle s = true -> forall t, Normalizer.starts_with needle (s ++ t) = false.
Proof.
  intros H t. destruct (Normalizer.starts_with needle (s ++ t)) eqn:E; [|reflexivity].
  apply Normalizer.starts_with_spec in E. destruct E as [post E].
  exfalso. exact (clash_spec needle s t post H E).
Qed.

Lemma count_app needle a b :
  whole needle a = true -> count needle (a ++ b) = (count needle a + count needle b)%nat.
Proof.
  induction a as [|c a IH]; intros H; [reflexivity|].
  cbn [whole] in H. apply andb_true_iff in H. destruct H as [H Ha].
  change ((c :: a) ++ b) with (c :: (a ++ b)). cbn [count]. rewrite (IH Ha).
  assert (E : Normalizer.starts_with needle (c :: a ++ b)
              = Normalizer.starts_with needle (c :: a)).
  { destruct (Normalizer.starts_with needle (c :: a)) eqn:S.
    - apply Normalizer.starts_with_spec in S. destruct S as [t S].
      apply Normalizer.starts_with_spec. exists (t ++ b).
      change (c :: a ++ b) with ((c :: a) ++ b). rewrite S, app_assoc. reflexivity.
    - cbn [orb] in H. exact (clash_starts needle (c :: a) H b). }
  rewrite E. apply Nat.add_assoc.
Qed.

(** A string without the first character of the needle. *)
Lemma count_without first needle d :
  ~ In first d ->
  whole (first :: needle) d = true /\ count (first :: needle) d = O.
Proof.
  induction d as [|a d IH]; intros H; [split; reflexivity|].
  destruct IH as [IH1 IH2]; [intros Hin; apply H; right; exact Hin|].
  assert (C : clash (first :: needle) (a :: d) = true).
  { cbn [clash]. destruct (Ascii.eqb_spec first a) as [->|N]; [|reflexivity].
    exfalso. apply H. left. reflexivity. }
  pose proof (clash_starts _ _ C []) as S. rewrite app_nil_r in S.
  cbn [whole count]. rewrite S, C, IH1, IH2. split; reflexivity.
Qed.

Definition total (needle : bytes) (cs : list chunk) : nat :=
  list_sum (map (fun c => count needle (chunk_text c)) cs).

Lemma total_cons needle c cs :
  total needle (c :: cs) = (count needle (chunk_text c) + total needle cs)%nat.
Proof. reflexivity. Qed.

Lemma total_app needle a b : total needle (a ++ b) = (total needle a + total needle b)%nat.
Proof. unfold total. rewrite map_app. apply list_sum_app. Qed.

Lemma count_flatten needle cs :
  (forall c, In c cs -> whole needle (chunk_text c) = true) ->
  count needle (flatten cs) = total needle cs.
Proof.
  induction cs as [|c cs IH]; intros H; [reflexivity|].
  rewrite total_cons. change (flatten (c :: cs)) with (chunk_text c ++ flatten cs).
  rewrite count_app by (apply H; left; reflexivity).
  rewrite IH by (intros c' Hc'; apply H; right; exact Hc'). reflexivity.
Qed.

Section Weight.

Variable helpers : string -> option (option json -> option bytes).
(** The needle is a tag: it starts with [<], which no escaped value holds. *)
Variable rest : bytes.

(** No text of the node holds the needle. *)
Definition quiet (n : node) : bool :=
  forallb (fun s => Nat.eqb (count ("<"%char :: rest) s) 0) (texts_of n).

(** The occurrences of the needle in the text that a node writes, outside
    the blocks that are repeated; [t] tells which conditions hold. *)
Fixpoint weight (t : list string -> bool) (n : node) : nat :=
  if quiet n then O
  else
    match n with
    | Text s => count ("<"%char :: rest) s
    | Mustache _ => O
    | If p body => if t p then list_sum (map (weight t) body) else O
    | Unless p body => if t p then O else list_sum (map (weight t) body)
    | Each _ _ => O
    end.

(** No text of the node has the start of a needle at its end, and no
    repeated block holds the needle. *)
Fixpoint regular (n : node) : bool :=
  match n with
  | Text s => whole ("<"%char :: rest) s
  | Mustache _ => true
  | If _ body => forallb regular body
  | Unless _ body => forallb regular body
  | Each p body => quiet (Each p body) && forallb regular body
  end.

Lemma regular_texts n :
  regular n = true -> forall s, In s (texts_of n) -> whole ("<"%char :: rest) s = true.
Proof.
  induction n as [s0|e|p body IH|p body IH|p body IH] using node_induction;
    cbn [regular texts_of]; intros H s Hs.
  - destruct Hs as [<-|[]]. exact H.
  - destruct Hs.
  - apply in_flat_map in Hs. destruct Hs as (m & Hm & Hsm).
    rewrite Forall_forall in IH. rewrite forallb_forall in H. exact (IH m Hm (H m Hm) s Hsm).
  - apply in_flat_map in Hs. destruct Hs as (m & Hm & Hsm).
    rewrite Forall_forall in IH. rewrite forallb_forall in H. exact (IH m Hm (H m Hm) s Hsm).
  - apply andb_true_iff in H. destruct H as [_ H].
    apply in_flat_map in Hs. destruct Hs as (m & Hm & Hsm).
    rewrite Forall_forall in IH. rewrite forallb_forall in H. exact (IH m Hm (H m Hm) s Hsm).
Qed.

Lemma made_of_whole texts c :
  (forall s, In s texts -> whole ("<"%char :: rest) s = true) ->
  made_of texts c -> whole ("<"%char :: rest) (chunk_text c) = true.
Proof.
  intros H Hc. destruct c as [s|d]; cbn [made_of chunk_text] in *.
  - apply H, Hc.
  - apply count_without, escaped_no_lt, Hc.
Qed.

Lemma made_of_quiet texts c :
  (forall s, In s texts -> count ("<"%char :: rest) s = O) ->
  made_of texts c -> count ("<"%char :: rest) (chunk_text c) = O.
Proof.
  intros H Hc. destruct c as [s|d]; cbn [made_of chunk_text] in *.
  - apply H, Hc.
  - apply count_without, escaped_no_lt, Hc.
Qed.

Lemma total_quiet cs :
  (forall c, In c cs -> count ("<"%char :: rest) (chunk_text c) = O) ->
  total ("<"%char :: rest) cs = O.
Proof.
  induction cs as [|c cs IH]; intros H; [reflexivity|].
  rewrite total_cons, (H c (or_introl eq_refl)), IH; [reflexivity|].
  intros c' Hc'. apply H. right. exact Hc'.
Qed.

Lemma quiet_total n ctx cs :
  quiet n = true -> render_node helpers n ctx = Some cs ->
  total ("<"%char :: rest) cs = O.
Proof.
  intros Hq Hr. apply total_quiet. intros c Hc.
  apply (made_of_quiet (texts_of n)); [|exact (render_node_made_of helpers n ctx cs Hr c Hc)].
  intros s Hs. unfold quiet in Hq. rewrite forallb_forall in Hq.
  apply Nat.eqb_eq, Hq, Hs.
Qed.

Lemma weight_body (body : list node) ctx :
  Forall (fun m => forall ctx cs,
            regular m = true -> render_node helpers m ctx = Some cs ->
            total ("<"%char :: rest) cs
            = weight (fun p => truthy (lookup_path p (Some ctx))) m) body ->
  forallb regular body = true ->
  forall cs, sequence (map (fun m => render_node helpers m ctx) body) = Some cs ->
  total ("<"%char :: rest) cs
  = list_sum (map (weight (fun p => truthy (lookup_path p (Some ctx)))) body).
Proof.
  induction 1 as [|m body Hm _ IH]; cbn [forallb map sequence list_sum]; intros Hreg cs.
  - intros [= <-]. reflexivity.
  - apply andb_true_iff in Hreg. destruct Hreg as [Rm Rb].
    destruct (render_node helpers m ctx) as [a|] eqn:Ea; [|discriminate].
    destruct (sequence _) as [b|] eqn:Eb; [|discriminate].
    intros [= <-]. rewrite total_app, (Hm ctx a Rm Ea), (IH Rb b eq_refl). reflexivity.
Qed.

Lemma weight_spec n : forall ctx cs,
  regular n = true -> render_node helpers n ctx = Some cs ->
  total ("<"%char :: rest) cs = weight (fun p => truthy (lookup_path p (Some ctx))) n.
Proof.
  induction n as [s|e|p body IH|p body IH|p body IH] using node_induction;
    intros ctx cs Hreg Hr.
  - cbn [weight]. destruct (quiet (Text s)) eqn:Q; [exact (quiet_total _ _ _ Q Hr)|].
    cbn in Hr. injection Hr as <-. unfold total. cbn. apply Nat.add_0_r.
  - cbn [weight]. rewrite (quiet_total (Mustache e) ctx cs eq_refl Hr).
    destruct (quiet (Mustache e)); reflexivity.
  - cbn [weight]. destruct (quiet (If p body)) eqn:Q; [exact (quiet_total _ _ _ Q Hr)|].
    cbn [render_node] in Hr. cbn [regular] in Hreg.
    destruct (truthy (lookup_path p (Some ctx))).
    + exact (weight_body body ctx IH Hreg cs Hr).
    + injection Hr as <-. reflexivity.
  - cbn [weight]. destruct (quiet (Unless p body)) eqn:Q; [exact (quiet_total _ _ _ Q Hr)|].
    cbn [render_node] in Hr. cbn [regular] in Hreg.
    destruct (truthy (lookup_path p (Some ctx))).
    + injection Hr as <-. reflexivity.
    + exact (weight_body body ctx IH Hreg cs Hr).
  - cbn [regular] in Hreg. apply andb_true_iff in Hreg. destruct Hreg as [Q _].
    cbn [weight]. rewrite Q. exact (quiet_total _ _ _ Q Hr).
Qed.

(** The occurrences of a tag in what a template writes. *)
Lemma count_render (p : program) ctx cs :
  forallb regular p = true ->
  render helpers p ctx = Some cs ->
  count ("<"%char :: rest) (flatten cs)
  = list_sum (map (weight (fun q => truthy (lookup_path q (Some ctx)))) p).
Proof.
  intros Hreg Hr. rewrite count_flatten.
  - apply (weight_body p ctx); [|exact Hreg|exact Hr].
    apply Forall_forall. intros m _ ctx' cs'. apply weight_spec.
  - intros c Hc. unfold render in Hr.
    destruct (sequence_In _ _ _ Hr Hc) as (a & Ha & Hca).
    apply in_map_iff in Ha. destruct Ha as (m & Hm & Hin).
    apply (made_of_whole (texts_of m)).
    + apply regular_texts. rewrite forallb_forall in Hreg. apply Hreg, Hin.
    + exact (render_node_made_of helpers m ctx a Hm c Hca).
Qed.

End Weight.

(** ** Values that have a string *)

(** No object in the value has a property [toHTML] or [toString]. *)
Fixpoint printable (v : json) : bool :=
  match v with
  | JArr items => forallb printable items
  | JObj fields =>
      forallb (fun kv => negb (String.eqb (fst kv) "toHTML")
                         && negb (String.eqb (fst kv) "toString")
                         && printable (snd kv)) fields
  | _ => true
  end.

Lemma printable_fields fields k :
  printable (JObj fields) = true ->
  (k = "toHTML"%string \/ k = "toString"%string -> assoc k fields = None) /\
  (forall x, assoc k fields = Some x -> printable x = true).
Proof.
  cbn [printable]. induction fields as [|[k0 v0] fields IH]; cbn [forallb assoc fst snd].
  - intros _. split; [reflexivity | discriminate].
  - intros H. apply andb_true_iff in H. destruct H as [H0 Hf].
    apply andb_true_iff in H0. destruct H0 as [H0 Hv].
    apply andb_true_iff in H0. destruct H0 as [H1 H2].
    apply negb_true_iff in H1, H2.
    destruct (IH Hf) as [IH1 IH2]. destruct (String.eqb_spec k0 k) as [->|N].
    + split; [intros [->| ->]; [rewrite String.eqb_refl in H1 | rewrite String.eqb_refl in H2];
               discriminate
             | intros x [= <-]; exact Hv].
    + split; assumption.
Qed.

Lemma all_some_total {A B} (f : A -> option B) (l : list A) :
  Forall (fun x => exists y, f x = Some y) l -> exists ys, all_some (map f l) = Some ys.
Proof.
  induction 1 as [|x l [y Hy] _ [ys IH]]; cbn [map all_some]; [eauto|].
  rewrite Hy, IH. cbn. eauto.
Qed.

Lemma js_string_printable v : printable v = true -> exists s, js_string v = Some s.
Proof.
  induction v as [|b|n|s|items IH|fields IH] using json_induction; intros H;
    cbn [js_string]; try (eexists; reflexivity).
  - destruct b; eexists; reflexivity.
  - cbn [printable] in H. rewrite forallb_forall in H.
    assert (G : Forall (fun x => exists y, js_string x = Some y) items).
    { rewrite Forall_forall in IH |- *. intros x Hx. apply (IH x Hx), H, Hx. }
    destruct (all_some_total js_string items G) as [ys ->]. cbn. eauto.
  - rewrite (proj1 (printable_fields fields "toString" H) (or_intror eq_refl)). eauto.
Qed.

Lemma display_printable v :
  (forall x, v = Some x -> printable x = true) -> exists s, display v = Some s.
Proof.
  intros H. destruct v as [x|]; [|cbn; eauto]. specialize (H x eq_refl).
  destruct x as [| | | |items|fields]; cbn [display];
    try (apply js_string_printable; exact H).
  rewrite (proj1 (printable_fields fields "toHTML" H) (or_introl eq_refl)).
  cbn [ToBoolean]. apply js_string_printable, H.
Qed.

Lemma property_printable k c x :
  printable c = true -> property k c = Some x -> printable x = true.
Proof.
  destruct c; cbn [property]; try discriminate.
  intros H Hx. exact (proj2 (printable_fields _ k H) x Hx).
Qed.

Lemma lookup_path_printable path : forall v x,
  (forall c, v = Some c -> printable c = true) ->
  lookup_path path v = Some x -> printable x = true.
Proof.
  induction path as [|k path IH]; intros v x Hv; cbn [lookup_path].
  - intros ->. apply Hv. reflexivity.
  - destruct v as [c|]; [|discriminate]. specialize (Hv c eq_refl).
    assert (G : lookup_path path (property k c) = Some x -> printable x = true).
    { apply IH. intros c' Hc'. exact (property_printable k c c' Hv Hc'). }
    destruct c; try exact G. intros [= <-]. reflexivity.
Qed.

Lemma shown_printable path ctx :
  printable ctx = true -> exists s, display (lookup_path path (Some ctx)) = Some s.
Proof.
  intros H. apply display_printable. intros x Hx.
  apply (lookup_path_printable path (Some ctx) x); [|exact Hx].
  intros c [= <-]. exact H.
Qed.

(** ** Renders that do not throw *)

Definition items_of (v : option json) : list json :=
  match v with
  | Some (JArr l) => l
  | Some (JObj fields) => map snd fields
  | _ => []
  end.

Section Succeeds.

Variable helpers : string -> option (option json -> option bytes).

(** Every value that rendering [n] in [ctx] shows has a string, and every
    helper call that it can reach returns. *)
Fixpoint succeeds (n : node) (ctx : json) {struct n} : Prop :=
  let all (body : list node) (c : json) :=
    (fix all (l : list node) : Prop :=
       match l with
       | [] => True
       | m :: l' => succeeds m c /\ all l'
       end) body in
  match n with
  | Text _ => True
  | Mustache (Lookup path) => exists s, display (lookup_path path (Some ctx)) = Some s
  | Mustache (Call name path) =>
      exists f s, helpers name = Some f /\ f (lookup_path path (Some ctx)) = Some s
  | If _ body => all body ctx
  | Unless _ body => all body ctx
  | Each path body =>
      forall item, In item (items_of (lookup_path path (Some ctx))) -> all body item
  end.

Definition all_succeed (body : list node) (c : json) : Prop :=
  (fix all (l : list node) : Prop :=
     match l with
     | [] => True
     | m :: l' => succeeds m c /\ all l'
     end) body.

Lemma items_printable path ctx item :
  printable ctx = true -> In item (items_of (lookup_path path (Some ctx))) ->
  printable item = true.
Proof.
  intros H Hitem.
  destruct (lookup_path path (Some ctx)) as [x|] eqn:E; [|destruct Hitem].
  assert (Hx : printable x = true).
  { apply (lookup_path_printable path (Some ctx) x); [|exact E].
    intros c [= <-]. exact H. }
  destruct x as [| | | |items|fields]; try destruct Hitem.
  - cbn [printable] in Hx. rewrite forallb_forall in Hx. apply Hx, Hitem.
  - cbn [items_of] in Hitem. apply in_map_iff in Hitem.
    destruct Hitem as ([k v] & <- & Hin). cbn [printable] in Hx.
    rewrite forallb_forall in Hx. specialize (Hx _ Hin).
    apply andb_true_iff in Hx. apply Hx.
Qed.

Lemma all_succeed_In body c m : all_succeed body c -> In m body -> succeeds m c.
Proof.
  induction body as [|x body IH]; simpl; [intros _ []|].
  intros [Hx Hb] [<-|Hm]; auto.
Qed.

Lemma sequence_total {A} (f : A -> option (list chunk)) l :
  (forall x, In x l -> exists cs, f x = Some cs) ->
  exists cs, sequence (map f l) = Some cs.
Proof.
  induction l as [|x l IH]; intros H; simpl; [eauto|].
  destruct (H x (or_introl eq_refl)) as [a ->].
  destruct IH as [b ->]; [intros y Hy; apply H; right; exact Hy|]. eauto.
Qed.

Lemma succeeds_total n : forall ctx,
  succeeds n ctx -> exists cs, render_node helpers n ctx = Some cs.
Proof.
  induction n as [s|e|p body IH|p body IH|p body IH] using node_induction;
    intros ctx H.
  - simpl. eauto.
  - destruct e as [path|name path]; simpl; simpl in H.
    + destruct H as (s & ->). eauto.
    + destruct H as (f & s & -> & ->). eauto.
  - simpl. destruct (truthy _); [|eauto].
    apply sequence_total. intros m Hm. rewrite Forall_forall in IH.
    apply (IH m Hm). exact (all_succeed_In body ctx m H Hm).
  - simpl. destruct (truthy _); [eauto|].
    apply sequence_total. intros m Hm. rewrite Forall_forall in IH.
    apply (IH m Hm). exact (all_succeed_In body ctx m H Hm).
  - simpl. simpl in H. rewrite Forall_forall in IH.
    assert (G : forall items, (forall item, In item items -> all_succeed body item) ->
              exists cs, sequence (map (fun item =>
                sequence (map (fun m => render_node helpers m item) body)) items) = Some cs).
    { intros items Hi. apply sequence_total. intros item Hitem.
      apply sequence_total. intros m Hm. apply (IH m Hm).
      exact (all_succeed_In body item m (Hi item Hitem) Hm). }
    destruct (lookup_path p (Some ctx)) as [[| | | |items|fields]|];
      try (eexists; reflexivity).
    + apply G. exact H.
    + apply (G (map snd fields)). exact H.
Qed.

Lemma all_succeed_total (p : program) ctx :
  all_succeed p ctx -> exists cs, render helpers p ctx = Some cs.
Proof.
  intros H. unfold render. apply sequence_total. intros m Hm.
  apply succeeds_total. exact (all_succeed_In p ctx m H Hm).
Qed.

End Succeeds.

End Handlebars.

(* ===================================================================== *)
(** * The compiled-template cache (src/utils/template-cache.ts)          *)
(* ===================================================================== *)

Module TemplateCache.

Open Scope Z_scope.

(** What [handlebars.compile] returns: a function of the template source.
    [born] records the clock reading of the [getTemplate] call that
    compiled it; the code cannot read it, the statements below can. *)
Record delegate := { source : Handlebars.program; born : Z }.

Record CompiledTemplate := {
  template : delegate;
  compiledAt : Z;
  lastUsed : Z;
  useCount : Z
}.

(** A JavaScript [Map] with string keys: entries in insertion order, at
    most one per key. *)
Definition cache := list (string * CompiledTemplate).

Definition MAX_CACHE_SIZE : Z := 10.
Definition CACHE_TTL : Z := 5 * 60 * 1000.

Fixpoint map_get (key : string) (c : cache) : option CompiledTemplate :=
  match c with
  | [] => None
  | (k, e) :: c' => if String.eqb k key then Some e else map_get key c'
  end.

(** [Map.prototype.set]: an existing key keeps its place. *)
Fixpoint map_set (key : string) (e : CompiledTemplate) (c : cache) : cache :=
  match c with
  | [] => [(key, e)]
  | (k, e') :: c' =>
      if String.eqb k key then (k, e) :: c' else (k, e') :: map_set key e c'
  end.

Definition map_delete (key : string) (c : cache) : cache :=
  filter (fun ke => negb (String.eqb (fst ke) key)) c.

Definition map_size (c : cache) : Z := Z.of_nat (length c).

(** [Array.prototype.sort] with the comparator [a.lastUsed - b.lastUsed]:
    a stable sort by [lastUsed].  An entry is put before the entries that
    come after it in the array and are not used earlier than it, so entries
    with the same [lastUsed] keep their order. *)
Fixpoint insert_by_lastUsed (x : string * CompiledTemplate) (l : cache) : cache :=
  match l with
  | [] => [x]
  | y :: l' =>
      if lastUsed (snd x) <=? lastUsed (snd y) then x :: y :: l'
      else y :: insert_by_lastUsed x l'
  end.

Definition sort_by_lastUsed (l : cache) : cache :=
  fold_right insert_by_lastUsed [] l.

Definition cleanupCache (now : Z) (c : cache) : cache :=
  if map_size c <=? MAX_CACHE_SIZE then c
  else
    let expiredKeys :=
      map fst (filter (fun ke => CACHE_TTL <=? now - compiledAt (snd ke)) c) in
    let c1 := fold_left (fun acc k => map_delete k acc) expiredKeys c in
    if MAX_CACHE_SIZE <? map_size c1 then
      let remainingEntries := sort_by_lastUsed c1 in
      let toRemove :=
        firstn (length remainingEntries - Z.to_nat MAX_CACHE_SIZE) remainingEntries in
      fold_left (fun acc ke => map_delete (fst ke) acc) toRemove c1
    else c1.

(** [getTemplate]; [now] and [now'] are the two readings of the clock, the
    one of [getTemplate] and the one of [cleanupCache]. *)
Definition getTemplate (now now' : Z) (key : string)
    (templateSource : Handlebars.program)
    (c : cache) : delegate * cache :=
  match map_get key c with
  | Some cached =>
      if now - compiledAt cached <? CACHE_TTL then
        (template cached,
         map_set key {| template := template cached;
                        compiledAt := compiledAt cached;
                        lastUsed := now;
                        useCount := useCount cached + 1 |} c)
      else
        let t := {| source := templateSource; born := now |} in
        (t, cleanupCache now'
              (map_set key {| template := t; compiledAt := now;
                              lastUsed := now; useCount := 1 |} c))
  | None =>
      let t := {| source := templateSource; born := now |} in
      (t, cleanupCache now'
            (map_set key {| template := t; compiledAt := now;
                            lastUsed := now; useCount := 1 |} c))
  end.

Definition clear (c : cache) : cache := [].

(** The calls made on the cache, and the state they lead to from the empty
    cache of the singleton. *)
Inductive call :=
| GetTemplate (now now' : Z) (key : string) (templateSource : Handlebars.program)
| Clear.

Definition perform (c : cache) (op : call) : cache :=
  match op with
  | GetTemplate now now' key src => snd (getTemplate now now' key src c)
  | Clear => clear c
  end.

Definition run (ops : list call) : cache := fold_left perform ops [].

(** Every entry records the time at which its template was compiled. *)
Definition stamped (c : cache) : Prop :=
  forall k e, In (k, e) c -> born (template e) = compiledAt e.

Example cache_reuse :
  let c := run [GetTemplate 1000 1000 "default" [Handlebars.Text (lit "x")]] in
  fst (getTemplate 2000 2000 "default" [Handlebars.Text (lit "y")] c)
  = {| source := [Handlebars.Text (lit "x")]; born := 1000 |}.
Proof. reflexivity. Qed.

Example cache_expiry :
  let c := run [GetTemplate 1000 1000 "default" [Handlebars.Text (lit "x")]] in
  fst (getTemplate 301000 301000 "default" [Handlebars.Text (lit "y")] c)
  = {| source := [Handlebars.Text (lit "y")]; born := 301000 |}.
Proof. reflexivity. Qed.

(** Eleven templates compiled in the same millisecond: the sort keeps
    their order, and the cleanup takes out the one that was compiled
    first. *)
Example cache_overflow_on_ties :
  map fst
    (run (map (fun k => GetTemplate 1000 1000 k [])
            ["k01"; "k02"; "k03"; "k04"; "k05"; "k06"; "k07"; "k08"; "k09"; "k10";
             "k11"]%string))
  = ["k02"; "k03"; "k04"; "k05"; "k06"; "k07"; "k08"; "k09"; "k10"; "k11"]%string.
Proof. vm_compute. reflexivity. Qed.

Lemma map_get_In key c e : map_get key c = Some e -> In (key, e) c.
Proof.
  induction c as [|[k e'] c IH]; simpl; [discriminate|].
  destruct (String.eqb_spec k key) as [->|N].
  - intros [= ->]. left. reflexivity.
  - intros H. right. apply IH, H.
Qed.

Lemma map_set_In key e c k x :
  In (k, x) (map_set key e c) -> In (k, x) c \/ x = e.
Proof.
  induction c as [|[k' e'] c IH]; simpl.
  - intros [[= _ <-]|[]]. right. reflexivity.
  - destruct (String.eqb k' key); simpl.
    + intros [[= _ <-]|H]; [right; reflexivity | left; right; exact H].
    + intros [H|H]; [left; left; exact H|].
      destruct (IH H) as [H'|H']; [left; right; exact H' | right; exact H'].
Qed.

Lemma map_delete_In key c k x : In (k, x) (map_delete key c) -> In (k, x) c.
Proof. unfold map_delete. intros H. apply filter_In in H. apply H. Qed.

Lemma delete_keys_In (keys : list string) : forall c k x,
  In (k, x) (fold_left (fun acc k0 => map_delete k0 acc) keys c) -> In (k, x) c.
Proof.
  induction keys as [|k0 keys IH]; intros c k x; simpl; [auto|].
  intros H. apply IH in H. eapply map_delete_In; eauto.
Qed.

Lemma delete_entries_In (l : cache) : forall c k x,
  In (k, x) (fold_left (fun acc ke => map_delete (fst ke) acc) l c) -> In (k, x) c.
Proof.
  induction l as [|k0 l IH]; intros c k x; simpl; [auto|].
  intros H. apply IH in H. eapply map_delete_In; eauto.
Qed.

Lemma cleanupCache_In now c k x : In (k, x) (cleanupCache now c) -> In (k, x) c.
Proof.
  unfold cleanupCache. destruct (map_size c <=? MAX_CACHE_SIZE); [auto|].
  match goal with |- context [if ?b then _ else _] => destruct b end.
  - intros H. apply delete_entries_In in H. apply delete_keys_In in H. exact H.
  - apply delete_keys_In.
Qed.

Lemma stamped_getTemplate now now' key src c :
  stamped c -> stamped (snd (getTemplate now now' key src c)).
Proof.
  intros Hc. unfold getTemplate.
  assert (Fresh : stamped (cleanupCache now'
            (map_set key {| template := {| source := src; born := now |};
                            compiledAt := now; lastUsed := now; useCount := 1 |} c))).
  { intros k e H. apply cleanupCache_In in H. apply map_set_In in H.
    destruct H as [H| ->]; [apply (Hc k e H) | reflexivity]. }
  destruct (map_get key c) as [cached|] eqn:G; [|exact Fresh].
  destruct (now - compiledAt cached <? CACHE_TTL); [|exact Fresh].
  intros k e H. cbn [snd] in H. apply map_set_In in H.
  destruct H as [H| ->]; [apply (Hc k e H)|]. cbn.
  apply (Hc key cached). apply map_get_In, G.
Qed.

Lemma stamped_run ops : stamped (run ops).
Proof.
  unfold run.
  assert (G : forall c, stamped c -> stamped (fold_left perform ops c)).
  { induction ops as [|op ops IH]; intros c Hc; simpl; [exact Hc|].
    apply IH. destruct op as [now now' key src|]; simpl.
    - apply stamped_getTemplate, Hc.
    - intros k e []. }
  apply G. intros k e [].
Qed.

(** C9.  In every state the cache can be in, the template that
    [getTemplate] returns was compiled less than [CACHE_TTL] before the
    lookup: an entry is reused only if its age is below the TTL, and an
    entry whose age has reached the TTL is not reused, whenever it was last
    used; the template is compiled again and the entry replaced. *)
Theorem ttl_never_reused (ops : list call) (now now' : Z) (key : string)
    (src : Handlebars.program) :
  let c := run ops in
  let t := fst (getTemplate now now' key src c) in
  now - born t < CACHE_TTL /\
  (forall e, map_get key c = Some e -> now - compiledAt e < CACHE_TTL ->
             t = template e) /\
  (forall e, map_get key c = Some e -> CACHE_TTL <= now - compiledAt e ->
             t = {| source := src; born := now |}) /\
  (map_get key c = None -> t = {| source := src; born := now |}).
Proof.
  intros c t. pose proof (stamped_run ops) as Hs. fold c in Hs.
  unfold t, getTemplate. destruct (map_get key c) as [cached|] eqn:G.
  - destruct (Z.ltb_spec (now - compiledAt cached) CACHE_TTL) as [L|L]; cbn [fst].
    + split; [|split; [|split]].
      * rewrite (Hs key cached (map_get_In _ _ _ G)). exact L.
      * intros e [= <-] _. reflexivity.
      * intros e [= <-] H. lia.
      * discriminate.
    + split; [|split; [|split]].
      * cbn. unfold CACHE_TTL. lia.
      * intros e [= <-] H. lia.
      * reflexivity.
      * discriminate.
  - cbn [fst]. split; [|split; [|split]].
    + cbn. unfold CACHE_TTL. lia.
    + discriminate.
    + discriminate.
    + reflexivity.
Qed.

(** ** The size of the cache *)

Definition keys (c : cache) : list string := map fst c.

Lemma map_get_keys key c : map_get key c = None <-> ~ In key (keys c).
Proof.
  induction c as [|[k e] c IH]; simpl.
  - split; [intros _ [] | reflexivity].
  - destruct (String.eqb_spec k key) as [->|N].
    + split; [discriminate | intros H; exfalso; apply H; left; reflexivity].
    + rewrite IH. split; [intros H [E|E]; [congruence | exact (H E)] | intros H E; apply H; right; exact E].
Qed.

Lemma map_set_keys key e c :
  keys (map_set key e c) = if in_dec string_dec key (keys c) then keys c else keys c ++ [key].
Proof.
  induction c as [|[k e'] c IH]; simpl; [reflexivity|].
  destruct (String.eqb_spec k key) as [->|N]; simpl.
  - destruct (string_dec key key) as [E|C]; [reflexivity | congruence].
  - rewrite IH. destruct (string_dec k key) as [C|E]; [congruence|].
    destruct (in_dec string_dec key (keys c)); reflexivity.
Qed.

Lemma map_set_NoDup key e c : NoDup (keys c) -> NoDup (keys (map_set key e c)).
Proof.
  intros H. rewrite map_set_keys. destruct (in_dec string_dec key (keys c)) as [I|N]; [exact H|].
  apply NoDup_app; [exact H | repeat constructor; intros [] | ].
  intros a Ha [E|[]]. subst a. exact (N Ha).
Qed.

Lemma map_set_size key e c :
  map_size (map_set key e c)
  = if in_dec string_dec key (keys c) then map_size c else map_size c + 1.
Proof.
  unfold map_size. rewrite <- !(length_map fst). fold (keys (map_set key e c)) (keys c).
  rewrite map_set_keys. destruct (in_dec string_dec key (keys c)); [reflexivity|].
  rewrite length_app. simpl. lia.
Qed.

Lemma map_delete_keys key c :
  keys (map_delete key c) = filter (fun k => negb (String.eqb k key)) (keys c).
Proof.
  unfold map_delete, keys. induction c as [|[k e] c IH]; simpl; [reflexivity|].
  destruct (String.eqb k key); simpl; rewrite IH; reflexivity.
Qed.

Lemma map_delete_NoDup key c : NoDup (keys c) -> NoDup (keys (map_delete key c)).
Proof. intros H. rewrite map_delete_keys. apply NoDup_filter, H. Qed.

Lemma map_delete_length key c :
  NoDup (keys c) -> In key (keys c) -> S (length (map_delete key c)) = length c.
Proof.
  unfold map_delete, keys. induction c as [|[k e] c IH]; simpl; [intros _ []|].
  intros Hn Hi. inversion Hn as [|? ? Hk Hc]; subst.
  destruct (String.eqb_spec k key) as [->|N]; simpl.
  - f_equal. clear IH Hn Hi Hc. induction c as [|[k' e'] c IH]; simpl; [reflexivity|].
    simpl in Hk. destruct (String.eqb_spec k' key) as [->|N]; simpl.
    + exfalso. apply Hk. left. reflexivity.
    + f_equal. apply IH. intros H. apply Hk. right. exact H.
  - f_equal. apply IH; [exact Hc|]. destruct Hi as [E|Hi]; [congruence | exact Hi].
Qed.

Lemma map_delete_length_le key c : (length (map_delete key c) <= length c)%nat.
Proof. unfold map_delete. apply filter_length_le. Qed.

(** Deleting keys that are present, each once, takes as many entries
    away. *)
Lemma delete_keys_length (ks : list string) : forall c,
  NoDup (keys c) -> NoDup ks -> incl ks (keys c) ->
  (length (fold_left (fun acc k => map_delete k acc) ks c) + length ks = length c)%nat.
Proof.
  induction ks as [|k ks IH]; intros c Hc Hks Hin; simpl; [lia|].
  inversion Hks as [|? ? Hk Hks']; subst.
  assert (Hi : In k (keys c)) by (apply Hin; left; reflexivity).
  pose proof (map_delete_length k c Hc Hi) as Hl.
  rewrite <- Hl. rewrite <- (IH (map_delete k c)).
  - lia.
  - apply map_delete_NoDup, Hc.
  - exact Hks'.
  - intros a Ha. rewrite map_delete_keys. apply filter_In. split.
    + apply Hin. right. exact Ha.
    + apply negb_true_iff. apply String.eqb_neq. intros ->. exact (Hk Ha).
Qed.

Lemma delete_keys_NoDup (ks : list string) : forall c,
  NoDup (keys c) -> NoDup (keys (fold_left (fun acc k => map_delete k acc) ks c)).
Proof.
  induction ks as [|k ks IH]; intros c Hc; simpl; [exact Hc|].
  apply IH, map_delete_NoDup, Hc.
Qed.

Lemma delete_keys_length_le (ks : list string) : forall c,
  (length (fold_left (fun acc k => map_delete k acc) ks c) <= length c)%nat.
Proof.
  induction ks as [|k ks IH]; intros c; simpl; [lia|].
  pose proof (IH (map_delete k c)). pose proof (map_delete_length_le k c). lia.
Qed.

Lemma delete_entries_keys (l : cache) : forall c,
  fold_left (fun acc ke => map_delete (fst ke) acc) l c
  = fold_left (fun acc k => map_delete k acc) (keys l) c.
Proof.
  induction l as [|x l IH]; intros c; simpl; [reflexivity|]. apply IH.
Qed.

Lemma insert_by_lastUsed_perm x l : Permutation (insert_by_lastUsed x l) (x :: l).
Proof.
  induction l as [|y l IH]; simpl; [apply Permutation_refl|].
  destruct (lastUsed (snd x) <=? lastUsed (snd y)); [apply Permutation_refl|].
  eapply Permutation_trans; [apply perm_skip, IH | apply perm_swap].
Qed.

Lemma sort_by_lastUsed_perm l : Permutation (sort_by_lastUsed l) l.
Proof.
  induction l as [|x l IH]; simpl; [apply perm_nil|].
  eapply Permutation_trans; [apply insert_by_lastUsed_perm | apply perm_skip, IH].
Qed.

Lemma firstn_NoDup {A} (n : nat) (l : list A) : NoDup l -> NoDup (firstn n l).
Proof.
  revert n. induction l as [|a l IH]; intros [|n] H; simpl; try constructor.
  - inversion H as [|? ? Ha Hl]; subst. intros Hin. apply Ha.
    rewrite <- (firstn_skipn n l). apply in_or_app. left. exact Hin.
  - inversion H; subst. apply IH. assumption.
Qed.

Lemma firstn_incl {A} (n : nat) (l : list A) : incl (firstn n l) l.
Proof.
  intros a Ha. rewrite <- (firstn_skipn n l). apply in_or_app. left. exact Ha.
Qed.

(** [cleanupCache] brings a cache whose keys are distinct down to
    [MAX_CACHE_SIZE] entries. *)
Lemma cleanupCache_size now c :
  NoDup (keys c) ->
  NoDup (keys (cleanupCache now c)) /\ map_size (cleanupCache now c) <= MAX_CACHE_SIZE.
Proof.
  intros Hc. unfold cleanupCache.
  destruct (Z.leb_spec (map_size c) MAX_CACHE_SIZE) as [L|L]; [split; assumption|].
  set (expiredKeys := map fst (filter (fun ke => CACHE_TTL <=? now - compiledAt (snd ke)) c)).
  set (c1 := fold_left (fun acc k => map_delete k acc) expiredKeys c).
  assert (H1 : NoDup (keys c1)) by (apply delete_keys_NoDup, Hc).
  destruct (Z.ltb_spec MAX_CACHE_SIZE (map_size c1)) as [G|G]; [|split; assumption].
  set (sorted := sort_by_lastUsed c1).
  set (toRemove := firstn (length sorted - Z.to_nat MAX_CACHE_SIZE) sorted).
  rewrite delete_entries_keys.
  assert (Hp : Permutation (keys sorted) (keys c1)).
  { unfold keys. apply Permutation_map, sort_by_lastUsed_perm. }
  assert (Hlen : length sorted = length c1).
  { apply Permutation_length, sort_by_lastUsed_perm. }
  assert (Hk : keys toRemove = firstn (length sorted - Z.to_nat MAX_CACHE_SIZE) (keys sorted)).
  { unfold toRemove, keys. symmetry. apply firstn_map. }
  assert (Hnd : NoDup (keys toRemove)).
  { rewrite Hk. apply firstn_NoDup.
    apply (Permutation_NoDup (Permutation_sym Hp)), H1. }
  assert (Hin : incl (keys toRemove) (keys c1)).
  { rewrite Hk. intros a Ha. apply (Permutation_in _ Hp).
    exact (firstn_incl _ _ a Ha). }
  split; [apply delete_keys_NoDup, H1|].
  pose proof (delete_keys_length (keys toRemove) c1 H1 Hnd Hin) as E.
  assert (Hr : length (keys toRemove) = (length c1 - Z.to_nat MAX_CACHE_SIZE)%nat).
  { rewrite Hk, length_firstn. unfold keys. rewrite length_map, Hlen. lia. }
  unfold map_size, MAX_CACHE_SIZE in *. lia.
Qed.

Lemma getTemplate_size now now' key src c :
  NoDup (keys c) -> map_size c <= MAX_CACHE_SIZE ->
  NoDup (keys (snd (getTemplate now now' key src c))) /\
  map_size (snd (getTemplate now now' key src c)) <= MAX_CACHE_SIZE.
Proof.
  intros Hc Hs. unfold getTemplate.
  assert (Fresh : forall e,
            NoDup (keys (cleanupCache now' (map_set key e c))) /\
            map_size (cleanupCache now' (map_set key e c)) <= MAX_CACHE_SIZE).
  { intros e. apply cleanupCache_size, map_set_NoDup, Hc. }
  destruct (map_get key c) as [cached|] eqn:G; [|apply Fresh].
  destruct (now - compiledAt cached <? CACHE_TTL); [|apply Fresh].
  cbn [snd]. split; [apply map_set_NoDup, Hc|].
  rewrite map_set_size. destruct (in_dec string_dec key (keys c)) as [I|N]; [exact Hs|].
  apply map_get_keys in N. congruence.
Qed.

(** Whatever calls were made, the cache holds at most [MAX_CACHE_SIZE]
    entries, and no key twice. *)
Theorem cache_size_bounded (ops : list call) :
  NoDup (keys (run ops)) /\ map_size (run ops) <= MAX_CACHE_SIZE.
Proof.
  unfold run.
  assert (G : forall c, NoDup (keys c) /\ map_size c <= MAX_CACHE_SIZE ->
                        NoDup (keys (fold_left perform ops c)) /\
                        map_size (fold_left perform ops c) <= MAX_CACHE_SIZE).
  { induction ops as [|op ops IH]; intros c Hc; simpl; [exact Hc|].
    apply IH. destruct op as [now now' key src|]; simpl.
    - apply getTemplate_size; apply Hc.
    - split; [constructor | unfold map_size, MAX_CACHE_SIZE; simpl; lia]. }
  apply G. split; [constructor | unfold map_size, MAX_CACHE_SIZE; simpl; lia].
Qed.

(** ** Lookups that hit *)

Lemma map_get_set key e c : map_get key (map_set key e c) = Some e.
Proof.
  induction c as [|[k e'] c IH]; simpl.
  - rewrite String.eqb_refl. reflexivity.
  - destruct (String.eqb k key) eqn:E; simpl; rewrite E; [reflexivity | exact IH].
Qed.

Lemma cleanupCache_small now c : map_size c <= MAX_CACHE_SIZE -> cleanupCache now c = c.
Proof.
  intros H. unfold cleanupCache.
  destruct (Z.leb_spec (map_size c) MAX_CACHE_SIZE); [reflexivity | lia].
Qed.

(** After a lookup in a cache that is not full, the entry of the key holds
    the template that the lookup returned. *)
Lemma getTemplate_entry now now' key src c :
  stamped c -> map_size c < MAX_CACHE_SIZE ->
  exists e,
    map_get key (snd (getTemplate now now' key src c)) = Some e /\
    template e = fst (getTemplate now now' key src c) /\
    compiledAt e = born (fst (getTemplate now now' key src c)).
Proof.
  intros Hs Hc. unfold getTemplate.
  assert (Fresh : forall e,
            cleanupCache now' (map_set key e c) = map_set key e c).
  { intros e. apply cleanupCache_small. rewrite map_set_size.
    destruct (in_dec string_dec key (keys c)); lia. }
  destruct (map_get key c) as [cached|] eqn:G.
  - destruct (now - compiledAt cached <? CACHE_TTL).
    + cbn [fst snd]. rewrite map_get_set. eexists. split; [reflexivity|].
      cbn. split; [reflexivity|]. symmetry. apply (Hs key cached), map_get_In, G.
    + cbn [fst snd]. rewrite Fresh, map_get_set. eexists. split; [reflexivity|].
      cbn. split; reflexivity.
  - cbn [fst snd]. rewrite Fresh, map_get_set. eexists. split; [reflexivity|].
    cbn. split; reflexivity.
Qed.

(** In a cache that is not full, a second lookup under the same key, made
    less than [CACHE_TTL] after the template was compiled, returns the
    template of the first lookup; the source it is given is not looked at. *)
Theorem second_lookup_hits (ops : list call) (now now' now2 now2' : Z) (key : string)
    (src src' : Handlebars.program) :
  let c := run ops in
  let t := fst (getTemplate now now' key src c) in
  map_size c < MAX_CACHE_SIZE ->
  now2 - born t < CACHE_TTL ->
  fst (getTemplate now2 now2' key src' (snd (getTemplate now now' key src c))) = t.
Proof.
  intros c t Hc Hage.
  destruct (getTemplate_entry now now' key src c (stamped_run ops) Hc)
    as (e & He & Ht & Hb).
  fold t in Ht, Hb. unfold getTemplate at 1. rewrite He. rewrite Hb.
  destruct (Z.ltb_spec (now2 - born t) CACHE_TTL) as [L|L]; [|lia].
  cbn [fst]. exact Ht.
Qed.

Lemma second_lookup_hits_witness :
  fst (getTemplate 2000 2000 "default" [Handlebars.Text (lit "new")]
         (snd (getTemplate 1000 1000 "default" [Handlebars.Text (lit "old")] (run []))))
  = fst (getTemplate 1000 1000 "default" [Handlebars.Text (lit "old")] (run [])).
Proof.
  apply (second_lookup_hits [] 1000 1000 2000 2000 "default"
           [Handlebars.Text (lit "old")] [Handlebars.Text (lit "new")]).
  - vm_compute. reflexivity.
  - vm_compute. reflexivity.
Defined.

End TemplateCache.

(* ===================================================================== *)
(** * The validator (src/validators/resume-validator.ts)                 *)
(* ===================================================================== *)

Module Validator.

Local Open Scope string_scope.

(** The keywords of JSON Schema that the resume schema uses. *)
Inductive jtype := TObject | TArray | TString.

Inductive schema :=
| Schema (type : option jtype) (required : list string)
         (properties : list (string * schema)) (items : option schema)
         (minLength : option nat) (format : option string).

Definition str : schema := Schema (Some TString) [] [] None None None.
Definition str_min (n : nat) : schema := Schema (Some TString) [] [] None (Some n) None.
Definition str_format (f : string) : schema :=
  Schema (Some TString) [] [] None None (Some f).
Definition arr (item : schema) : schema :=
  Schema (Some TArray) [] [] (Some item) None None.
Definition obj (required : list string) (properties : list (string * schema)) : schema :=
  Schema (Some TObject) required properties None None None.

Definition resumeSchema : schema :=
  obj ["basics"; "work"]
    [
     ("basics", obj ["name"; "email"]
        [
         ("name", str_min 1);
         ("label", str);
         ("email", str_format "email");
         ("phone", str);
         ("url", str_format "uri");
         ("summary", str);
         ("location", obj []
            [
             ("address", str);
             ("postalCode", str);
             ("city", str);
             ("countryCode", str);
             ("region", str)
            ]);
         ("profiles", arr
            (obj []
               [
                ("network", str);
                ("username", str);
                ("url", str_format "uri")
               ]))
        ]);
     ("work", arr
        (obj ["name"; "position"; "startDate"]
           [
            ("name", str_min 1);
            ("position", str_min 1);
            ("url", str_format "uri");
            ("startDate", str_format "date");
            ("endDate", str_format "date");
            ("summary", str);
            ("highlights", arr
               (str));
            ("location", str)
           ]));
     ("education", arr
        (obj []
           [
            ("institution", str);
            ("area", str);
            ("studyType", str);
            ("startDate", str_format "date");
            ("endDate", str_format "date");
            ("gpa", str);
            ("courses", arr
               (str))
           ]));
     ("skills", arr
        (obj []
           [
            ("name", str);
            ("level", str);
            ("keywords", arr
               (str))
           ]));
     ("projects", arr
        (obj []
           [
            ("name", str);
            ("description", str);
            ("highlights", arr
               (str));
            ("keywords", arr
               (str));
            ("startDate", str_format "date");
            ("endDate", str_format "date");
            ("url", str_format "uri")
           ]));
     ("awards", arr
        (obj []
           [
            ("title", str);
            ("date", str_format "date");
            ("awarder", str);
            ("summary", str)
           ]));
     ("certifications", arr
        (obj []
           [
            ("name", str);
            ("date", str_format "date");
            ("issuer", str);
            ("url", str_format "uri")
           ]));
     ("publications", arr
        (obj []
           [
            ("name", str);
            ("publisher", str);
            ("releaseDate", str_format "date");
            ("url", str_format "uri");
            ("summary", str)
           ]));
     ("languages", arr
        (obj []
           [
            ("language", str);
            ("fluency", str)
           ]));
     ("interests", arr
        (obj []
           [
            ("name", str);
            ("keywords", arr
               (str))
           ]));
     ("references", arr
        (obj []
           [
            ("name", str);
            ("reference", str)
           ]))
    ].

Definition has_type (t : option jtype) (v : json) : bool :=
  match t, v with
  | None, _ => true
  | Some TObject, JObj _ => true
  | Some TArray, JArr _ => true
  | Some TString, JStr _ => true
  | _, _ => false
  end.

(** Validation as Ajv does it: [required] and [properties] bear on
    objects, [items] on arrays, [minLength] and [format] on strings.  The
    formats themselves ([email], [uri], [date]) are those of ajv-formats and
    are given by [formats].  [minLength] counts the characters of this
    model. *)
Fixpoint validate (formats : string -> bytes -> bool) (s : schema) (v : json)
    {struct s} : bool :=
  match s with
  | Schema type required properties items minLength format =>
      has_type type v
      && match v with
         | JObj fields =>
             forallb (fun k => match assoc k fields with
                               | Some _ => true
                               | None => false
                               end) required
             && (fix each (ps : list (string * schema)) : bool :=
                   match ps with
                   | [] => true
                   | (k, sk) :: ps' =>
                       match assoc k fields with
                       | Some x => validate formats sk x
                       | None => true
                       end && each ps'
                   end) properties
         | JArr l =>
             match items with
             | Some si => forallb (validate formats si) l
             | None => true
             end
         | JStr text =>
             match minLength with
             | Some n => Nat.leb n (length text)
             | None => true
             end
             && match format with
                | Some f => formats f text
                | None => true
                end
         | _ => true
         end
  end.

(** [validateResumeData]: [true] when it returns, [false] when it throws
    its ValidationError. *)
Definition validateResumeData (formats : string -> bytes -> bool) (data : json) : bool :=
  validate formats resumeSchema data.

(** ** What a valid value looks like *)

Lemma validate_obj formats req props v :
  validate formats (obj req props) v = true ->
  exists fields,
    v = JObj fields /\
    (forall k, In k req -> exists x, assoc k fields = Some x) /\
    (forall k sk x, In (k, sk) props -> assoc k fields = Some x ->
                    validate formats sk x = true).
Proof.
  unfold obj. cbn [validate]. destruct v as [| | | | |fields]; try discriminate.
  cbn [has_type andb]. rewrite andb_true_iff. intros [Hreq Hprops].
  exists fields. split; [reflexivity|]. split.
  - intros k Hk. rewrite forallb_forall in Hreq. specialize (Hreq k Hk).
    destruct (assoc k fields) as [x|]; [eauto | discriminate].
  - induction props as [|[k' sk'] props IH]; intros k sk x Hin Hx; [destruct Hin|].
    apply andb_true_iff in Hprops. destruct Hprops as [H1 H2].
    destruct Hin as [[= -> ->]|Hin].
    + rewrite Hx in H1. exact H1.
    + exact (IH H2 k sk x Hin Hx).
Qed.

Lemma validate_arr formats item v :
  validate formats (arr item) v = true ->
  exists l, v = JArr l /\ forall x, In x l -> validate formats item x = true.
Proof.
  unfold arr. cbn [validate]. destruct v as [| | | |l|]; try discriminate.
  cbn [has_type andb]. intros H. exists l. split; [reflexivity|].
  rewrite forallb_forall in H. exact H.
Qed.

Lemma validate_str_format formats f v :
  validate formats (str_format f) v = true -> exists t, v = JStr t.
Proof.
  unfold str_format. cbn [validate]. destruct v; try discriminate. eauto.
Qed.

(** ** What validation looks at *)

Definition properties_of (s : schema) : list (string * schema) :=
  match s with Schema _ _ properties _ _ _ => properties end.

Definition required_of (s : schema) : list string :=
  match s with Schema _ required _ _ _ _ => required end.

Definition items_of (s : schema) : option schema :=
  match s with Schema _ _ _ items _ _ => items end.

(** The schema of an entry of [work]. *)
Definition work_item_schema : schema :=
  match assoc "work" (properties_of resumeSchema) with
  | Some s => match items_of s with Some item => item | None => str end
  | None => str
  end.

(** The names of the sections that the schema describes. *)
Definition section_names : list string := map fst (properties_of resumeSchema).

Lemma validate_obj_intro formats req props fields :
  (forall k, In k req -> exists x, assoc k fields = Some x) ->
  (forall k sk x, In (k, sk) props -> assoc k fields = Some x ->
                  validate formats sk x = true) ->
  validate formats (obj req props) (JObj fields) = true.
Proof.
  intros Hreq Hprops. unfold obj. cbn [validate has_type andb].
  apply andb_true_iff. split.
  - apply forallb_forall. intros k Hk. destruct (Hreq k Hk) as [x ->]. reflexivity.
  - induction props as [|[k sk] props IH]; [reflexivity|].
    apply andb_true_iff. split.
    + destruct (assoc k fields) as [x|] eqn:E; [|reflexivity].
      apply (Hprops k sk x); [left; reflexivity | exact E].
    + apply IH. intros k' sk' x Hin. apply Hprops. right. exact Hin.
Qed.

(** Validation of an object reads the properties that the schema names,
    and no other. *)
Lemma validate_obj_ext formats req props f1 f2 :
  (forall k, In k req \/ In k (map fst props) -> assoc k f1 = assoc k f2) ->
  validate formats (obj req props) (JObj f1) = validate formats (obj req props) (JObj f2).
Proof.
  intros H. unfold obj. cbn [validate has_type andb]. f_equal.
  - assert (G : forall k, In k req -> assoc k f1 = assoc k f2)
      by (intros k Hk; apply H; left; exact Hk).
    clear H. induction req as [|k req IH]; [reflexivity|].
    cbn [forallb]. rewrite (G k) by (left; reflexivity). f_equal.
    apply IH. intros k' Hk'. apply G. right. exact Hk'.
  - assert (G : forall k, In k (map fst props) -> assoc k f1 = assoc k f2)
      by (intros k Hk; apply H; right; exact Hk).
    clear H. induction props as [|[k sk] props IH]; [reflexivity|].
    rewrite (G k) by (left; reflexivity). f_equal.
    apply IH. intros k' Hk'. apply G. right. exact Hk'.
Qed.

(** The schema does not close the resume: a property that it does not
    name is not looked at, whatever its value, so that a resume with
    sections of its own is accepted exactly when it is accepted without
    them. *)
Theorem unknown_section_ignored (formats : string -> bytes -> bool)
    (fields : list (string * json)) (k : string) (v : json) :
  ~ In k section_names ->
  validateResumeData formats (JObj ((k, v) :: fields))
  = validateResumeData formats (JObj fields).
Proof.
  intros Hk. unfold validateResumeData, resumeSchema. apply validate_obj_ext.
  intros k' Hk'. cbn [assoc].
  destruct (String.eqb_spec k k') as [->|N]; [|reflexivity].
  exfalso. apply Hk. destruct Hk' as [Hreq|Hp].
  - cbn [In] in Hreq. destruct Hreq as [<-|[<-|[]]]; vm_compute; auto.
  - exact Hp.
Qed.

Lemma unknown_section_ignored_witness :
  validateResumeData (fun _ _ => true)
    (JObj [("volunteer", JNum 7); ("basics", JObj [("name", JStr (lit "A")); ("email", JStr (lit "a@b.c"))]);
           ("work", JArr [])])
  = validateResumeData (fun _ _ => true)
      (JObj [("basics", JObj [("name", JStr (lit "A")); ("email", JStr (lit "a@b.c"))]);
             ("work", JArr [])]).
Proof.
  apply (unknown_section_ignored (fun _ _ => true) _ "volunteer" (JNum 7)).
  vm_compute. intuition discriminate.
Defined.

Lemma validate_str_min formats n v :
  validate formats (str_min n) v = true -> exists t, v = JStr t /\ (n <= length t)%nat.
Proof.
  unfold str_min. cbn [validate]. destruct v as [| | |t| |]; try discriminate.
  cbn [has_type andb]. rewrite andb_true_r. intros H. apply Nat.leb_le in H. eauto.
Qed.

Lemma validate_str_format_value formats f v :
  validate formats (str_format f) v = true -> exists t, v = JStr t /\ formats f t = true.
Proof.
  unfold str_format. cbn [validate]. destruct v as [| | |t| |]; try discriminate.
  cbn [has_type andb]. eauto.
Qed.

(** What a resume that [validateResumeData] accepts holds: an object with
    [basics], itself an object with a name of at least one character and an
    email in the email format, and [work], an array of objects that each
    have a name and a position of at least one character and a start date
    in the date format. *)
Theorem valid_resume_required (formats : string -> bytes -> bool) (data : json) :
  validateResumeData formats data = true ->
  exists fields basics name email work,
    data = JObj fields /\
    assoc "basics" fields = Some (JObj basics) /\
    assoc "name" basics = Some (JStr name) /\ name <> [] /\
    assoc "email" basics = Some (JStr email) /\ formats "email" email = true /\
    assoc "work" fields = Some (JArr work) /\
    forall item, In item work ->
      exists entry n p d,
        item = JObj entry /\
        assoc "name" entry = Some (JStr n) /\ n <> [] /\
        assoc "position" entry = Some (JStr p) /\ p <> [] /\
        assoc "startDate" entry = Some (JStr d) /\ formats "date" d = true.
Proof.
  intros Hv. unfold validateResumeData, resumeSchema in Hv.
  apply validate_obj in Hv. destruct Hv as (fields & -> & Hreq & Hprops).
  destruct (Hreq "basics") as [b Hb]; [cbn; auto|].
  destruct (Hreq "work") as [w Hw]; [cbn; auto|].
  pose proof (Hprops "basics" _ b (or_introl eq_refl) Hb) as Vb.
  apply validate_obj in Vb. destruct Vb as (basics & -> & Hbreq & Hbprops).
  destruct (Hbreq "name") as [n Hn]; [cbn; auto|].
  destruct (Hbreq "email") as [e He]; [cbn; auto|].
  pose proof (Hbprops "name" _ n (or_introl eq_refl) Hn) as Vn.
  apply validate_str_min in Vn. destruct Vn as (name & -> & Hlen).
  pose proof (Hbprops "email" _ e (or_intror (or_intror (or_introl eq_refl))) He) as Ve.
  apply validate_str_format_value in Ve. destruct Ve as (email & -> & Hfmt).
  pose proof (Hprops "work" _ w (or_intror (or_introl eq_refl)) Hw) as Vw.
  apply validate_arr in Vw. destruct Vw as (work & -> & Hitems).
  exists fields, basics, name, email, work.
  split; [reflexivity|]. split; [exact Hb|]. split; [exact Hn|].
  split; [destruct name; [simpl in Hlen; lia | discriminate]|].
  split; [exact He|]. split; [exact Hfmt|]. split; [exact Hw|].
  intros item Hitem. pose proof (Hitems item Hitem) as Vi.
  apply validate_obj in Vi. destruct Vi as (entry & -> & Hereq & Heprops).
  destruct (Hereq "name") as [x1 H1]; [cbn; auto|].
  destruct (Hereq "position") as [x2 H2]; [cbn; auto|].
  destruct (Hereq "startDate") as [x3 H3]; [cbn; auto|].
  pose proof (Heprops "name" _ x1 (or_introl eq_refl) H1) as V1.
  apply validate_str_min in V1. destruct V1 as (n1 & -> & L1).
  pose proof (Heprops "position" _ x2 (or_intror (or_introl eq_refl)) H2) as V2.
  apply validate_str_min in V2. destruct V2 as (n2 & -> & L2).
  pose proof (Heprops "startDate" _ x3
                (or_intror (or_intror (or_intror (or_introl eq_refl)))) H3) as V3.
  apply validate_str_format_value in V3. destruct V3 as (d & -> & Fd).
  exists entry, n1, n2, d. split; [reflexivity|]. split; [exact H1|].
  split; [destruct n1; [simpl in L1; lia | discriminate]|]. split; [exact H2|].
  split; [destruct n2; [simpl in L2; lia | discriminate]|]. split; [exact H3 | exact Fd].
Qed.

Lemma valid_resume_required_witness :
  exists fields basics name email work,
    JObj [("basics", JObj [("name", JStr (lit "A")); ("email", JStr (lit "a@b.c"))]);
          ("work", JArr [])] = JObj fields /\
    assoc "basics" fields = Some (JObj basics) /\
    assoc "name" basics = Some (JStr name) /\ name <> [] /\
    assoc "email" basics = Some (JStr email) /\
    assoc "work" fields = Some (JArr work).
Proof.
  destruct (valid_resume_required (fun _ _ => true)
              (JObj [("basics", JObj [("name", JStr (lit "A")); ("email", JStr (lit "a@b.c"))]);
                     ("work", JArr [])]) eq_refl)
    as (fields & basics & name & email & work & E & H1 & H2 & H3 & H4 & _ & H5 & _).
  exists fields, basics, name, email, work. auto 10.
Defined.

End Validator.

(* ===================================================================== *)
(** * The HTML generator (src/templates/html-generator.ts)               *)
(* ===================================================================== *)

Module HtmlGenerator.

Import Handlebars.

Open Scope Z_scope.

(** The options of a render ([PDFOptions]). *)
Record PDFOptions := {
  output : option bytes;
  template_option : option string;         (* options.template *)
  atsMode : option bool;
  dateFormat : option bytes;
  deterministic : option bool;
  deterministicConfig : option Normalizer.DeterministicConfig
}.

Definition no_options : PDFOptions :=
  {| output := None; template_option := None; atsMode := None; dateFormat := None;
     deterministic := None; deterministicConfig := None |}.

Definition with_template (name : string) : PDFOptions :=
  {| output := None; template_option := Some name; atsMode := None;
     dateFormat := None; deterministic := None; deterministicConfig := None |}.

(** ** The registered helpers *)

(** [Array.prototype.includes('T')] on an array of values. *)
Definition array_includes_T (l : list json) : bool :=
  existsb (fun v => match v with
                    | JStr ["T"%char] => true
                    | _ => false
                    end) l.

(** [formatDate] applied to the value of a path.  A value that is not a
    string and not falsy has no [includes] or no [split], and the call
    throws; an array has [includes], and goes on to the [Date] constructor,
    which takes the string of the array, if one of its elements is the
    string [T]. *)
Definition formatDate_helper (h : JsDate.host) (v : option json) : option bytes :=
  if negb (truthy v) then
    match v with
    | Some (JArr _) =>          (* the empty array is truthy for [!] *)
        None
    | _ => Some (lit "Present")
    end
  else
    match v with
    | Some (JStr s) => Some (JsDate.formatDate h (Some s))
    | Some (JArr l) =>
        if array_includes_T l then
          match js_string (JArr l) with
          | None => None
          | Some text =>
              match JsDate.DateParse h text with
              | None => Some (lit "Invalid Date")
              | Some tv => Some (JsDate.toLocaleDateString_month_year h tv)
              end
          end
        else None
    | _ => None
    end.

Definition formatYear_helper (h : JsDate.host) (v : option json) : option bytes :=
  if negb (truthy v) then
    match v with
    | Some (JArr _) => None
    | _ => Some []
    end
  else
    match v with
    | Some (JStr s) => Some (JsDate.formatYear h (Some s))
    | Some (JArr l) =>
        if array_includes_T l then
          match js_string (JArr l) with
          | None => None
          | Some text =>
              match JsDate.DateParse h text with
              | None => Some []
              | Some tv => Some (JsDate.decimal (JsDate.getFullYear h tv))
              end
          end
        else None
    | _ => None
    end.

(** [join] without a separator: the strings of the elements joined by a
    comma and a space, and the empty string for anything but an array. *)
Definition join_helper (v : option json) : option bytes :=
  match v with
  | Some (JArr l) => option_map (intercalate (lit ", ")) (all_some (map js_string l))
  | _ => Some []
  end.

Definition helpers (h : JsDate.host) (name : string)
  : option (option json -> option bytes) :=
  if String.eqb name "formatDate" then Some (formatDate_helper h)
  else if String.eqb name "formatYear" then Some (formatYear_helper h)
  else if String.eqb name "join" then Some join_helper
  else None.

(** ** The template

    The parse of the template source, with the lines that hold nothing but
    a block tag left out, as Handlebars does. *)
Definition template : program :=
  [
    Text (lit "<!DOCTYPE html>
<html lang=" ++ dq ++ lit "en" ++ dq ++ lit ">
<head>
  <meta charset=" ++ dq ++ lit "UTF-8" ++ dq ++ lit ">
  <meta name=" ++ dq ++ lit "viewport" ++ dq ++ lit " content=" ++ dq ++ lit "width=device-width, initial-scale=1.0" ++ dq ++ lit ">
  <title>");
    Mustache (Lookup ["basics"; "name"]%string);
    Text (lit " - Resume</title>
  <style>
    @page {
      size: letter;
      margin: 0.5in;
    }
    body {
      font-family: Arial, sans-serif;
      font-size: 11pt;
      line-height: 1.3;
      color: #000;
      margin: 0;
      padding: 0;
      max-width: 7.5in;
      background: white;
    }
    h1 { 
      font-size: 20pt; 
      font-weight: bold;
      margin: 0 0 8px 0; 
      text-align: center;
      color: #000;
    }
    h2 { 
      font-size: 12pt; 
      font-weight: bold;
      margin: 16px 0 8px 0; 
      ");
    Unless ["atsMode"]%string
      [
        Text (lit "text-transform: uppercase;
      border-bottom: 1px solid #000; 
      padding-bottom: 2px;")
      ];
    Text (lit "
      color: #000;
    }
    h3 { 
      font-size: 11pt; 
      font-weight: bold;
      margin: 10px 0 3px 0; 
      color: #000;
    }
    p {
      margin: 3px 0;
    }
    .contact-info { 
      text-align: center;
      margin-bottom: 20px; 
      font-size: 10pt;
    }
    .contact-info span { 
      margin: 0 8px;
      color: #000;
    }
    .work-entry, .education-entry { 
      margin-bottom: 12px; 
    }
    .job-header {
      ");
    Unless ["atsMode"]%string
      [
        Text (lit "display: flex;
      justify-content: space-between;
      align-items: baseline;")
      ];
    Text (lit "
      margin-bottom: 2px;
    }
    .job-title { 
      font-weight: bold; 
      font-size: 11pt;
    }
    .company { 
      font-weight: normal;
      font-style: italic; 
      font-size: 11pt;
      color: #5e5e5e;
    }
    .dates-location { 
      font-size: 10pt;
      color: #000;
      text-align: right;
    }
    .highlights { 
      margin: 5px 0 0 0; 
      padding-left: 16px;
    }
    .highlights li { 
      margin-bottom: 3px; 
      font-size: 10pt;
      line-height: 1.2;
    }
    .skills-section { 
      margin-top: 8px; 
    }
    .skill-category { 
      margin-bottom: 6px; 
      font-size: 10pt;
    }
    .skill-name { 
      font-weight: bold; 
      color: #000;
    }
    .keywords { 
      color: #000; 
      font-weight: normal;
    }
    .education-details {
      font-size: 10pt;
      margin-top: 2px;
    }
  </style>
</head>
<body>
  <header>
    <h1>");
    Mustache (Lookup ["basics"; "name"]%string);
    Text (lit "</h1>
    ");
    If ["basics"; "label"]%string
      [
        Text (lit "<p style=" ++ dq ++ lit "text-align: center; margin: 5px 0 15px 0; font-size: 14pt; font-weight: bold; color: #000;" ++ dq ++ lit ">");
        Mustache (Lookup ["basics"; "label"]%string);
        Text (lit "</p>")
      ];
    Text (lit "
    <div class=" ++ dq ++ lit "contact-info" ++ dq ++ lit ">
      ");
    If ["basics"; "location"; "city"]%string
      [
        Text (lit "<span>");
        Mustache (Lookup ["basics"; "location"; "city"]%string);
        If ["basics"; "location"; "region"]%string
          [
            Text (lit ", ");
            Mustache (Lookup ["basics"; "location"; "region"]%string)
          ];
        Text (lit "</span>")
      ];
    Text (lit "
      ");
    If ["basics"; "email"]%string
      [
        Text (lit "<span><strong>Email:</strong> ");
        Mustache (Lookup ["basics"; "email"]%string);
        Text (lit "</span>")
      ];
    Text (lit "
      ");
    If ["basics"; "phone"]%string
      [
        Text (lit "<span><strong>Phone:</strong> ");
        Mustache (Lookup ["basics"; "phone"]%string);
        Text (lit "</span>")
      ];
    Text (lit "
      ");
    If ["basics"; "url"]%string
      [
        Text (lit "<span>");
        Mustache (Lookup ["basics"; "url"]%string);
        Text (lit "</span>")
      ];
    Text (lit "
    </div>
    ");
    If ["basics"; "summary"]%string
      [
        Text (lit "<p style=" ++ dq ++ lit "text-align: center; margin-bottom: 20px; font-style: italic;" ++ dq ++ lit ">");
        Mustache (Lookup ["basics"; "summary"]%string);
        Text (lit "</p>")
      ];
    Text (lit "
  </header>

");
    If ["work"]%string
      [
        Text (lit "  <section>
    <h2>Work Experience</h2>
");
        Each ["work"]%string
          [
            Text (lit "    <div class=" ++ dq ++ lit "work-entry" ++ dq ++ lit ">
      <div class=" ++ dq ++ lit "job-header" ++ dq ++ lit ">
        <div>
          <div class=" ++ dq ++ lit "job-title" ++ dq ++ lit ">");
            Mustache (Lookup ["position"]%string);
            Text (lit "</div>
          <div class=" ++ dq ++ lit "company" ++ dq ++ lit ">");
            Mustache (Lookup ["name"]%string);
            Text (lit "</div>
        </div>
        <div class=" ++ dq ++ lit "dates-location" ++ dq ++ lit ">
          ");
            Mustache (Call "formatDate" ["startDate"]%string);
            Text (lit " - ");
            Mustache (Call "formatDate" ["endDate"]%string);
            If ["location"]%string
              [
                Text (lit ", ");
                Mustache (Lookup ["location"]%string)
              ];
            Text (lit "
        </div>
      </div>
      ");
            If ["summary"]%string
              [
                Text (lit "<p style=" ++ dq ++ lit "font-size: 10pt; margin: 3px 0;" ++ dq ++ lit ">");
                Mustache (Lookup ["summary"]%string);
                Text (lit "</p>")
              ];
            Text (lit "
");
            If ["highlights"]%string
              [
                Text (lit "      <ul class=" ++ dq ++ lit "highlights" ++ dq ++ lit ">
");
                Each ["highlights"]%string
                  [
                    Text (lit "        <li>");
                    Mustache (Lookup []);
                    Text (lit "</li>
")
                  ];
                Text (lit "      </ul>
")
              ];
            Text (lit "    </div>
")
          ];
        Text (lit "  </section>
")
      ];
    Text (lit "
");
    If ["education"]%string
      [
        Text (lit "  <section>
    <h2>Education</h2>
");
        Each ["education"]%string
          [
            Text (lit "    <div class=" ++ dq ++ lit "education-entry" ++ dq ++ lit ">
      <h3>");
            Mustache (Lookup ["studyType"]%string);
            If ["area"]%string
              [
                Text (lit " - ");
                Mustache (Lookup ["area"]%string)
              ];
            Text (lit "</h3>
      <div class=" ++ dq ++ lit "education-details" ++ dq ++ lit ">");
            Mustache (Lookup ["institution"]%string);
            If ["location"]%string
              [
                Text (lit " • ");
                Mustache (Lookup ["location"]%string)
              ];
            If ["endDate"]%string
              [
                Text (lit " • ");
                Mustache (Call "formatYear" ["endDate"]%string)
              ];
            Text (lit "</div>
      ");
            If ["startDate"]%string
              [
                Text (lit "<p style=" ++ dq ++ lit "font-size: 10pt;" ++ dq ++ lit ">");
                Mustache (Call "formatDate" ["startDate"]%string);
                Text (lit " - ");
                Mustache (Call "formatDate" ["endDate"]%string);
                Text (lit "</p>")
              ];
            Text (lit "
      ");
            If ["gpa"]%string
              [
                Text (lit "<p style=" ++ dq ++ lit "font-size: 10pt;" ++ dq ++ lit ">GPA: ");
                Mustache (Lookup ["gpa"]%string);
                Text (lit "</p>")
              ];
            Text (lit "
    </div>
")
          ];
        Text (lit "  </section>
")
      ];
    Text (lit "
");
    If ["projects"]%string
      [
        Text (lit "  <section>
    <h2>Projects</h2>
");
        Each ["projects"]%string
          [
            Text (lit "    <div class=" ++ dq ++ lit "work-entry" ++ dq ++ lit ">
      <h3>");
            Mustache (Lookup ["name"]%string);
            Text (lit "</h3>
      ");
            If ["startDate"]%string
              [
                Text (lit "<p class=" ++ dq ++ lit "dates" ++ dq ++ lit ">");
                Mustache (Call "formatDate" ["startDate"]%string);
                Text (lit " - ");
                Mustache (Call "formatDate" ["endDate"]%string);
                Text (lit "</p>")
              ];
            Text (lit "
      ");
            If ["description"]%string
              [
                Text (lit "<p style=" ++ dq ++ lit "margin: 8px 0;" ++ dq ++ lit ">");
                Mustache (Lookup ["description"]%string);
                Text (lit "</p>")
              ];
            Text (lit "
");
            If ["highlights"]%string
              [
                Text (lit "      <ul class=" ++ dq ++ lit "highlights" ++ dq ++ lit ">
");
                Each ["highlights"]%string
                  [
                    Text (lit "        <li>");
                    Mustache (Lookup []);
                    Text (lit "</li>
")
                  ];
                Text (lit "      </ul>
")
              ];
            Text (lit "    </div>
")
          ];
        Text (lit "  </section>
")
      ];
    Text (lit "
");
    If ["skills"]%string
      [
        Text (lit "  <section>
    <h2>Skills</h2>
    <div class=" ++ dq ++ lit "skills-section" ++ dq ++ lit ">
");
        Each ["skills"]%string
          [
            Text (lit "      <div class=" ++ dq ++ lit "skill-category" ++ dq ++ lit ">
        <span class=" ++ dq ++ lit "skill-name" ++ dq ++ lit ">");
            Mustache (Lookup ["name"]%string);
            Text (lit ":</span> <span class=" ++ dq ++ lit "keywords" ++ dq ++ lit ">");
            Mustache (Call "join" ["keywords"]%string);
            Text (lit "</span>
      </div>
")
          ];
        Text (lit "    </div>
  </section>
")
      ];
    Text (lit "</body>
</html>")
  ].

(** ** generateHTML *)

(** [options.template || 'ats-optimized']. *)
Definition templateName_of (options : PDFOptions) : string :=
  match template_option options with
  | Some name => if String.eqb name EmptyString then "ats-optimized"%string else name
  | None => "ats-optimized"%string
  end.

(** [{ ...resumeData, atsMode: ..., templateName: ... }]: the two
    properties take precedence over properties of the data with the same
    name.  Data that is not an object has no properties in this model. *)
Definition templateData_of (resumeData : json) (options : PDFOptions) : json :=
  let fields := match resumeData with JObj f => f | _ => [] end in
  JObj (("atsMode"%string, JBool (match atsMode options with Some b => b | None => false end))
        :: ("templateName"%string, JStr (list_ascii_of_string (templateName_of options)))
        :: fields).

(** [generateHTML]: the HTML (or [None] if rendering throws) and the new
    state of the template cache.  [now] and [now'] are the clock readings of
    the cache.  The offline-compatibility check that follows the render in
    the source only writes to the console. *)
Definition generateHTML (h : JsDate.host) (now now' : Z)
    (resumeData : json) (options : PDFOptions) (c : TemplateCache.cache)
  : option bytes * TemplateCache.cache :=
  let templateSource := template in
  let templateName := templateName_of options in
  let cacheKey :=
    if String.eqb templateName "professional" then "professional"%string
    else "default"%string in
  let (compiledTemplate, c') :=
    TemplateCache.getTemplate now now' cacheKey templateSource c in
  let templateData := templateData_of resumeData options in
  (option_map flatten
     (render (helpers h) (TemplateCache.source compiledTemplate) templateData),
   c').

(** The resume of the test suite. *)
Definition sample_resume : json :=
  JObj [("basics"%string,
         JObj [("name"%string, JStr (lit "John Doe"));
               ("email"%string, JStr (lit "john@example.com"))]);
        ("work"%string,
         JArr [JObj [("name"%string, JStr (lit "Acme"));
                     ("position"%string, JStr (lit "Engineer"));
                     ("startDate"%string, JStr (lit "2021-03-15"))]])].

(** ** The renders of a process

    The cache that [generateHTML] uses is the singleton of the process; it
    is reached by the renders made so far (and by [clear], which the tests
    call). *)
Inductive call :=
| Render (h : JsDate.host) (now now' : Z) (resumeData : json) (options : PDFOptions)
| ClearCache.

Definition perform (c : TemplateCache.cache) (op : call) : TemplateCache.cache :=
  match op with
  | Render h now now' resumeData options =>
      snd (generateHTML h now now' resumeData options c)
  | ClearCache => TemplateCache.clear c
  end.

Definition cache_after (calls : list call) : TemplateCache.cache :=
  fold_left perform calls [].

Definition set_template (options : PDFOptions) (name : option string) : PDFOptions :=
  {| output := output options; template_option := name; atsMode := atsMode options;
     dateFormat := dateFormat options; deterministic := deterministic options;
     deterministicConfig := deterministicConfig options |}.

(** Every entry of the cache was compiled from the template. *)
Definition sources_ok (c : TemplateCache.cache) : Prop :=
  forall k e, In (k, e) c ->
    TemplateCache.source (TemplateCache.template e) = template.

Lemma getTemplate_sources now now' key c :
  sources_ok c ->
  TemplateCache.source (fst (TemplateCache.getTemplate now now' key template c))
    = template /\
  sources_ok (snd (TemplateCache.getTemplate now now' key template c)).
Proof.
  intros Hc. unfold TemplateCache.getTemplate.
  assert (Fresh : forall t,
            TemplateCache.source t = template ->
            sources_ok (TemplateCache.cleanupCache now'
              (TemplateCache.map_set key
                 {| TemplateCache.template := t; TemplateCache.compiledAt := now;
                    TemplateCache.lastUsed := now; TemplateCache.useCount := 1 |} c))).
  { intros t Ht k e H. apply TemplateCache.cleanupCache_In in H.
    apply TemplateCache.map_set_In in H. destruct H as [H| ->]; [apply (Hc k e H)|].
    exact Ht. }
  destruct (TemplateCache.map_get key c) as [cached|] eqn:G.
  - pose proof (Hc key cached (TemplateCache.map_get_In _ _ _ G)) as Hs.
    destruct (_ <? _).
    + split; [exact Hs|]. cbn [snd]. intros k e H.
      apply TemplateCache.map_set_In in H. destruct H as [H| ->]; [apply (Hc k e H)|].
      exact Hs.
    + split; [reflexivity|]. apply Fresh. reflexivity.
  - split; [reflexivity|]. apply Fresh. reflexivity.
Qed.

Lemma sources_ok_after calls : sources_ok (cache_after calls).
Proof.
  unfold cache_after.
  assert (G : forall c, sources_ok c -> sources_ok (fold_left perform calls c)).
  { induction calls as [|op calls IH]; intros c Hc; simpl; [exact Hc|].
    apply IH. destruct op as [h now now' data options|]; simpl.
    - unfold generateHTML.
      destruct (getTemplate_sources now now'
                  (if String.eqb (templateName_of options) "professional"
                   then "professional"%string else "default"%string) c Hc) as [_ H].
      destruct (TemplateCache.getTemplate _ _ _ _ _). exact H.
    - intros k e []. }
  apply G. intros k e [].
Qed.

Lemma generateHTML_renders_template h now now' data options c :
  sources_ok c ->
  fst (generateHTML h now now' data options c)
  = option_map flatten (render (helpers h) template (templateData_of data options)).
Proof.
  intros Hc. unfold generateHTML.
  destruct (getTemplate_sources now now'
              (if String.eqb (templateName_of options) "professional"
               then "professional"%string else "default"%string) c Hc) as [H _].
  destruct (TemplateCache.getTemplate _ _ _ _ _) as [t c']. cbn [fst] in *.
  rewrite H. reflexivity.
Qed.

(** ** Renders of valid resumes *)

(** A value that [formatDate] and [formatYear] accept: nothing, or a
    string. *)
Definition date_like (v : option json) : Prop :=
  v = None \/ exists t, v = Some (JStr t).

Definition dated (item : json) : Prop :=
  date_like (lookup_path ["startDate"%string] (Some item)) /\
  date_like (lookup_path ["endDate"%string] (Some item)).

Lemma formatDate_call h v :
  date_like v ->
  exists f s, helpers h "formatDate" = Some f /\ f v = Some s.
Proof.
  intros Hv. exists (formatDate_helper h). cbn.
  destruct Hv as [->|[t ->]]; [eexists; split; reflexivity|].
  destruct t as [|c t]; eexists; split; reflexivity.
Qed.

Lemma formatYear_call h v :
  date_like v ->
  exists f s, helpers h "formatYear" = Some f /\ f v = Some s.
Proof.
  intros Hv. exists (formatYear_helper h). cbn.
  destruct Hv as [->|[t ->]]; [eexists; split; reflexivity|].
  destruct t as [|c t]; eexists; split; reflexivity.
Qed.

Lemma join_call h path ctx :
  printable ctx = true ->
  exists f s, helpers h "join" = Some f /\ f (lookup_path path (Some ctx)) = Some s.
Proof.
  intros Hc. exists join_helper.
  assert (G : exists s, join_helper (lookup_path path (Some ctx)) = Some s).
  { destruct (lookup_path path (Some ctx)) as [x|] eqn:E; [|cbn; eauto].
    assert (Hx : printable x = true).
    { apply (lookup_path_printable path (Some ctx) x); [|exact E].
      intros c [= <-]. exact Hc. }
    destruct x as [| | | |items|fields]; cbn [join_helper]; eauto.
    cbn [printable] in Hx. rewrite forallb_forall in Hx.
    destruct (all_some_total js_string items) as [ys ->]; [|cbn; eauto].
    apply Forall_forall. intros y Hy. apply js_string_printable, Hx, Hy. }
  destruct G as [s G]. exists s. split; [reflexivity | exact G].
Qed.

(** The entries of the sections of a valid resume have dates that are
    strings. *)
Lemma valid_items_dated formats data section item_schema :
  Validator.validateResumeData formats data = true ->
  In (section, Validator.arr item_schema)
     (match Validator.resumeSchema with
      | Validator.Schema _ _ props _ _ _ => props
      end) ->
  (exists req props,
     item_schema = Validator.obj req props /\
     In ("startDate"%string, Validator.str_format "date") props /\
     In ("endDate"%string, Validator.str_format "date") props) ->
  forall item, In item (items_of (property section data)) -> dated item.
Proof.
  intros Hv Hsec (req & props & -> & Hs & He) item Hitem.
  unfold Validator.validateResumeData, Validator.resumeSchema in Hv.
  unfold Validator.resumeSchema in Hsec. cbn [Validator.obj] in Hsec.
  destruct (Validator.validate_obj _ _ _ _ Hv) as (fields & -> & _ & Hprops).
  cbn [property] in Hitem.
  destruct (assoc section fields) as [x|] eqn:Hx; [|destruct Hitem].
  pose proof (Hprops _ _ _ Hsec Hx) as Hx'.
  destruct (Validator.validate_arr _ _ _ Hx') as (l & -> & Hl).
  cbn [items_of] in Hitem. specialize (Hl item Hitem).
  destruct (Validator.validate_obj _ _ _ _ Hl) as (ifields & -> & _ & Hiprops).
  split; cbn [lookup_path property].
  - destruct (assoc "startDate" ifields) as [y|] eqn:Hy; [|left; reflexivity].
    right. destruct (Validator.validate_str_format _ _ _ (Hiprops _ _ _ Hs Hy)) as [t ->].
    eauto.
  - destruct (assoc "endDate" ifields) as [y|] eqn:Hy; [|left; reflexivity].
    right. destruct (Validator.validate_str_format _ _ _ (Hiprops _ _ _ He Hy)) as [t ->].
    eauto.
Qed.

Lemma templateData_section data options k :
  String.eqb "atsMode" k = false -> String.eqb "templateName" k = false ->
  lookup_path [k] (Some (templateData_of data options)) = property k data.
Proof.
  intros H1 H2. unfold templateData_of. cbn [lookup_path property assoc].
  rewrite H1, H2. destruct data; reflexivity.
Qed.

Lemma templateData_printable data options :
  printable data = true -> printable (templateData_of data options) = true.
Proof.
  intros H. unfold templateData_of. destruct data; try reflexivity. exact H.
Qed.

(** A resume that the validator accepts and in which no object has a
    property [toHTML] or [toString] is rendered: every helper call returns
    and every value has a string. *)
Lemma valid_resume_renders h formats data options :
  Validator.validateResumeData formats data = true ->
  printable data = true ->
  exists cs, render (helpers h) template (templateData_of data options) = Some cs.
Proof.
  intros Hv Hprint. apply all_succeed_total.
  apply (templateData_printable data options) in Hprint.
  assert (Hwork : forall item,
            In item (items_of (lookup_path ["work"%string]
                                 (Some (templateData_of data options)))) -> dated item).
  { rewrite templateData_section by reflexivity.
    eapply (valid_items_dated formats data "work"); [exact Hv | |].
    - unfold Validator.resumeSchema, Validator.obj. cbn [In]. right; left. reflexivity.
    - eexists _, _. split; [reflexivity|]. cbn. auto 10. }
  assert (Hedu : forall item,
            In item (items_of (lookup_path ["education"%string]
                                 (Some (templateData_of data options)))) -> dated item).
  { rewrite templateData_section by reflexivity.
    eapply (valid_items_dated formats data "education"); [exact Hv | |].
    - unfold Validator.resumeSchema, Validator.obj. cbn [In]. right; right; left. reflexivity.
    - eexists _, _. split; [reflexivity|]. cbn. auto 10. }
  assert (Hproj : forall item,
            In item (items_of (lookup_path ["projects"%string]
                                 (Some (templateData_of data options)))) -> dated item).
  { rewrite templateData_section by reflexivity.
    eapply (valid_items_dated formats data "projects"); [exact Hv | |].
    - unfold Validator.resumeSchema, Validator.obj. cbn [In]. right; right; right; right; left. reflexivity.
    - eexists _, _. split; [reflexivity|]. cbn. auto 10. }
  revert Hprint Hwork Hedu Hproj. generalize (templateData_of data options).
  intros td Hprint Hwork Hedu Hproj.
  cbv [all_succeed succeeds template].
  repeat match goal with
         | |- True => exact I
         | |- _ /\ _ => split
         | |- forall item, In item (items_of (lookup_path ?p (Some ?c))) -> _ =>
             let x := fresh "item" in
             let H := fresh "Hitem" in
             let P := fresh "Hprint" in
             intros x H;
             assert (P : printable x = true)
               by (apply (items_printable p c x); assumption)
         | |- exists s, display (lookup_path _ (Some _)) = Some s =>
             apply shown_printable; assumption
         | H : In ?item (items_of (lookup_path ["work"%string] (Some td)))
           |- exists f s, helpers h "formatDate" = Some f /\ _ =>
             apply formatDate_call; apply (Hwork item H)
         | H : In ?item (items_of (lookup_path ["education"%string] (Some td)))
           |- exists f s, helpers h "formatDate" = Some f /\ _ =>
             apply formatDate_call; apply (Hedu item H)
         | H : In ?item (items_of (lookup_path ["education"%string] (Some td)))
           |- exists f s, helpers h "formatYear" = Some f /\ _ =>
             apply formatYear_call; apply (Hedu item H)
         | H : In ?item (items_of (lookup_path ["projects"%string] (Some td)))
           |- exists f s, helpers h "formatDate" = Some f /\ _ =>
             apply formatDate_call; apply (Hproj item H)
         | |- exists f s, helpers h "join" = Some f /\ _ => apply join_call; assumption
         end.
Qed.

(** ** The template name *)

Definition names_no_template_name (p : list string) : bool :=
  match p with
  | k :: _ => negb (String.eqb k "templateName")
  | [] => false
  end.

Lemma template_paths : forallb names_no_template_name (flat_map paths_of template) = true.
Proof. vm_compute. reflexivity. Qed.

Lemma templateData_agree data options name1 name2 q :
  names_no_template_name q = true ->
  lookup_path q (Some (templateData_of data (set_template options name1)))
  = lookup_path q (Some (templateData_of data (set_template options name2))).
Proof.
  destruct q as [|k q]; [discriminate|]. cbn [names_no_template_name].
  rewrite negb_true_iff. intros Hk.
  unfold templateData_of. cbn [lookup_path property assoc atsMode set_template].
  destruct (String.eqb "atsMode" k); [reflexivity|].
  rewrite String.eqb_sym in Hk. rewrite Hk. reflexivity.
Qed.

(** C6 (amended).  Whatever renders came before, and for every template
    name given in the options, [generateHTML] gives what it gives when no
    name is given, the same HTML or the same failure, and that is the render
    of the one template there is: an unknown name is no error and changes
    nothing.  On a resume that the validator accepts and in which no object
    has a property [toHTML] or [toString] (the two properties on which the
    escaping of a value throws), the render succeeds, whatever the name. *)
Theorem unknown_template_is_default (calls : list call) (h : JsDate.host)
    (now now' : Z) (resumeData : json) (options : PDFOptions) (name : string) :
  let c := cache_after calls in
  fst (generateHTML h now now' resumeData (set_template options (Some name)) c)
  = fst (generateHTML h now now' resumeData (set_template options None) c) /\
  fst (generateHTML h now now' resumeData (set_template options (Some name)) c)
  = option_map flatten
      (render (helpers h) template
         (templateData_of resumeData (set_template options None))) /\
  (forall formats, Validator.validateResumeData formats resumeData = true ->
     printable resumeData = true ->
     exists html,
       fst (generateHTML h now now' resumeData (set_template options (Some name)) c)
       = Some html).
Proof.
  intros c. pose proof (sources_ok_after calls) as Hc. fold c in Hc.
  rewrite !(generateHTML_renders_template h now now' resumeData _ c Hc).
  assert (E : render (helpers h) template
                (templateData_of resumeData (set_template options (Some name)))
              = render (helpers h) template
                  (templateData_of resumeData (set_template options None))).
  { apply render_agree. intros q Hq. apply templateData_agree.
    pose proof template_paths as H. rewrite forallb_forall in H. apply H, Hq. }
  rewrite E. split; [reflexivity|]. split; [reflexivity|].
  intros formats Hv Hp.
  destruct (valid_resume_renders h formats resumeData (set_template options None) Hv Hp)
    as [cs Hr].
  rewrite Hr. eexists. reflexivity.
Qed.

(** A resume that the validator accepts and that is not rendered,
    whatever the template name: the schema says nothing on the [location]
    of an education entry, and the escaping of an object with a truthy
    [toHTML] calls it, which throws a TypeError. *)
Definition resume_with_toHTML : json :=
  JObj [("basics"%string,
         JObj [("name"%string, JStr (lit "John Doe"));
               ("email"%string, JStr (lit "john@example.com"))]);
        ("work"%string, JArr []);
        ("education"%string,
         JArr [JObj [("institution"%string, JStr (lit "MIT"));
                     ("location"%string, JObj [("toHTML"%string, JBool true)])]])].

Lemma render_fails_with_any_name :
  Validator.validateResumeData (fun _ _ => true) resume_with_toHTML = true /\
  fst (generateHTML JsDate.utc_host 0 0 resume_with_toHTML (with_template "modern") [])
  = None /\
  fst (generateHTML JsDate.utc_host 0 0 resume_with_toHTML no_options []) = None.
Proof. vm_compute. repeat split. Qed.

(** ** Sections that are absent *)

Definition only_path (k : string) (p : list string) : bool :=
  match p with
  | [k'] => String.eqb k' k
  | _ => false
  end.

Definition Education_heading : bytes := lit "<h2>Education</h2>".
Definition Projects_heading : bytes := lit "<h2>Projects</h2>".
Definition Skills_heading : bytes := lit "<h2>Skills</h2>".
Definition education_entry : bytes := lit "<div class=" ++ dq ++ lit "education-entry" ++ dq.
Definition skills_block : bytes := lit "<div class=" ++ dq ++ lit "skills-section" ++ dq.

Lemma absent_section_falsy data options k :
  String.eqb "atsMode" k = false -> String.eqb "templateName" k = false ->
  property k data = None ->
  forall p, only_path k p = true ->
  truthy (lookup_path p (Some (templateData_of data options))) = false.
Proof.
  intros H1 H2 Hk p Hp. destruct p as [|k' [|? ?]]; try discriminate.
  cbn [only_path] in Hp. apply String.eqb_eq in Hp. subst k'.
  unfold templateData_of. cbn [lookup_path property assoc]. rewrite H1, H2.
  destruct data; cbn in Hk |- *; try reflexivity. rewrite Hk. reflexivity.
Qed.

Lemma absent_section_silent h data options k needle cs :
  String.eqb "atsMode" k = false -> String.eqb "templateName" k = false ->
  property k data = None ->
  forallb (clear_of ("<"%char :: needle))
          (flat_map (texts_without (only_path k)) template) = true ->
  render (helpers h) template (templateData_of data options) = Some cs ->
  ~ occurs ("<"%char :: needle) (flatten cs).
Proof.
  intros H1 H2 Hk Hclear Hr. apply no_occurrence. intros c Hc.
  pose proof (render_made_of_without (helpers h) (only_path k)
                (templateData_of data options) template cs
                (absent_section_falsy data options k H1 H2 Hk) Hr c Hc) as Hm.
  destruct c as [s|d]; simpl in Hm.
  - rewrite forallb_forall in Hclear. apply Hclear, Hm.
  - apply escaped_no_lt, Hm.
Qed.

(** Whether a section is there for the template: the [#if] around its
    block holds. *)
Definition present (k : string) (resumeData : json) : bool :=
  truthy (property k resumeData).

(** The sections of the template that are there. *)
Definition sections_present (resumeData : json) : nat :=
  (Nat.b2n (present "work" resumeData) + Nat.b2n (present "education" resumeData)
   + Nat.b2n (present "projects" resumeData) + Nat.b2n (present "skills" resumeData))%nat.

Definition Work_heading : bytes := lit "<h2>Work Experience</h2>".

(** The tags of the template that are counted below are whole in its
    texts, and none is in a block that is repeated. *)
Lemma template_regular :
  forallb (fun rest => forallb (regular rest) template)
    [lit "section"; lit "/section>"; lit "h2"; tl Work_heading; tl Education_heading;
     tl Projects_heading; tl Skills_heading] = true.
Proof. vm_compute. reflexivity. Qed.

(** The section tags and the headings that the template writes, by the
    conditions that hold. *)
Lemma template_weight (t : list string -> bool) :
  let sections :=
    (Nat.b2n (t ["work"%string]) + Nat.b2n (t ["education"%string])
     + Nat.b2n (t ["projects"%string]) + Nat.b2n (t ["skills"%string]))%nat in
  list_sum (map (weight (lit "section") t) template) = sections /\
  list_sum (map (weight (lit "/section>") t) template) = sections /\
  list_sum (map (weight (lit "h2") t) template) = sections /\
  list_sum (map (weight (tl Work_heading) t) template) = Nat.b2n (t ["work"%string]) /\
  list_sum (map (weight (tl Education_heading) t) template)
  = Nat.b2n (t ["education"%string]) /\
  list_sum (map (weight (tl Projects_heading) t) template)
  = Nat.b2n (t ["projects"%string]) /\
  list_sum (map (weight (tl Skills_heading) t) template) = Nat.b2n (t ["skills"%string]).
Proof.
  vm_compute.
  destruct (t ["work"%string]), (t ["education"%string]), (t ["projects"%string]),
    (t ["skills"%string]); repeat split.
Qed.

Lemma section_present data options k :
  String.eqb "atsMode" k = false -> String.eqb "templateName" k = false ->
  truthy (lookup_path [k] (Some (templateData_of data options))) = present k data.
Proof.
  intros H1 H2. unfold present. rewrite templateData_section by assumption. reflexivity.
Qed.

(** C7.  Whatever renders came before, the HTML that [generateHTML]
    returns has one section block, with its opening tag, its closing tag and
    its heading, for each of the sections work, education, projects and
    skills that is there, and no other section block and no other heading:
    the heading of a section is in the HTML once if the section is there
    (its value is truthy) and not at all if it is absent.  For a resume
    without [education] there is no Education heading and no education
    entry; without [projects], no Projects heading; without [skills], no
    Skills heading and no skills block. *)
Theorem absent_sections_leave_nothing (calls : list call) (h : JsDate.host)
    (now now' : Z) (resumeData : json) (options : PDFOptions) (html : bytes) :
  fst (generateHTML h now now' resumeData options (cache_after calls)) = Some html ->
  (count (lit "<section") html = sections_present resumeData /\
   count (lit "</section>") html = sections_present resumeData /\
   count (lit "<h2") html = sections_present resumeData /\
   count Work_heading html = Nat.b2n (present "work" resumeData) /\
   count Education_heading html = Nat.b2n (present "education" resumeData) /\
   count Projects_heading html = Nat.b2n (present "projects" resumeData) /\
   count Skills_heading html = Nat.b2n (present "skills" resumeData)) /\
  (property "education" resumeData = None ->
     ~ occurs Education_heading html /\ ~ occurs education_entry html) /\
  (property "projects" resumeData = None -> ~ occurs Projects_heading html) /\
  (property "skills" resumeData = None ->
     ~ occurs Skills_heading html /\ ~ occurs skills_block html).
Proof.
  rewrite (generateHTML_renders_template h now now' resumeData options _
             (sources_ok_after calls)).
  destruct (render (helpers h) template (templateData_of resumeData options))
    as [cs|] eqn:Hr; [|discriminate].
  intros [= <-]. split.
  - pose proof template_regular as R. cbn [forallb] in R.
    repeat (apply andb_true_iff in R; let R1 := fresh "R" in destruct R as [R1 R]).
    destruct (template_weight
                (fun q => truthy (lookup_path q (Some (templateData_of resumeData options)))))
      as (W1 & W2 & W3 & W4 & W5 & W6 & W7).
    cbv beta zeta in W1, W2, W3, W4, W5, W6, W7.
    pose proof (section_present resumeData options "work" eq_refl eq_refl) as Pw.
    pose proof (section_present resumeData options "education" eq_refl eq_refl) as Pe.
    pose proof (section_present resumeData options "projects" eq_refl eq_refl) as Pp.
    pose proof (section_present resumeData options "skills" eq_refl eq_refl) as Ps.
    rewrite Pw, Pe, Pp, Ps in W1. rewrite Pw, Pe, Pp, Ps in W2.
    rewrite Pw, Pe, Pp, Ps in W3. rewrite Pw in W4. rewrite Pe in W5.
    rewrite Pp in W6. rewrite Ps in W7.
    fold (sections_present resumeData) in W1, W2, W3.
    repeat split.
    + rewrite <- W1. apply (count_render (helpers h) (lit "section")); assumption.
    + rewrite <- W2. apply (count_render (helpers h) (lit "/section>")); assumption.
    + rewrite <- W3. apply (count_render (helpers h) (lit "h2")); assumption.
    + rewrite <- W4. apply (count_render (helpers h) (tl Work_heading)); assumption.
    + rewrite <- W5. apply (count_render (helpers h) (tl Education_heading)); assumption.
    + rewrite <- W6. apply (count_render (helpers h) (tl Projects_heading)); assumption.
    + rewrite <- W7. apply (count_render (helpers h) (tl Skills_heading)); assumption.
  - assert (G : forall k needle,
              String.eqb "atsMode" k = false -> String.eqb "templateName" k = false ->
              forallb (clear_of ("<"%char :: needle))
                      (flat_map (texts_without (only_path k)) template) = true ->
              property k resumeData = None ->
              ~ occurs ("<"%char :: needle) (flatten cs)).
    { intros k needle H1 H2 Hclear Hk.
      exact (absent_section_silent h resumeData options k needle cs H1 H2 Hk Hclear Hr). }
    split; [|split]; intros Hk; repeat split.
    + apply (G "education"%string (tl Education_heading)); auto; vm_compute; reflexivity.
    + apply (G "education"%string (tl education_entry)); auto; vm_compute; reflexivity.
    + apply (G "projects"%string (tl Projects_heading)); auto; vm_compute; reflexivity.
    + apply (G "skills"%string (tl Skills_heading)); auto; vm_compute; reflexivity.
    + apply (G "skills"%string (tl skills_block)); auto; vm_compute; reflexivity.
Qed.

(** The resume of the test suite has work entries and no other section:
    its HTML has one section block and one heading. *)
Lemma absent_sections_leave_nothing_witness :
  exists html,
    fst (generateHTML JsDate.utc_host 0 0 sample_resume no_options []) = Some html /\
    count (lit "<section") html = 1%nat /\ count (lit "<h2") html = 1%nat /\
    count Work_heading html = 1%nat /\
    ~ occurs Education_heading html /\ ~ occurs Projects_heading html /\
    ~ occurs Skills_heading html.
Proof.
  destruct (fst (generateHTML JsDate.utc_host 0 0 sample_resume no_options []))
    as [html|] eqn:E; [|vm_compute in E; discriminate].
  exists html. split; [reflexivity|].
  destruct (absent_sections_leave_nothing [] JsDate.utc_host 0 0 sample_resume
              no_options html E) as ((C1 & _ & C3 & C4 & _) & H1 & H2 & H3).
  split; [exact C1|]. split; [exact C3|]. split; [exact C4|].
  split; [apply H1; reflexivity|]. split; [apply H2; reflexivity|].
  apply H3; reflexivity.
Defined.

(** ** Markup comes from the template only *)

(** Tags that the template does not use. *)
Definition foreign_tags : list bytes :=
  map lit ["<script"; "<iframe"; "<img"; "<object"; "<embed"; "<link"; "<a ";
           "<form"; "<svg"; "<base"; "<input"; "<video"; "<audio"]%string.


Definition hostile_resume : json :=
  JObj [("basics"%string,
         JObj [("name"%string, JStr (lit "<script>alert(1)</script>"));
               ("email"%string, JStr (lit "a@b.c"))]);
        ("work"%string, JArr [])].


(** ** The cache of the HTML generator *)

(** [generateHTML] uses two keys only, so that its cache never holds more
    than two compiled templates, and [cleanupCache] never takes an entry
    out of it. *)
Theorem html_cache_two_keys (calls : list call) :
  let c := cache_after calls in
  NoDup (TemplateCache.keys c) /\
  incl (TemplateCache.keys c) ["default"; "professional"]%string /\
  (TemplateCache.map_size c <= 2)%Z /\
  forall now, TemplateCache.cleanupCache now c = c.
Proof.
  intros c.
  assert (Inv : NoDup (TemplateCache.keys c) /\
                incl (TemplateCache.keys c) ["default"; "professional"]%string).
  { unfold c, cache_after.
    assert (G : forall c0,
              NoDup (TemplateCache.keys c0) /\
              incl (TemplateCache.keys c0) ["default"; "professional"]%string ->
              NoDup (TemplateCache.keys (fold_left perform calls c0)) /\
              incl (TemplateCache.keys (fold_left perform calls c0))
                   ["default"; "professional"]%string).
    { induction calls as [|op calls IH]; intros c0 Hc0; simpl; [exact Hc0|].
      apply IH. destruct op as [h now now' data options|]; simpl.
      - unfold generateHTML.
        set (key := if String.eqb (templateName_of options) "professional"
                    then "professional"%string else "default"%string).
        destruct (TemplateCache.getTemplate now now' key template c0) as [t c1] eqn:E.
        cbn [snd].
        assert (E1 : c1 = snd (TemplateCache.getTemplate now now' key template c0))
          by (rewrite E; reflexivity).
        assert (Hkey : In key ["default"; "professional"]%string).
        { unfold key. destruct (String.eqb _ _); simpl; auto. }
        assert (Hset : forall e,
                  NoDup (TemplateCache.keys (TemplateCache.map_set key e c0)) /\
                  incl (TemplateCache.keys (TemplateCache.map_set key e c0))
                       ["default"; "professional"]%string).
        { intros e. split; [apply TemplateCache.map_set_NoDup, Hc0|].
          rewrite TemplateCache.map_set_keys.
          destruct (in_dec string_dec key (TemplateCache.keys c0)); [apply Hc0|].
          intros a Ha. apply in_app_or in Ha. destruct Ha as [Ha|[<-|[]]];
            [apply Hc0, Ha | exact Hkey]. }
        assert (Hclean : forall e now0,
                  NoDup (TemplateCache.keys
                           (TemplateCache.cleanupCache now0 (TemplateCache.map_set key e c0))) /\
                  incl (TemplateCache.keys
                          (TemplateCache.cleanupCache now0 (TemplateCache.map_set key e c0)))
                       ["default"; "professional"]%string).
        { intros e now0. destruct (Hset e) as [Hn Hi].
          split; [apply TemplateCache.cleanupCache_size, Hn|].
          intros a Ha. unfold TemplateCache.keys in Ha. apply in_map_iff in Ha.
          destruct Ha as ([k x] & <- & Hx). apply TemplateCache.cleanupCache_In in Hx.
          apply Hi. unfold TemplateCache.keys. apply in_map_iff. exists (k, x). auto. }
        rewrite E1. unfold TemplateCache.getTemplate.
        destruct (TemplateCache.map_get key c0) as [cached|]; [|apply Hclean].
        destruct (_ <? _)%Z; [apply Hset | apply Hclean].
      - split; [constructor | intros a []]. }
    apply G. split; [constructor | intros a []]. }
  destruct Inv as [Hn Hi]. split; [exact Hn|]. split; [exact Hi|].
  assert (Hs : (TemplateCache.map_size c <= 2)%Z).
  { unfold TemplateCache.map_size. rewrite <- (length_map fst).
    fold (TemplateCache.keys c).
    pose proof (NoDup_incl_length Hn Hi) as H. simpl in H. lia. }
  split; [exact Hs|].
  intros now. apply TemplateCache.cleanupCache_small. unfold TemplateCache.MAX_CACHE_SIZE. lia.
Qed.

End HtmlGenerator.

(* ===================================================================== *)
(** * The browser pool (src/utils/browser-pool.ts)                       *)
(* ===================================================================== *)

Module BrowserPool.

Open Scope Z_scope.

Inductive error :=
| PoolShuttingDown      (* 'Browser pool is shutting down' *)
| ContextNotAvailable   (* 'Browser context not available' *)
| BrowserNotAvailable   (* 'Browser not available' *)
| TargetClosed.         (* Playwright: target page, context or browser has been closed *)

Inductive result (A : Type) :=
| Ok (a : A)
| Err (e : error).
Arguments Ok {A} a.
Arguments Err {A} e.

(** ** The browser side

    What Playwright and the browser processes do, as far as the pool can
    observe it: browsers with a live process, open contexts (each owned by a
    browser) and open pages (each owned by a context).  A context whose
    browser is gone is closed with it.  In this model a launch succeeds, and
    closing something already closed does nothing and does not fail. *)
Record page_state := {
  page_id : nat;
  page_context : nat;
  viewport : option (Z * Z);
  routed : bool
}.

Record world := {
  next_id : nat;
  live_browsers : list nat;
  open_contexts : list (nat * nat);
  open_pages : list page_state
}.

Definition isConnected (w : world) (b : nat) : bool :=
  existsb (Nat.eqb b) (live_browsers w).

Definition context_open (w : world) (c : nat) : bool :=
  existsb (fun cb => Nat.eqb (fst cb) c) (open_contexts w).

Definition context_owner (w : world) (c : nat) : option nat :=
  option_map snd (find (fun cb => Nat.eqb (fst cb) c) (open_contexts w)).

Definition launch (w : world) : nat * world :=
  (next_id w,
   {| next_id := S (next_id w);
      live_browsers := next_id w :: live_browsers w;
      open_contexts := open_contexts w;
      open_pages := open_pages w |}).

Definition newContext (w : world) (b : nat) : result (nat * world) :=
  if isConnected w b then
    Ok (next_id w,
        {| next_id := S (next_id w);
           live_browsers := live_browsers w;
           open_contexts := (next_id w, b) :: open_contexts w;
           open_pages := open_pages w |})
  else Err TargetClosed.

Definition newPage (w : world) (c : nat) : result (nat * world) :=
  if context_open w c then
    Ok (next_id w,
        {| next_id := S (next_id w);
           live_browsers := live_browsers w;
           open_contexts := open_contexts w;
           open_pages := {| page_id := next_id w; page_context := c;
                            viewport := None; routed := false |} :: open_pages w |})
  else Err TargetClosed.

Definition configure_page (w : world) (pg : nat) (size : Z * Z) : world :=
  {| next_id := next_id w;
     live_browsers := live_browsers w;
     open_contexts := open_contexts w;
     open_pages :=
       map (fun s => if Nat.eqb (page_id s) pg
                     then {| page_id := page_id s; page_context := page_context s;
                             viewport := Some size; routed := true |}
                     else s) (open_pages w) |}.

Definition close_context (w : world) (c : nat) : world :=
  {| next_id := next_id w;
     live_browsers := live_browsers w;
     open_contexts := filter (fun cb => negb (Nat.eqb (fst cb) c)) (open_contexts w);
     open_pages := filter (fun s => negb (Nat.eqb (page_context s) c)) (open_pages w) |}.

(** The end of a browser, by [browser.close()] or because its process
    died: its contexts and their pages go with it. *)
Definition end_browser (w : world) (b : nat) : world :=
  let gone := map fst (filter (fun cb => Nat.eqb (snd cb) b) (open_contexts w)) in
  {| next_id := next_id w;
     live_browsers := filter (fun x => negb (Nat.eqb x b)) (live_browsers w);
     open_contexts := filter (fun cb => negb (Nat.eqb (snd cb) b)) (open_contexts w);
     open_pages :=
       filter (fun s => negb (existsb (Nat.eqb (page_context s)) gone)) (open_pages w) |}.

Definition close_browser := end_browser.
Definition kill_browser := end_browser.

Definition empty_world : world :=
  {| next_id := O; live_browsers := []; open_contexts := []; open_pages := [] |}.

(** ** The pool *)
Record pool := {
  browser : option nat;
  context : option nat;
  isShuttingDown : bool;
  lastUsed : Z;
  idleTimer : option Z      (* when the pending idle timer fires *)
}.

Definition IDLE_TIMEOUT : Z := 10000.

Definition new_pool (now : Z) : pool :=
  {| browser := None; context := None; isShuttingDown := false;
     lastUsed := now; idleTimer := None |}.

Definition state := (world * pool)%type.

(** Methods change the state and return or throw; what was changed before
    a throw stays changed. *)
Definition M (A : Type) := state -> result A * state.

Definition ret {A} (a : A) : M A := fun s => (Ok a, s).
Definition throw {A} (e : error) : M A := fun s => (Err e, s).
Definition bind {A B} (m : M A) (k : A -> M B) : M B :=
  fun s => match m s with
           | (Ok a, s') => k a s'
           | (Err e, s') => (Err e, s')
           end.
Definition get_pool : M pool := fun s => (Ok (snd s), s).
Definition get_world : M world := fun s => (Ok (fst s), s).
Definition set_pool (p : pool) : M unit := fun s => (Ok tt, (fst s, p)).
Definition set_world (w : world) : M unit := fun s => (Ok tt, (w, snd s)).

Notation "x <- m ;; k" := (bind m (fun x => k))
  (at level 61, m at next level, right associativity).
Notation "m ;;; k" := (bind m (fun _ => k))
  (at level 61, right associativity).

Definition with_browser (p : pool) (b : option nat) : pool :=
  {| browser := b; context := context p; isShuttingDown := isShuttingDown p;
     lastUsed := lastUsed p; idleTimer := idleTimer p |}.
Definition with_context (p : pool) (c : option nat) : pool :=
  {| browser := browser p; context := c; isShuttingDown := isShuttingDown p;
     lastUsed := lastUsed p; idleTimer := idleTimer p |}.
Definition with_flag (p : pool) (f : bool) : pool :=
  {| browser := browser p; context := context p; isShuttingDown := f;
     lastUsed := lastUsed p; idleTimer := idleTimer p |}.
Definition with_lastUsed (p : pool) (t : Z) : pool :=
  {| browser := browser p; context := context p; isShuttingDown := isShuttingDown p;
     lastUsed := t; idleTimer := idleTimer p |}.
Definition with_timer (p : pool) (t : option Z) : pool :=
  {| browser := browser p; context := context p; isShuttingDown := isShuttingDown p;
     lastUsed := lastUsed p; idleTimer := t |}.

Definition createBrowser : M unit :=
  w <- get_world ;; p <- get_pool ;;
  let (b, w') := launch w in
  set_world w' ;;; set_pool (with_browser p (Some b)).

Definition createContext : M unit :=
  w <- get_world ;; p <- get_pool ;;
  match browser p with
  | None => throw BrowserNotAvailable
  | Some b =>
      match newContext w b with
      | Ok (c, w') => set_world w' ;;; set_pool (with_context p (Some c))
      | Err e => throw e
      end
  end.

Definition ensureBrowser : M unit :=
  w <- get_world ;; p <- get_pool ;;
  (match browser p with
   | Some b => if isConnected w b then ret tt else createBrowser
   | None => createBrowser
   end) ;;;
  p' <- get_pool ;;
  match context p' with
  | Some _ => ret tt
  | None => createContext
  end.

Definition resetIdleTimer (now : Z) : M unit :=
  p <- get_pool ;; set_pool (with_timer p (Some (now + IDLE_TIMEOUT))).

Definition getBrowserPage (now : Z) : M nat :=
  p <- get_pool ;;
  if isShuttingDown p then throw PoolShuttingDown
  else
    ensureBrowser ;;;
    p1 <- get_pool ;; set_pool (with_lastUsed p1 now) ;;;
    resetIdleTimer now ;;;
    p2 <- get_pool ;;
    match context p2 with
    | None => throw ContextNotAvailable
    | Some c =>
        w <- get_world ;;
        match newPage w c with
        | Err e => throw e
        | Ok (pg, w') =>
            set_world (configure_page w' pg (794, 1123)) ;;; ret pg
        end
    end.

Definition close_page (w : world) (pg : nat) : world :=
  {| next_id := next_id w;
     live_browsers := live_browsers w;
     open_contexts := open_contexts w;
     open_pages := filter (fun s => negb (Nat.eqb (page_id s) pg)) (open_pages w) |}.

(** [releasePage]: the page is emptied and closed; what that throws is
    logged and does not reach the caller. *)
Definition releasePage (pg : nat) : M unit :=
  w <- get_world ;; set_world (close_page w pg).

(** [shutdown] runs up to each [await] and is resumed after it; another
    call can run in between.  The three segments: up to the context's
    [close()], from there up to the browser's [close()], and the rest.
    An awaited [close()] resolves, and the statement after it clears the
    field, or rejects, and the catch block logs the error and leaves the
    field as it is. *)
Inductive settled :=
| Resolved
| Rejected.

Inductive shutdown_pc :=
| AwaitContextClose
| AwaitBrowserClose
| Finished.

Definition shutdown_finish (s : state) : shutdown_pc * state :=
  (Finished, (fst s, with_flag (snd s) false)).

Definition shutdown_browser_part (s : state) : shutdown_pc * state :=
  match browser (snd s) with
  | Some b => (AwaitBrowserClose, s)
  | None => shutdown_finish s
  end.

Definition shutdown_start (s : state) : shutdown_pc * state :=
  let (w, p) := s in
  if isShuttingDown p then (Finished, s)
  else
    let p1 := with_timer (with_flag p true) None in
    match context p1 with
    | Some c => (AwaitContextClose, (w, p1))
    | None => shutdown_browser_part (w, p1)
    end.

Definition shutdown_resume (pc : shutdown_pc) (r : settled) (s : state)
  : shutdown_pc * state :=
  match pc, r with
  | AwaitContextClose, Resolved =>
      let w := match context (snd s) with
               | Some c => close_context (fst s) c
               | None => fst s
               end in
      shutdown_browser_part (w, with_context (snd s) None)
  | AwaitContextClose, Rejected => shutdown_browser_part s
  | AwaitBrowserClose, Resolved =>
      let w := match browser (snd s) with
               | Some b => close_browser (fst s) b
               | None => fst s
               end in
      shutdown_finish (w, with_browser (snd s) None)
  | AwaitBrowserClose, Rejected => shutdown_finish s
  | Finished, _ => (Finished, s)
  end.

(** [shutdown] left to run to its end with nothing in between; [r1] and
    [r2] tell how the closes it awaits settle. *)
Definition shutdown (r1 r2 : settled) (s : state) : state :=
  let (pc1, s1) := shutdown_start s in
  let (pc2, s2) := shutdown_resume pc1 r1 s1 in
  let (pc3, s3) := shutdown_resume pc2 r2 s2 in
  s3.

Definition initial_state : state := (empty_world, new_pool 0).

(** ** Runs of the pool

    What can happen to the singleton pool: a caller acquires a page (taken
    as one step), a browser process dies, [shutdown] is called (by the idle
    timer, a signal handler or a caller), and a suspended [shutdown] is
    resumed when the [close()] it awaits has settled.  At most one
    [shutdown] call is past its early return at any time; [pending] tells
    where it is suspended. *)
Inductive event :=
| Acquire (now : Z)
| ProcessDies (b : nat)
| CallShutdown
| ResumeShutdown (r : settled).

Definition sys := (option shutdown_pc * state)%type.

Definition suspended (pc : shutdown_pc) : option shutdown_pc :=
  match pc with
  | Finished => None
  | _ => Some pc
  end.

Definition advance (x : sys) (e : event) : sys :=
  let (pending, s) := x in
  match e with
  | Acquire now => (pending, snd (getBrowserPage now s))
  | ProcessDies b => (pending, (kill_browser (fst s) b, snd s))
  | CallShutdown =>
      match pending with
      | None => let (pc, s') := shutdown_start s in (suspended pc, s')
      | Some pc => (pending, snd (shutdown_start s))
      end
  | ResumeShutdown r =>
      match pending with
      | None => x
      | Some pc => let (pc', s') := shutdown_resume pc r s in (suspended pc', s')
      end
  end.

Definition run (events : list event) : sys := fold_left advance events (None, initial_state).

(** ** Acquisition after the browser process died *)

Example first_acquisition :
  fst (getBrowserPage 100 initial_state) = Ok 2%nat.
Proof. reflexivity. Qed.

(** C4 fails on the code.  After a first acquisition the browser process
    dies.  The next acquisition launches a new browser but keeps the context
    of the dead one, since [ensureBrowser] creates a context only when there
    is none; [newPage] on that context throws, and the caller gets the
    error. *)
Lemma dead_browser_not_recovered :
  let s1 := snd (getBrowserPage 100 initial_state) in
  let s2 := (kill_browser (fst s1) 0%nat, snd s1) in
  browser (snd s1) = Some 0%nat /\ context (snd s1) = Some 1%nat /\
  isConnected (fst s2) 0%nat = false /\ isShuttingDown (snd s2) = false /\
  fst (getBrowserPage 200 s2) = Err TargetClosed /\
  browser (snd (snd (getBrowserPage 200 s2))) = Some 3%nat /\
  context (snd (snd (getBrowserPage 200 s2))) = Some 1%nat /\
  context_open (fst (snd (getBrowserPage 200 s2))) 1%nat = false.
Proof. repeat split. Qed.

(** The same in general: whenever the pool holds a context that is closed
    (as the context of a dead browser is), acquisition fails and the
    context stays. *)
Lemma ensureBrowser_keeps_context (w : world) (p : pool) (c : nat) :
  context p = Some c ->
  exists w1 p1,
    ensureBrowser (w, p) = (Ok tt, (w1, p1)) /\ context p1 = Some c /\
    open_contexts w1 = open_contexts w /\ isShuttingDown p1 = isShuttingDown p.
Proof.
  intros Hc. unfold ensureBrowser, bind, get_pool, get_world. cbn [snd fst].
  destruct (browser p) as [b|] eqn:Hb; [destruct (isConnected w b) eqn:Hconn|].
  - unfold ret. cbn [snd fst]. rewrite Hc. exists w, p. auto.
  - unfold createBrowser, bind, get_pool, get_world, set_world, set_pool, launch, ret.
    cbn [snd fst with_browser context]. rewrite Hc.
    eexists _, _. split; [reflexivity|]. cbn. auto.
  - unfold createBrowser, bind, get_pool, get_world, set_world, set_pool, launch, ret.
    cbn [snd fst with_browser context]. rewrite Hc.
    eexists _, _. split; [reflexivity|]. cbn. auto.
Qed.

Lemma stale_context_kept (w : world) (p : pool) (c : nat) (now : Z) :
  isShuttingDown p = false ->
  context p = Some c ->
  context_open w c = false ->
  fst (getBrowserPage now (w, p)) = Err TargetClosed /\
  context (snd (snd (getBrowserPage now (w, p)))) = Some c.
Proof.
  intros Hf Hc Ho.
  destruct (ensureBrowser_keeps_context w p c Hc) as (w1 & p1 & E & Hc1 & Hw1 & _).
  assert (Ho1 : context_open w1 c = false).
  { unfold context_open in *. rewrite Hw1. exact Ho. }
  unfold getBrowserPage, bind, get_pool. cbn [snd fst]. rewrite Hf, E.
  cbv [set_pool resetIdleTimer bind get_pool get_world throw snd fst
       with_lastUsed with_timer].
  cbn [context]. rewrite Hc1.
  unfold newPage. rewrite Ho1. cbn [snd fst context]. auto.
Qed.

Lemma stale_context_kept_witness :
  let s1 := snd (getBrowserPage 100 initial_state) in
  let w2 := kill_browser (fst s1) 0%nat in
  fst (getBrowserPage 200 (w2, snd s1)) = Err TargetClosed /\
  context (snd (snd (getBrowserPage 200 (w2, snd s1)))) = Some 1%nat.
Proof.
  intros s1 w2.
  apply (stale_context_kept w2 (snd s1) 1%nat 200); reflexivity.
Defined.

(** ** Shutdown *)

Lemma getBrowserPage_rejected now s :
  isShuttingDown (snd s) = true ->
  getBrowserPage now s = (Err PoolShuttingDown, s).
Proof.
  intros H. unfold getBrowserPage, bind, get_pool. rewrite H. reflexivity.
Qed.

Ltac run_acquisition :=
  unfold getBrowserPage, ensureBrowser, createBrowser, createContext, resetIdleTimer;
  cbv [bind get_pool get_world set_pool set_world ret throw launch newContext newPage
       with_browser with_context with_flag with_lastUsed with_timer
       snd fst browser context isShuttingDown];
  repeat match goal with
         | |- context [if ?x then _ else _] => destruct x
         end.

Lemma getBrowserPage_flag now s :
  isShuttingDown (snd (snd (getBrowserPage now s))) = isShuttingDown (snd s).
Proof.
  destruct s as [w [[b|] [c|] [|] l t]]; run_acquisition; reflexivity.
Qed.

Lemma getBrowserPage_not_rejected now s :
  isShuttingDown (snd s) = false ->
  fst (getBrowserPage now s) <> Err PoolShuttingDown.
Proof.
  destruct s as [w [[b|] [c|] [|] l t]]; cbn [snd isShuttingDown]; intros Hf;
    try discriminate; run_acquisition; discriminate.
Qed.

(** Acquisition from a pool that holds neither browser nor context. *)
Lemma acquire_from_nothing (w : world) (l : Z) (t : option Z) (now : Z) :
  let p := {| browser := None; context := None; isShuttingDown := false;
              lastUsed := l; idleTimer := t |} in
  exists s'',
    getBrowserPage now (w, p) = (Ok (S (S (next_id w))), s'') /\
    browser (snd s'') = Some (next_id w) /\
    context (snd s'') = Some (S (next_id w)) /\
    isConnected (fst s'') (next_id w) = true /\
    context_owner (fst s'') (S (next_id w)) = Some (next_id w).
Proof.
  intros p. unfold p.
  unfold getBrowserPage, ensureBrowser, createBrowser, createContext, resetIdleTimer.
  cbv [bind get_pool get_world set_pool set_world ret throw launch newContext newPage
       with_browser with_context with_flag with_lastUsed with_timer
       snd fst browser context isShuttingDown isConnected context_open
       live_browsers open_contexts next_id existsb].
  rewrite !Nat.eqb_refl. cbv [orb]. rewrite !Nat.eqb_refl. cbv [orb].
  eexists. split; [reflexivity|].
  cbv [snd fst browser context isConnected context_owner configure_page
       live_browsers open_contexts existsb find option_map].
  rewrite !Nat.eqb_refl. auto.
Qed.

(** The step that ends a [shutdown] call: the call itself, when there is
    nothing to close, or the resumption after the last [close()]. *)
Definition completes (pending : option shutdown_pc) (r : settled) (s s' : state) : Prop :=
  match pending with
  | None => shutdown_start s = (Finished, s')
  | Some pc => shutdown_resume pc r s = (Finished, s')
  end.

(** The flag is set exactly while a [shutdown] call is suspended. *)
Definition sys_inv (x : sys) : Prop :=
  (isShuttingDown (snd (snd x)) = true <-> fst x <> None) /\
  fst x <> Some Finished.

Lemma flag_of_pending pending p :
  (isShuttingDown p = true <-> pending <> (None : option shutdown_pc)) ->
  isShuttingDown p = match pending with Some _ => true | None => false end.
Proof.
  intros H. destruct pending as [pc|].
  - apply H. discriminate.
  - destruct (isShuttingDown p); [|reflexivity]. exfalso. apply H; reflexivity.
Qed.

Lemma sys_inv_advance x e : sys_inv x -> sys_inv (advance x e).
Proof.
  destruct x as [pending [w p]]. unfold sys_inv. cbn [fst snd].
  intros (Hflag & Hfin). pose proof (flag_of_pending pending p Hflag) as Hf.
  destruct e as [now|b| |r]; cbn [advance].
  - cbn [fst snd]. rewrite getBrowserPage_flag. auto.
  - cbn [fst snd]. auto.
  - destruct pending as [pc|].
    + cbn [shutdown_start]. rewrite Hf. cbn [fst snd]. auto.
    + cbn [shutdown_start]. rewrite Hf.
      destruct p as [[b|] [c|] f l t]; cbn;
        (split; [split; [discriminate || (intros _; discriminate) | try congruence]
                | discriminate]).
  - destruct pending as [pc|]; [|cbn [fst snd]; auto].
    destruct pc; [| |congruence].
    + destruct r, p as [[b|] c f l t]; cbn in Hf |- *; subst f; cbn;
        (split; [split; [discriminate || (intros _; discriminate) | try congruence]
                | discriminate]).
    + destruct r; cbn;
        (split; [split; [discriminate | congruence] | discriminate]).
Qed.

Lemma sys_inv_run events : sys_inv (run events).
Proof.
  unfold run.
  assert (G : forall x, sys_inv x -> sys_inv (fold_left advance events x)).
  { induction events as [|e events IH]; intros x Hx; simpl; [exact Hx|].
    apply IH, sys_inv_advance, Hx. }
  apply G. unfold sys_inv. cbn. split; [split; [discriminate | congruence]|].
  discriminate.
Qed.

Lemma completed_flag pending r s s' :
  sys_inv (pending, s) -> completes pending r s s' -> isShuttingDown (snd s') = false.
Proof.
  destruct s as [w p]. unfold sys_inv, completes. cbn [fst snd].
  intros (Hflag & Hfin) Hdone. pose proof (flag_of_pending pending p Hflag) as Hf.
  destruct pending as [[| |]|].
  - destruct r, p as [[b|] c f l t]; cbn in Hdone; try discriminate;
      injection Hdone as <-; reflexivity.
  - destruct r; cbn in Hdone; injection Hdone as <-; reflexivity.
  - congruence.
  - cbn [shutdown_start] in Hdone. rewrite Hf in Hdone.
    destruct p as [[b|] [c|] f l t]; cbn in Hdone; try discriminate.
    injection Hdone as <-. reflexivity.
Qed.

(** What holds of shutdown in every run of the pool: an acquisition is
    rejected with the pool-unavailable error exactly when a [shutdown] call
    is in progress; when that call completes, the flag is false again and the
    next acquisition is not rejected with that error; and from a pool that
    the completed call has left without browser and without context, the
    next acquisition succeeds, on a browser and a context that it creates
    ([next_id] is the identifier that the next creation gets). *)
Lemma shutdown_resets_flag (events : list event) (now : Z) :
  let pending := fst (run events) in
  let s := snd (run events) in
  (fst (getBrowserPage now s) = Err PoolShuttingDown <-> pending <> None) /\
  (forall r s', completes pending r s s' ->
     isShuttingDown (snd s') = false /\
     fst (getBrowserPage now s') <> Err PoolShuttingDown /\
     (browser (snd s') = None -> context (snd s') = None ->
      exists pg b c s'',
        getBrowserPage now s' = (Ok pg, s'') /\
        b = next_id (fst s') /\ c = S (next_id (fst s')) /\
        browser (snd s'') = Some b /\ context (snd s'') = Some c /\
        isConnected (fst s'') b = true /\ context_owner (fst s'') c = Some b)).
Proof.
  intros pending s. pose proof (sys_inv_run events) as Hinv.
  assert (Hinv' : sys_inv (pending, s)).
  { unfold pending, s. destruct (run events). exact Hinv. }
  pose proof Hinv' as (Hflag & Hfin). cbn [fst snd] in Hflag, Hfin.
  split.
  - split.
    + intros H. apply Hflag. destruct (isShuttingDown (snd s)) eqn:Hf; [reflexivity|].
      exfalso. exact (getBrowserPage_not_rejected now s Hf H).
    + intros H. apply Hflag in H. rewrite (getBrowserPage_rejected now s H). reflexivity.
  - intros r s' Hdone.
    pose proof (completed_flag pending r s s' Hinv' Hdone) as Hf.
    split; [exact Hf|]. split; [exact (getBrowserPage_not_rejected now s' Hf)|].
    intros Hb Hc. destruct s' as [w [b' c' f l t]].
    cbn [snd fst browser context isShuttingDown] in Hb, Hc, Hf |- *. subst b' c' f.
    destruct (acquire_from_nothing w l t now) as (s'' & E & H1 & H2 & H3 & H4).
    exists (S (S (next_id w))), (next_id w), (S (next_id w)), s''.
    repeat split; auto.
Qed.

(** A [shutdown] whose [close()] calls resolve, whatever came before it
    (also a [close()] that an earlier call saw rejected): it leaves neither
    browser nor context in the pool, and the next acquisition succeeds on a
    browser and a context that it creates. *)
Lemma clean_shutdown_recovers (events : list event) (now : Z) :
  fst (run events) = None ->
  let s' := shutdown Resolved Resolved (snd (run events)) in
  isShuttingDown (snd s') = false /\
  browser (snd s') = None /\ context (snd s') = None /\
  exists pg s'',
    getBrowserPage now s' = (Ok pg, s'') /\
    browser (snd s'') = Some (next_id (fst s')) /\
    context (snd s'') = Some (S (next_id (fst s'))).
Proof.
  intros Hp. pose proof (sys_inv_run events) as (Hflag & _).
  destruct (run events) as [pending [w p]]. cbn [fst snd] in Hp, Hflag |- *.
  subst pending.
  assert (Hf : isShuttingDown p = false).
  { destruct (isShuttingDown p); [|reflexivity]. exfalso. apply Hflag; reflexivity. }
  assert (E : exists w', shutdown Resolved Resolved (w, p)
                         = (w', {| browser := None; context := None;
                                   isShuttingDown := false; lastUsed := lastUsed p;
                                   idleTimer := None |})).
  { unfold shutdown, shutdown_start. rewrite Hf.
    destruct p as [[b|] [c|] f l t]; cbn; eexists; reflexivity. }
  destruct E as [w' E]. rewrite E. cbn [snd fst isShuttingDown browser context].
  repeat split.
  destruct (acquire_from_nothing w' (lastUsed p) None now) as (s'' & G & H1 & H2 & _).
  exists (S (S (next_id w'))), s''. auto.
Qed.

(** ** What the pool holds and what is alive *)

(** Every browser that is alive is the one in the pool's [browser] field,
    and every context that is open is the one in its [context] field and
    belongs to a browser that is alive. *)
Definition owns (w : world) (p : pool) : Prop :=
  (forall b, In b (live_browsers w) -> browser p = Some b) /\
  (forall c o, In (c, o) (open_contexts w) ->
               context p = Some c /\ In o (live_browsers w)).

Lemma owns_same w p w' p' :
  live_browsers w' = live_browsers w -> open_contexts w' = open_contexts w ->
  browser p' = browser p -> context p' = context p ->
  owns w p -> owns w' p'.
Proof. unfold owns. intros -> -> -> ->. auto. Qed.

Lemma isConnected_In w b : isConnected w b = true <-> In b (live_browsers w).
Proof.
  unfold isConnected. rewrite existsb_exists. split.
  - intros (x & Hx & E). apply Nat.eqb_eq in E. subst x. exact Hx.
  - intros H. exists b. split; [exact H | apply Nat.eqb_refl].
Qed.

Lemma createBrowser_owns w p :
  owns w p ->
  browser p = None \/ (exists b, browser p = Some b /\ isConnected w b = false) ->
  owns (fst (snd (createBrowser (w, p)))) (snd (snd (createBrowser (w, p)))).
Proof.
  intros [Hb Hc] Hdead.
  assert (Hnone : forall b, ~ In b (live_browsers w)).
  { intros b Hin. pose proof (Hb b Hin) as E. destruct Hdead as [N|(b0 & E0 & Hd)].
    - congruence.
    - rewrite E in E0. injection E0 as <-.
      apply isConnected_In in Hin. congruence. }
  unfold createBrowser, bind, get_world, get_pool, set_world, set_pool, launch.
  cbn [fst snd live_browsers open_contexts with_browser browser context]. split.
  - intros b [<-|Hin]; [reflexivity | destruct (Hnone b Hin)].
  - intros c o Hin. destruct (Hc c o Hin) as [_ Ho]. destruct (Hnone o Ho).
Qed.

Lemma createContext_owns w p :
  owns w p -> context p = None ->
  owns (fst (snd (createContext (w, p)))) (snd (snd (createContext (w, p)))).
Proof.
  intros H Hn.
  unfold createContext, bind, get_world, get_pool. cbn [fst snd].
  destruct (browser p) as [b|] eqn:Eb; [|exact H].
  unfold newContext. destruct (isConnected w b) eqn:Hconn; [|exact H].
  destruct H as [Hb Hc]. unfold set_world, set_pool.
  cbn [fst snd live_browsers open_contexts with_context browser context]. split.
  - exact Hb.
  - intros c o [[= <- <-]|Hin].
    + split; [reflexivity | apply isConnected_In, Hconn].
    + destruct (Hc c o Hin) as [E _]. congruence.
Qed.

Definition ensure_context : M unit :=
  p' <- get_pool ;;
  match context p' with
  | Some _ => ret tt
  | None => createContext
  end.

Lemma ensureBrowser_steps w p :
  ensureBrowser (w, p)
  = ensure_context
      (match browser p with
       | Some b => if isConnected w b then (w, p) else snd (createBrowser (w, p))
       | None => snd (createBrowser (w, p))
       end).
Proof.
  unfold ensureBrowser, ensure_context, bind at 1 2 3, get_world, get_pool.
  cbn [fst snd].
  destruct (browser p) as [b|]; [destruct (isConnected w b)|]; reflexivity.
Qed.

Lemma ensure_context_owns s :
  owns (fst s) (snd s) ->
  owns (fst (snd (ensure_context s))) (snd (snd (ensure_context s))).
Proof.
  destruct s as [w p]. cbn [fst snd]. intros H.
  unfold ensure_context, bind, get_pool. cbn [fst snd].
  destruct (context p) as [c|] eqn:Ec; [exact H|].
  apply createContext_owns; assumption.
Qed.

Lemma ensureBrowser_owns s :
  owns (fst s) (snd s) ->
  owns (fst (snd (ensureBrowser s))) (snd (snd (ensureBrowser s))).
Proof.
  destruct s as [w p]. cbn [fst snd]. intros H.
  rewrite ensureBrowser_steps. apply ensure_context_owns.
  destruct (browser p) as [b|] eqn:Eb.
  - destruct (isConnected w b) eqn:Hconn; [exact H|].
    apply createBrowser_owns; [exact H|]. right. eauto.
  - apply createBrowser_owns; [exact H|]. left. exact Eb.
Qed.

Definition issue_page (now : Z) : M nat :=
  p1 <- get_pool ;; set_pool (with_lastUsed p1 now) ;;;
  resetIdleTimer now ;;;
  p2 <- get_pool ;;
  match context p2 with
  | None => throw ContextNotAvailable
  | Some c =>
      w <- get_world ;;
      match newPage w c with
      | Err e => throw e
      | Ok (pg, w') =>
          set_world (configure_page w' pg (794, 1123)) ;;; ret pg
      end
  end.

Lemma getBrowserPage_steps now s :
  getBrowserPage now s
  = if isShuttingDown (snd s) then (Err PoolShuttingDown, s)
    else match ensureBrowser s with
         | (Ok _, s1) => issue_page now s1
         | (Err e, s1) => (Err e, s1)
         end.
Proof.
  unfold getBrowserPage, issue_page. unfold bind at 1, get_pool at 1.
  destruct (isShuttingDown (snd s)); reflexivity.
Qed.

Lemma issue_page_owns now s :
  owns (fst s) (snd s) ->
  owns (fst (snd (issue_page now s))) (snd (snd (issue_page now s))).
Proof.
  destruct s as [w [b [c|] f l t]]; cbn [fst snd]; intros H; unfold issue_page;
    cbv [bind get_pool get_world set_pool set_world resetIdleTimer ret throw
         with_lastUsed with_timer fst snd context newPage].
  - destruct (context_open w c);
      (eapply owns_same; [| | | |exact H]; reflexivity).
  - eapply owns_same; [| | | |exact H]; reflexivity.
Qed.

Lemma getBrowserPage_owns now s :
  owns (fst s) (snd s) ->
  owns (fst (snd (getBrowserPage now s))) (snd (snd (getBrowserPage now s))).
Proof.
  intros H. rewrite getBrowserPage_steps.
  destruct (isShuttingDown (snd s)); [exact H|].
  pose proof (ensureBrowser_owns s H) as H1.
  destruct (ensureBrowser s) as [[[]|e] s1]; cbn [fst snd] in H1 |- *; [|exact H1].
  apply issue_page_owns, H1.
Qed.

Lemma kill_browser_owns w p b : owns w p -> owns (kill_browser w b) p.
Proof.
  intros [Hb Hc]. unfold kill_browser, end_browser.
  split; cbn [live_browsers open_contexts].
  - intros b' Hin. apply filter_In in Hin. apply Hb, Hin.
  - intros c o Hin. apply filter_In in Hin. destruct Hin as [Hin Ho].
    destruct (Hc c o Hin) as [E Hl]. split; [exact E|].
    apply filter_In. split; [exact Hl | exact Ho].
Qed.

Lemma shutdown_browser_part_owns s :
  owns (fst s) (snd s) ->
  owns (fst (snd (shutdown_browser_part s))) (snd (snd (shutdown_browser_part s))).
Proof.
  intros H. unfold shutdown_browser_part.
  destruct (browser (snd s)); [exact H|].
  unfold shutdown_finish. cbn [fst snd].
  eapply owns_same; [| | | |exact H]; reflexivity.
Qed.

Lemma shutdown_start_owns s :
  owns (fst s) (snd s) ->
  owns (fst (snd (shutdown_start s))) (snd (snd (shutdown_start s))).
Proof.
  destruct s as [w p]. cbn [fst snd]. intros H. unfold shutdown_start.
  destruct (isShuttingDown p); [exact H|].
  assert (H1 : owns w (with_timer (with_flag p true) None))
    by (eapply owns_same; [| | | |exact H]; reflexivity).
  destruct (context (with_timer (with_flag p true) None)); [exact H1|].
  apply (shutdown_browser_part_owns (w, _)). exact H1.
Qed.

Lemma shutdown_resume_owns pc r s :
  owns (fst s) (snd s) ->
  owns (fst (snd (shutdown_resume pc r s))) (snd (snd (shutdown_resume pc r s))).
Proof.
  destruct s as [w p]. cbn [fst snd]. intros H. pose proof H as [Hb Hc].
  destruct pc, r; cbn [shutdown_resume fst snd]; try exact H.
  - apply (shutdown_browser_part_owns (_, _)). cbn [fst snd].
    destruct (context p) as [c|] eqn:Ec.
    + split; cbn [live_browsers open_contexts close_context with_context browser context].
      * exact Hb.
      * intros c' o Hin. apply filter_In in Hin. destruct Hin as [Hin Hne].
        destruct (Hc c' o Hin) as [E _]. injection E as <-.
        cbn [fst] in Hne. rewrite Nat.eqb_refl in Hne. discriminate.
    + split; cbn [with_context browser context].
      * exact Hb.
      * intros c' o Hin. destruct (Hc c' o Hin) as [E _]. congruence.
  - apply (shutdown_browser_part_owns (w, p)). exact H.
  - unfold shutdown_finish. cbn [fst snd].
    assert (G : owns match browser p with
                     | Some b => close_browser w b
                     | None => w
                     end (with_browser p None)).
    { destruct (browser p) as [b|] eqn:Eb.
      - assert (Hnone : forall b', ~ In b' (live_browsers (close_browser w b))).
        { intros b' Hin. unfold close_browser, end_browser in Hin.
          cbn [live_browsers] in Hin. apply filter_In in Hin. destruct Hin as [Hin Hne].
          pose proof (Hb b' Hin) as E. injection E as <-.
          rewrite Nat.eqb_refl in Hne. discriminate. }
        split.
        + intros b' Hin. destruct (Hnone b' Hin).
        + intros c o Hin. exfalso.
          unfold close_browser, end_browser in Hin. cbn [open_contexts] in Hin.
          apply filter_In in Hin. destruct Hin as [Hin Hne].
          destruct (Hc c o Hin) as [_ Hl]. pose proof (Hb o Hl) as E.
          injection E as <-. cbn [snd] in Hne. rewrite Nat.eqb_refl in Hne. discriminate.
      - split.
        + intros b' Hin. pose proof (Hb b' Hin). congruence.
        + intros c o Hin. destruct (Hc c o Hin) as [E Hl]. split; [exact E | exact Hl]. }
    eapply owns_same; [| | | |exact G]; reflexivity.
Qed.

Lemma advance_owns x e :
  owns (fst (snd x)) (snd (snd x)) ->
  owns (fst (snd (advance x e))) (snd (snd (advance x e))).
Proof.
  destruct x as [pending s]. cbn [fst snd]. intros H.
  destruct e as [now|b| |r]; cbn [advance].
  - cbn [snd]. apply getBrowserPage_owns, H.
  - cbn [fst snd]. apply kill_browser_owns, H.
  - pose proof (shutdown_start_owns s H) as H1.
    destruct pending as [pc|]; [exact H1|].
    destruct (shutdown_start s) as [pc s']. exact H1.
  - destruct pending as [pc|]; [|exact H].
    pose proof (shutdown_resume_owns pc r s H) as H1.
    destruct (shutdown_resume pc r s) as [pc' s']. exact H1.
Qed.


(** ** A shutdown whose [close()] of the context is rejected *)

Lemma owns_run (events : list event) :
  owns (fst (snd (run events))) (snd (snd (run events))).
Proof.
  unfold run.
  assert (G : forall x, owns (fst (snd x)) (snd (snd x)) ->
              owns (fst (snd (fold_left advance events x)))
                   (snd (snd (fold_left advance events x)))).
  { induction events as [|e events IH]; intros x Hx; simpl; [exact Hx|].
    apply IH, advance_owns, Hx. }
  apply G. split; [intros b [] | intros c o []].
Qed.

(** An acquisition from a pool that holds a closed context fails, and the
    pool keeps the context. *)
Lemma closed_context_fails (w : world) (p : pool) (c : nat) (now : Z) :
  isShuttingDown p = false -> context p = Some c -> context_open w c = false ->
  fst (getBrowserPage now (w, p)) = Err TargetClosed /\
  context (snd (snd (getBrowserPage now (w, p)))) = Some c /\
  isShuttingDown (snd (snd (getBrowserPage now (w, p)))) = false /\
  context_open (fst (snd (getBrowserPage now (w, p)))) c = false.
Proof.
  intros Hf Hc Ho.
  destruct (ensureBrowser_keeps_context w p c Hc) as (w1 & p1 & E & Hc1 & Hw1 & Hf1).
  assert (Ho1 : context_open w1 c = false).
  { unfold context_open in *. rewrite Hw1. exact Ho. }
  rewrite Hf in Hf1.
  unfold getBrowserPage, bind, get_pool. cbn [snd fst]. rewrite Hf, E.
  cbv [set_pool resetIdleTimer bind get_pool get_world throw snd fst
       with_lastUsed with_timer].
  cbn [context]. rewrite Hc1.
  unfold newPage. rewrite Ho1. cbn [snd fst context isShuttingDown]. auto.
Qed.

(** What [shutdown] leaves when the [close()] of the context is rejected
    and the one of the browser resolves: the context that it held, closed
    with its browser, and no browser. *)
Lemma rejected_close_state (w : world) (p : pool) (c : nat) :
  owns w p -> isShuttingDown p = false -> context p = Some c ->
  let s' := shutdown Rejected Resolved (w, p) in
  isShuttingDown (snd s') = false /\ browser (snd s') = None /\
  context (snd s') = Some c /\ context_open (fst s') c = false.
Proof.
  intros [Hb Hc] Hf Hctx s'. unfold s', shutdown, shutdown_start. rewrite Hf.
  destruct p as [b c0 f l t]. cbn [context browser isShuttingDown] in *. subst c0 f.
  cbn [with_flag with_timer context browser isShuttingDown lastUsed idleTimer].
  cbn [shutdown_resume shutdown_browser_part snd fst browser].
  destruct b as [b|].
  - cbn [shutdown_resume shutdown_finish snd fst browser with_browser with_flag
         context isShuttingDown close_browser].
    repeat split. unfold context_open, end_browser. cbn [open_contexts].
    apply not_true_is_false. intros H. apply existsb_exists in H.
    destruct H as ([c' o] & Hin & E). cbn [fst] in E. apply Nat.eqb_eq in E. subst c'.
    apply filter_In in Hin. destruct Hin as [Hin Hne]. cbn [snd] in Hne.
    destruct (Hc c o Hin) as [_ Hlive]. specialize (Hb o Hlive).
    injection Hb as <-. rewrite Nat.eqb_refl in Hne. discriminate.
  - cbn [shutdown_resume shutdown_finish snd fst browser with_flag context
         isShuttingDown].
    repeat split. unfold context_open.
    apply not_true_is_false. intros H. apply existsb_exists in H.
    destruct H as ([c' o] & Hin & _).
    destruct (Hc c' o Hin) as [_ Hlive]. specialize (Hb o Hlive). discriminate.
Qed.

(** C10 fails on the code.  In every run of the pool, a [shutdown] that
    finds a context in the pool and whose [close()] of that context is
    rejected, while the [close()] of the browser resolves, completes with
    the flag reset, and leaves the context in the pool: the catch block has
    skipped the statement that clears the field.  The browser is closed and
    the context with it.  The acquisition that follows launches a browser,
    creates no context, since [ensureBrowser] creates one only when there is
    none, and fails on the context that was kept; so does every acquisition
    after it. *)
Theorem rejected_close_not_recovered (events : list event) (c : nat) (now : Z)
    (later : list Z) :
  fst (run events) = None ->
  context (snd (snd (run events))) = Some c ->
  let s' := shutdown Rejected Resolved (snd (run events)) in
  isShuttingDown (snd s') = false /\
  browser (snd s') = None /\ context (snd s') = Some c /\
  context_open (fst s') c = false /\
  fst (getBrowserPage now s') = Err TargetClosed /\
  fst (getBrowserPage now
         (fold_left (fun s t => snd (getBrowserPage t s)) later s'))
  = Err TargetClosed.
Proof.
  intros Hp Hctx s'. pose proof (sys_inv_run events) as (Hflag & _).
  pose proof (owns_run events) as Ho.
  assert (Hf : isShuttingDown (snd (snd (run events))) = false).
  { destruct (isShuttingDown (snd (snd (run events)))); [|reflexivity].
    exfalso. apply Hflag; [reflexivity | exact Hp]. }
  destruct (snd (run events)) as [w p] eqn:Es. cbn [fst snd] in Ho, Hf, Hctx.
  destruct (rejected_close_state w p c Ho Hf Hctx) as (H1 & H2 & H3 & H4).
  fold s' in H1, H2, H3, H4.
  split; [exact H1|]. split; [exact H2|]. split; [exact H3|]. split; [exact H4|].
  assert (G : forall s, isShuttingDown (snd s) = false -> context (snd s) = Some c ->
              context_open (fst s) c = false ->
              fst (getBrowserPage now
                     (fold_left (fun s t => snd (getBrowserPage t s)) later s))
              = Err TargetClosed).
  { induction later as [|t later IH]; intros [w0 p0] F C O; cbn [fold_left fst snd] in *.
    - apply (closed_context_fails w0 p0 c now F C O).
    - destruct (closed_context_fails w0 p0 c t F C O) as (_ & C' & F' & O').
      apply IH; assumption. }
  split.
  - destruct s' as [w' p']. apply (closed_context_fails w' p' c now H1 H3 H4).
  - apply G; assumption.
Qed.

(** The run of the failing input: a page is acquired; [shutdown] is called
    and the [close()] of the context is rejected; the next acquisition
    fails. *)
Lemma rejected_close_not_recovered_witness :
  let s' := shutdown Rejected Resolved (snd (run [Acquire 100])) in
  isShuttingDown (snd s') = false /\
  browser (snd s') = None /\ context (snd s') = Some 1%nat /\
  context_open (fst s') 1%nat = false /\
  fst (getBrowserPage 200 s') = Err TargetClosed /\
  fst (getBrowserPage 200 (fold_left (fun s t => snd (getBrowserPage t s)) [300] s'))
  = Err TargetClosed.
Proof.
  apply (rejected_close_not_recovered [Acquire 100] 1%nat 200 [300]); reflexivity.
Defined.

End BrowserPool.

(* ===================================================================== *)
(** * The PDF generator (src/generators/pdf-generator.ts)                *)
(* ===================================================================== *)

Module PdfGenerator.

Import HtmlGenerator.

Open Scope Z_scope.

(** An error as the host throws it: [code] is set on file-system errors. *)
Record js_error := { code : option string; message : bytes }.

(** What [generatePDF] throws.  The message of a ValidationError lists the
    errors of Ajv and is left out. *)
Inductive thrown :=
| ValidationError
| FileSystemError (message : bytes)
| PDFGenerationError (message : bytes).

Inductive outcome :=
| Returned (outputPath : bytes)
| Threw (e : thrown).

(** The effects that [generatePDF] has no hand in: the formats of Ajv, the
    host's clock zone and numbers, the wording of the TypeError that the
    host throws when the render of some data fails, [path.dirname],
    [fs.mkdir], the page's [setContent] and [pdf] (the artifact it writes at
    the path, or the error it throws), and the reading and writing back of
    the artifact by the normaliser. *)
Record environment := {
  host : JsDate.host;
  formats : string -> bytes -> bool;
  render_message : json -> bytes;
  dirname : bytes -> bytes;
  mkdir : bytes -> option js_error;
  setContent : bytes -> option js_error;
  pdf : bytes -> bytes -> js_error + bytes;
  rewrite_file : bytes -> option js_error
}.

(** The state of the process and of the disk. *)
Record system := {
  cache : TemplateCache.cache;
  pool : BrowserPool.state;
  files : list (bytes * bytes)
}.

Definition initial_system : system :=
  {| cache := []; pool := BrowserPool.initial_state; files := [] |}.

Definition write_file (path content : bytes) (files : list (bytes * bytes))
  : list (bytes * bytes) :=
  (path, content)
    :: filter (fun f => if list_eq_dec ascii_dec (fst f) path then false else true) files.

(** [options.output || 'resume.pdf']. *)
Definition outputPath_of (options : PDFOptions) : bytes :=
  match output options with
  | Some (c :: p) => c :: p
  | _ => lit "resume.pdf"
  end.

Definition pool_error (e : BrowserPool.error) : js_error :=
  {| code := None;
     message := match e with
                | BrowserPool.PoolShuttingDown => lit "Browser pool is shutting down"
                | BrowserPool.ContextNotAvailable => lit "Browser context not available"
                | BrowserPool.BrowserNotAvailable => lit "Browser not available"
                | BrowserPool.TargetClosed =>
                    lit "Target page, context or browser has been closed"
                end |}.

(** The TypeError that ends a render: a date helper was given a value
    that is not a string, or a value that is shown has no string.  A
    TypeError has no [code]. *)
Definition render_error (env : environment) (resumeData : json) : js_error :=
  {| code := None; message := render_message env resumeData |}.

Definition code_is (error : js_error) (c : string) : bool :=
  match code error with
  | Some c' => String.eqb c' c
  | None => false
  end.

(** The catch block. *)
Definition on_error (outputPath : bytes) (error : js_error) : thrown :=
  if code_is error "ENOENT" || code_is error "EACCES"
  then FileSystemError (lit "Cannot write to output path: " ++ outputPath)
  else PDFGenerationError (lit "Failed to generate PDF: " ++ message error).

(** The try block: what it returns or throws, the state it leaves, and the
    page it holds when it ends. *)
Definition try_block (env : environment) (now now' : Z) (sys : system)
    (resumeData : json) (options : PDFOptions)
  : (js_error + bytes) * system * option nat :=
  let outputPath := outputPath_of options in
  match mkdir env (dirname env outputPath) with
  | Some e => (inl e, sys, None)
  | None =>
      let (html, cache') :=
        generateHTML (host env) now now' resumeData options (cache sys) in
      let sys1 := {| cache := cache'; pool := pool sys; files := files sys |} in
      match html with
      | None => (inl (render_error env resumeData), sys1, None)
      | Some htmlContent =>
          match BrowserPool.getBrowserPage now (pool sys1) with
          | (BrowserPool.Err e, pool') =>
              (inl (pool_error e),
               {| cache := cache'; pool := pool'; files := files sys |}, None)
          | (BrowserPool.Ok page, pool') =>
              let sys2 := {| cache := cache'; pool := pool'; files := files sys |} in
              match setContent env htmlContent with
              | Some e => (inl e, sys2, Some page)
              | None =>
                  match pdf env htmlContent outputPath with
                  | inl e => (inl e, sys2, Some page)
                  | inr artifact =>
                      let written :=
                        {| cache := cache'; pool := pool';
                           files := write_file outputPath artifact (files sys) |} in
                      let shouldBeDeterministic :=
                        match deterministic options with
                        | Some false => false
                        | _ => true
                        end in
                      let config :=
                        match deterministicConfig options with
                        | Some c => c
                        | None => Normalizer.DEFAULT_DETERMINISTIC_CONFIG
                        end in
                      if shouldBeDeterministic
                         && (Normalizer.removeTimestamps config
                             || Normalizer.removeVariableMetadata config)
                      then
                        match rewrite_file env outputPath with
                        | Some e => (inl e, written, Some page)
                        | None =>
                            (inr outputPath,
                             {| cache := cache'; pool := pool';
                                files := write_file outputPath
                                           (Normalizer.normalize_output
                                              (deterministic options)
                                              (deterministicConfig options) artifact)
                                           (files sys) |},
                             Some page)
                        end
                      else (inr outputPath, written, Some page)
                  end
              end
          end
      end
  end.

(** The finally block. *)
Definition release (page : option nat) (sys : system) : system :=
  match page with
  | Some pg =>
      {| cache := cache sys;
         pool := snd (BrowserPool.releasePage pg (pool sys));
         files := files sys |}
  | None => sys
  end.

(** [generatePDF]: validation comes first, outside the try block. *)
Definition generatePDF (env : environment) (now now' : Z) (sys : system)
    (resumeData : json) (options : PDFOptions) : outcome * system :=
  if negb (Validator.validateResumeData (formats env) resumeData)
  then (Threw ValidationError, sys)
  else
    let outputPath := outputPath_of options in
    match try_block env now now' sys resumeData options with
    | (inr path, sys', page) => (Returned path, release page sys')
    | (inl error, sys', page) => (Threw (on_error outputPath error), release page sys')
    end.

(** An environment in which everything works, and one whose disk is
    full. *)
Definition working : environment :=
  {| host := JsDate.utc_host;
     formats := fun _ _ => true;
     render_message := fun _ => lit "string.toHTML is not a function";
     dirname := fun _ => lit ".";
     mkdir := fun _ => None;
     setContent := fun _ => None;
     pdf := fun _ _ => inr Normalizer.sample_pdf;
     rewrite_file := fun _ => None |}.

Definition disk_full : environment :=
  {| host := JsDate.utc_host;
     formats := fun _ _ => true;
     render_message := fun _ => lit "string.toHTML is not a function";
     dirname := fun _ => lit ".";
     mkdir := fun _ => None;
     setContent := fun _ => None;
     pdf := fun _ _ =>
       inl {| code := Some "ENOSPC"%string;
              message := lit "ENOSPC: no space left on device, write" |};
     rewrite_file := fun _ => None |}.

Definition missing_directory : environment :=
  {| host := JsDate.utc_host;
     formats := fun _ _ => true;
     render_message := fun _ => lit "string.toHTML is not a function";
     dirname := fun _ => lit "/nowhere";
     mkdir := fun _ => None;
     setContent := fun _ => None;
     pdf := fun _ _ =>
       inl {| code := Some "ENOENT"%string;
              message := lit "ENOENT: no such file or directory, open '/nowhere/cv.pdf'" |};
     rewrite_file := fun _ => None |}.

(** A resume with a name and a list of work entries, and no email. *)
Definition resume_without_email : json :=
  JObj [("basics"%string, JObj [("name"%string, JStr (lit "John Doe"))]);
        ("work"%string, JArr [])].

Example generatePDF_example :
  fst (generatePDF working 0 0 initial_system sample_resume no_options)
  = Returned (lit "resume.pdf").
Proof. vm_compute. reflexivity. Qed.

(** ** The errors of the try block *)

(** The error that ends the try block is the one of the step that failed. *)
Inductive failed_step (env : environment) (options : PDFOptions) : js_error -> Prop :=
| mkdir_failed e :
    mkdir env (dirname env (outputPath_of options)) = Some e ->
    failed_step env options e
| render_failed resumeData : failed_step env options (render_error env resumeData)
| pool_failed e : failed_step env options (pool_error e)
| setContent_failed html e :
    setContent env html = Some e -> failed_step env options e
| pdf_failed html e :
    pdf env html (outputPath_of options) = inl e -> failed_step env options e
| rewrite_failed e :
    rewrite_file env (outputPath_of options) = Some e -> failed_step env options e.

Lemma try_block_error env now now' sys data options error :
  fst (fst (try_block env now now' sys data options)) = inl error ->
  failed_step env options error.
Proof.
  unfold try_block.
  destruct (mkdir env _) as [e|] eqn:Hm.
  { cbn. intros [= <-]. eapply mkdir_failed; exact Hm. }
  destruct (generateHTML _ _ _ _ _ _) as [[html|] c'].
  2:{ cbn. intros [= <-]. apply render_failed. }
  cbn [pool].
  destruct (BrowserPool.getBrowserPage now (pool sys)) as [[pg|e] p'].
  2:{ cbn. intros [= <-]. apply pool_failed. }
  destruct (setContent env html) as [e|] eqn:Hs.
  { cbn. intros [= <-]. eapply setContent_failed; exact Hs. }
  destruct (pdf env html _) as [e|artifact] eqn:Hp.
  { cbn. intros [= <-]. eapply pdf_failed; exact Hp. }
  destruct (_ && _).
  - destruct (rewrite_file env _) as [e|] eqn:Hr.
    + cbn. intros [= <-]. eapply rewrite_failed; exact Hr.
    + cbn. discriminate.
  - cbn. discriminate.
Qed.

Lemma try_block_returns env now now' sys data options path :
  fst (fst (try_block env now now' sys data options)) = inr path ->
  path = outputPath_of options.
Proof.
  unfold try_block.
  destruct (mkdir env _) as [e|]; [discriminate|].
  destruct (generateHTML _ _ _ _ _ _) as [[html|] c']; [|discriminate].
  cbn [pool].
  destruct (BrowserPool.getBrowserPage now (pool sys)) as [[pg|e] p']; [|discriminate].
  destruct (setContent env html) as [e|]; [discriminate|].
  destruct (pdf env html _) as [e|artifact]; [discriminate|].
  destruct (_ && _).
  - destruct (rewrite_file env _) as [e|]; [discriminate|]. cbn. intros [= <-]. reflexivity.
  - cbn. intros [= <-]. reflexivity.
Qed.

Lemma code_is_spec error c : code_is error c = true <-> code error = Some c.
Proof.
  unfold code_is. destruct (code error) as [c'|].
  - rewrite String.eqb_eq. split; [intros ->; reflexivity | intros [= ->]; reflexivity].
  - split; discriminate.
Qed.

Lemma on_error_file_system outputPath error :
  code error = Some "ENOENT"%string \/ code error = Some "EACCES"%string ->
  on_error outputPath error
  = FileSystemError (lit "Cannot write to output path: " ++ outputPath).
Proof.
  intros H. unfold on_error.
  destruct H as [H|H]; apply code_is_spec in H; rewrite H;
    rewrite ?orb_true_r; reflexivity.
Qed.

Lemma on_error_other outputPath error :
  code error <> Some "ENOENT"%string -> code error <> Some "EACCES"%string ->
  on_error outputPath error
  = PDFGenerationError (lit "Failed to generate PDF: " ++ message error).
Proof.
  intros H1 H2. unfold on_error.
  destruct (code_is error "ENOENT") eqn:E1; [apply code_is_spec in E1; contradiction|].
  destruct (code_is error "EACCES") eqn:E2; [apply code_is_spec in E2; contradiction|].
  reflexivity.
Qed.

Lemma generatePDF_valid env now now' sys data options :
  Validator.validateResumeData (formats env) data = true ->
  fst (generatePDF env now now' sys data options)
  = match fst (fst (try_block env now now' sys data options)) with
    | inr path => Returned path
    | inl error => Threw (on_error (outputPath_of options) error)
    end.
Proof.
  intros Hv. unfold generatePDF. rewrite Hv. cbn [negb].
  destruct (try_block env now now' sys data options) as [[[e|p] sys'] pg]; reflexivity.
Qed.

(** ** The claims on [generatePDF] *)

(** C5 (amended).  When the try block of [generatePDF] ends with an error,
    that error is the one of a step of the block (creating the directory,
    rendering, acquiring the page, content-set, export, normalisation), and
    [generatePDF] throws a FileSystemError exactly when the error's code is
    ENOENT or EACCES, with the message [Cannot write to output path: ]
    followed by the output path; for every other error, whatever its code,
    it throws a PDFGenerationError whose message is [Failed to generate PDF: ]
    followed by the message of the error. *)
Theorem failure_mapping (env : environment) (now now' : Z) (sys : system)
    (resumeData : json) (options : PDFOptions) (error : js_error) :
  Validator.validateResumeData (formats env) resumeData = true ->
  fst (fst (try_block env now now' sys resumeData options)) = inl error ->
  let thrown := fst (generatePDF env now now' sys resumeData options) in
  failed_step env options error /\
  (forall m, thrown = Threw (FileSystemError m) <->
     (code error = Some "ENOENT"%string \/ code error = Some "EACCES"%string) /\
     m = lit "Cannot write to output path: " ++ outputPath_of options) /\
  (forall m, thrown = Threw (PDFGenerationError m) <->
     (code error <> Some "ENOENT"%string /\ code error <> Some "EACCES"%string) /\
     m = lit "Failed to generate PDF: " ++ message error) /\
  thrown <> Threw ValidationError.
Proof.
  intros Hv He thrown.
  split; [exact (try_block_error env now now' sys resumeData options error He)|].
  assert (Ht : thrown = Threw (on_error (outputPath_of options) error)).
  { unfold thrown. rewrite (generatePDF_valid env now now' sys resumeData options Hv).
    rewrite He. reflexivity. }
  rewrite Ht.
  assert (D : {code error = Some "ENOENT"%string \/ code error = Some "EACCES"%string}
              + {code error <> Some "ENOENT"%string /\ code error <> Some "EACCES"%string}).
  { destruct (code_is error "ENOENT") eqn:E1.
    { left. left. apply code_is_spec, E1. }
    destruct (code_is error "EACCES") eqn:E2.
    { left. right. apply code_is_spec, E2. }
    right. split; intros H; apply code_is_spec in H; congruence. }
  destruct D as [D|[D1 D2]].
  - rewrite (on_error_file_system (outputPath_of options) error D).
    split; [|split].
    + intros m. split.
      * intros [= <-]. split; [exact D|reflexivity].
      * intros [_ ->]. reflexivity.
    + intros m. split; [discriminate|].
      intros [[N1 N2] _]. destruct D; contradiction.
    + discriminate.
  - rewrite (on_error_other (outputPath_of options) error D1 D2).
    split; [|split].
    + intros m. split; [discriminate|].
      intros [[N|N] _]; contradiction.
    + intros m. split.
      * intros [= <-]. split; [split; assumption|reflexivity].
      * intros [_ ->]. reflexivity.
    + discriminate.
Qed.

Lemma failure_mapping_witness :
  fst (generatePDF missing_directory 0 0 initial_system sample_resume no_options)
  = Threw (FileSystemError (lit "Cannot write to output path: resume.pdf")).
Proof.
  pose (error := {| code := Some "ENOENT"%string;
                    message := lit "ENOENT: no such file or directory, open '/nowhere/cv.pdf'" |}).
  assert (Hv : Validator.validateResumeData (formats missing_directory) sample_resume = true)
    by (vm_compute; reflexivity).
  assert (He : fst (fst (try_block missing_directory 0 0 initial_system sample_resume
                           no_options)) = inl error)
    by (vm_compute; reflexivity).
  destruct (failure_mapping missing_directory 0 0 initial_system sample_resume no_options
              error Hv He) as (_ & H & _).
  apply H. split; [left; reflexivity | reflexivity].
Defined.

(** A full disk at export: the error of [page.pdf] has the code ENOSPC, and
    [generatePDF] throws a PDFGenerationError. *)
Lemma disk_full_is_generation_error :
  (forall html path, exists e,
      pdf disk_full html path = inl e /\ code e = Some "ENOSPC"%string) /\
  Validator.validateResumeData (formats disk_full) sample_resume = true /\
  fst (generatePDF disk_full 0 0 initial_system sample_resume no_options)
  = Threw (PDFGenerationError
             (lit "Failed to generate PDF: ENOSPC: no space left on device, write")).
Proof.
  split; [|split].
  - intros html path. eexists. split; reflexivity.
  - vm_compute. reflexivity.
  - vm_compute. reflexivity.
Qed.

(** C8 (amended).  [generatePDF] validates its input against the schema
    before anything else: when the validator rejects the input, the
    ValidationError is what [generatePDF] throws and no step of the pipeline
    has run (the state is untouched); when it accepts, [generatePDF] never
    throws a ValidationError: it returns the output path or throws what its
    catch block makes of the error of a step. *)
Theorem validation_comes_first (env : environment) (now now' : Z) (sys : system)
    (resumeData : json) (options : PDFOptions) :
  (Validator.validateResumeData (formats env) resumeData = false ->
   generatePDF env now now' sys resumeData options = (Threw ValidationError, sys)) /\
  (Validator.validateResumeData (formats env) resumeData = true ->
   fst (generatePDF env now now' sys resumeData options) <> Threw ValidationError /\
   (fst (generatePDF env now now' sys resumeData options)
    = Returned (outputPath_of options)
    \/ exists error,
         failed_step env options error /\
         fst (generatePDF env now now' sys resumeData options)
         = Threw (on_error (outputPath_of options) error))).
Proof.
  split; intros Hv.
  - unfold generatePDF. rewrite Hv. reflexivity.
  - rewrite (generatePDF_valid env now now' sys resumeData options Hv).
    destruct (fst (fst (try_block env now now' sys resumeData options))) as [e|p] eqn:E.
    + split; [unfold on_error; destruct (_ || _); discriminate|].
      right. exists e. split; [|reflexivity].
      exact (try_block_error env now now' sys resumeData options e E).
    + split; [discriminate|]. left. f_equal.
      exact (try_block_returns env now now' sys resumeData options p E).
Qed.

Lemma validation_comes_first_witness :
  generatePDF working 0 0 initial_system resume_without_email no_options
  = (Threw ValidationError, initial_system).
Proof.
  apply (validation_comes_first working 0 0 initial_system resume_without_email
           no_options).
  vm_compute. reflexivity.
Defined.

(** A resume that has a name and a well-formed list of work entries, and
    that [generatePDF] rejects with a ValidationError: the schema requires
    an email. *)
Lemma name_and_work_rejected :
  property "basics" resume_without_email
  = Some (JObj [("name"%string, JStr (lit "John Doe"))]) /\
  property "work" resume_without_email = Some (JArr []) /\
  fst (generatePDF working 0 0 initial_system resume_without_email no_options)
  = Threw ValidationError.
Proof. repeat split. Qed.

(** A resume that the validator accepts and that is not rendered: the
    TypeError of the render is caught and [generatePDF] throws a
    PDFGenerationError. *)
Example accepted_resume_not_rendered :
  Validator.validateResumeData (formats working) resume_with_toHTML = true /\
  fst (generateHTML (host working) 0 0 resume_with_toHTML no_options []) = None /\
  fst (generatePDF working 0 0 initial_system resume_with_toHTML no_options)
  = Threw (PDFGenerationError
             (lit "Failed to generate PDF: string.toHTML is not a function")).
Proof. vm_compute. repeat split. Qed.

End PdfGenerator.

(* ===================================================================== *)
(** * The timestamp remover (src/utils/deterministic-pdf.ts)             *)
(* ===================================================================== *)

Module Timestamps.

Import Normalizer.

(** The regular expressions of [makePDFDeterministic] that look for a PDF
    date have the shape [lead \d{count} [^close]* close]: a literal, then
    exactly [count] decimal digits, then characters other than the closing
    one, then the closing character. *)
Record dated := { lead : bytes; count : nat; close : ascii }.

(** [\d{n}] at the head of [s]: what follows the digits. *)
Fixpoint strip_digits (n : nat) (s : bytes) : option bytes :=
  match n with
  | O => Some s
  | S n' =>
      match s with
      | c :: s' => if JsDate.is_digit c then strip_digits n' s' else None
      | [] => None
      end
  end.

(** A match anchored at the head of [s]: what follows it. *)
Definition match_dated (p : dated) (s : bytes) : option bytes :=
  match strip_key (lead p) s with
  | Some t =>
      match strip_digits (count p) t with
      | Some u =>
          match until_stop (close p) u with
          | Some (_, rest) => Some rest
          | None => None
          end
      | None => None
      end
  | None => None
  end.

Lemma strip_digits_length n : forall s t,
  strip_digits n s = Some t -> length t <= length s.
Proof.
  induction n as [|n IH]; intros s t; simpl.
  - intros [= <-]. lia.
  - destruct s as [|c s]; [discriminate|]. destruct (JsDate.is_digit c); [|discriminate].
    intros H. apply IH in H. simpl. lia.
Qed.

Lemma match_dated_length p s rest :
  match_dated p s = Some rest -> length rest < length s.
Proof.
  unfold match_dated. destruct (strip_key (lead p) s) as [t|] eqn:E; [|discriminate].
  destruct (strip_digits (count p) t) as [u|] eqn:D; [|discriminate].
  destruct (until_stop (close p) u) as [[b r]|] eqn:U; [|discriminate].
  intros [= <-]. apply strip_key_length in E. apply strip_digits_length in D.
  apply until_stop_length in U. lia.
Qed.

(** [String.prototype.replace] with one of these expressions, the global
    flag and a constant replacement. *)
Equations? replace_dated (p : dated) (r : bytes) (s : bytes) : bytes
  by wf (length s) lt :=
  replace_dated p r [] := [];
  replace_dated p r (c :: s') with inspect (match_dated p (c :: s')) => {
    | exist _ (Some rest) e := r ++ replace_dated p r rest;
    | exist _ None _ := c :: replace_dated p r s' }.
Proof.
  apply match_dated_length in e. exact e.
Qed.

Definition CreationDate_stamp : dated :=
  {| lead := lit "/CreationDate (D:"; count := 14; close := ")"%char |}.
Definition ModDate_stamp : dated :=
  {| lead := lit "/ModDate (D:"; count := 14; close := ")"%char |}.
Definition Any_stamp : dated :=
  {| lead := lit "(D:"; count := 14; close := ")"%char |}.

(** [makePDFDeterministic], as a function of the file's content. *)
Definition makePDFDeterministic (pdfString : bytes) : bytes :=
  replace_dated Any_stamp (lit "()")
    (replace_all ID_re []
       (replace_dated ModDate_stamp []
          (replace_dated CreationDate_stamp [] pdfString))).

Example makePDFDeterministic_example :
  makePDFDeterministic
    (lit "<</CreationDate (D:20240102030405Z)/M (D:20240102030405+01'00')/T (D:2024)>>")
  = lit "<</M ()/T (D:2024)>>".
Proof. reflexivity. Qed.

(** ** What the last substitution leaves *)

Lemma replace_dated_nil p r : replace_dated p r [] = [].
Proof. simp replace_dated. reflexivity. Qed.

Lemma replace_dated_hit p r s rest :
  match_dated p s = Some rest ->
  replace_dated p r s = r ++ replace_dated p r rest.
Proof.
  intros H. destruct s as [|c s].
  - apply match_dated_length in H. simpl in H. lia.
  - simp replace_dated.
    destruct (inspect (match_dated p (c :: s))) as [[rest'|] e].
    + assert (rest' = rest) as -> by congruence. reflexivity.
    + congruence.
Qed.

Lemma replace_dated_miss p r c s :
  match_dated p (c :: s) = None ->
  replace_dated p r (c :: s) = c :: replace_dated p r s.
Proof.
  intros H. simp replace_dated.
  destruct (inspect (match_dated p (c :: s))) as [[rest'|] e].
  - congruence.
  - reflexivity.
Qed.

Lemma dated_scan_ind (p : dated) (P : bytes -> Prop) :
  P [] ->
  (forall c s, match_dated p (c :: s) = None -> P s -> P (c :: s)) ->
  (forall s rest, match_dated p s = Some rest -> P rest -> P s) ->
  forall s, P s.
Proof.
  intros Hnil Hmiss Hhit s.
  remember (length s) as n eqn:Hn.
  revert s Hn. induction n as [n IH] using lt_wf_ind. intros s Hn.
  destruct s as [|c s]; [exact Hnil|].
  destruct (match_dated p (c :: s)) as [rest|] eqn:M.
  - apply (Hhit _ _ M). apply (IH (length rest)); [|reflexivity].
    apply match_dated_length in M. lia.
  - apply (Hmiss _ _ M). apply (IH (length s)); [|reflexivity].
    simpl in Hn. lia.
Qed.

Lemma strip_digits_spec n : forall s t,
  strip_digits n s = Some t <->
  exists ds, s = ds ++ t /\ length ds = n /\ forallb JsDate.is_digit ds = true.
Proof.
  induction n as [|n IH]; intros s t; simpl.
  - split.
    + intros [= <-]. exists []. auto.
    + intros (ds & -> & Hl & _). destruct ds; [reflexivity | discriminate].
  - destruct s as [|c s].
    + split; [discriminate|]. intros (ds & E & Hl & _).
      destruct ds; [discriminate | discriminate].
    + destruct (JsDate.is_digit c) eqn:Hc.
      * rewrite IH. split.
        -- intros (ds & -> & Hl & Hd). exists (c :: ds). simpl. rewrite Hc. auto.
        -- intros (ds & E & Hl & Hd). destruct ds as [|c' ds]; [discriminate|].
           simpl in E, Hl, Hd. injection E as <- ->. apply andb_true_iff in Hd.
           exists ds. intuition.
      * split; [discriminate|]. intros (ds & E & Hl & Hd).
        destruct ds as [|c' ds]; [discriminate|].
        simpl in E, Hd. injection E as <- _. rewrite Hc in Hd. discriminate.
Qed.

Lemma match_dated_spec p s rest :
  match_dated p s = Some rest <->
  exists ds b,
    s = lead p ++ ds ++ b ++ close p :: rest /\
    length ds = count p /\ forallb JsDate.is_digit ds = true /\ ~ In (close p) b.
Proof.
  unfold match_dated. split.
  - destruct (strip_key (lead p) s) as [t|] eqn:E; [|discriminate].
    destruct (strip_digits (count p) t) as [u|] eqn:D; [|discriminate].
    destruct (until_stop (close p) u) as [[b r]|] eqn:U; [|discriminate].
    intros [= <-]. apply strip_key_spec in E. apply strip_digits_spec in D.
    apply until_stop_spec in U. destruct D as (ds & -> & Hl & Hd).
    destruct U as [-> Hn]. subst s. exists ds, b. auto.
  - intros (ds & b & -> & Hl & Hd & Hn).
    assert (E : strip_key (lead p) (lead p ++ ds ++ b ++ close p :: rest)
                = Some (ds ++ b ++ close p :: rest)) by (apply strip_key_spec; reflexivity).
    rewrite E.
    assert (D : strip_digits (count p) (ds ++ b ++ close p :: rest)
                = Some (b ++ close p :: rest)) by (apply strip_digits_spec; eauto).
    rewrite D.
    assert (U : until_stop (close p) (b ++ close p :: rest) = Some (b, rest))
      by (apply until_stop_spec; auto).
    rewrite U. reflexivity.
Qed.

Section LastPass.

Local Abbreviation T := (replace_dated Any_stamp (lit "()")).

Definition opening : ascii := "("%char.

(** What the pass copies, it copies in order: a run of the output without
    an opening parenthesis is a run of the input. *)
Lemma copied_run w : forall s o,
  ~ In opening w -> T s = w ++ o -> exists s2, s = w ++ s2 /\ o = T s2.
Proof.
  induction w as [|a w IH]; intros s o Hw E.
  - exists s. auto.
  - destruct s as [|c s].
    + rewrite replace_dated_nil in E. discriminate.
    + destruct (match_dated Any_stamp (c :: s)) as [rest|] eqn:M.
      * rewrite (replace_dated_hit _ _ _ _ M) in E. simpl in E. injection E as E _.
        exfalso. apply Hw. left. symmetry. exact E.
      * rewrite (replace_dated_miss _ _ _ _ M) in E. simpl in E. injection E as <- E.
        destruct (IH s o) as (s2 & -> & ->); [|exact E|].
        -- intros H. apply Hw. right. exact H.
        -- exists s2. auto.
Qed.

(** The pass writes a closing parenthesis only where the input has one. *)
Lemma closing_kept s : In ")"%char (T s) -> In ")"%char s.
Proof.
  revert s. apply (dated_scan_ind Any_stamp (fun s => In ")"%char (T s) -> In ")"%char s)).
  - intros H. rewrite replace_dated_nil in H. destruct H.
  - intros c s M IH H. rewrite (replace_dated_miss _ _ _ _ M) in H.
    destruct H as [H|H]; [left; exact H | right; apply IH, H].
  - intros s rest M _ _. apply match_dated_spec in M.
    destruct M as (ds & b & -> & _). cbn [close Any_stamp].
    apply in_or_app. right. apply in_or_app. right. apply in_or_app. right.
    left. reflexivity.
Qed.

Lemma digits_no_opening ds : forallb JsDate.is_digit ds = true -> ~ In opening ds.
Proof.
  intros H Hin. rewrite forallb_forall in H. specialize (H _ Hin). discriminate.
Qed.

(** Where the input has no timestamp, the output has none. *)
Lemma miss_stays c s :
  match_dated Any_stamp (c :: s) = None -> match_dated Any_stamp (c :: T s) = None.
Proof.
  intros M. destruct (match_dated Any_stamp (c :: T s)) as [rest|] eqn:M'; [|reflexivity].
  exfalso. apply match_dated_spec in M'.
  destruct M' as (ds & b & E & Hl & Hd & Hn). cbn [lead close Any_stamp] in E, Hn.
  cbn [lit list_ascii_of_string app] in E. injection E as -> E.
  change ("D"%char :: ":"%char :: ds ++ b ++ ")"%char :: rest)
    with (("D"%char :: ":"%char :: ds) ++ (b ++ ")"%char :: rest)) in E.
  assert (Hw : ~ In opening ("D"%char :: ":"%char :: ds)).
  { intros [H|[H|H]]; [discriminate | discriminate |].
    exact (digits_no_opening ds Hd H). }
  destruct (copied_run _ s _ Hw E) as (s2 & -> & E2).
  - assert (Hin : In ")"%char s2).
    { apply closing_kept. rewrite <- E2. apply in_or_app. right. left. reflexivity. }
    destruct (until_stop_total _ _ Hin) as (b2 & r2 & U).
    apply until_stop_spec in U. destruct U as [-> Hn2].
    assert (M2 : match_dated Any_stamp
                   ("("%char :: ("D"%char :: ":"%char :: ds) ++ b2 ++ ")"%char :: r2)
                 = Some r2).
    { apply match_dated_spec. exists ds, b2. cbn [lead close Any_stamp].
      split; [reflexivity|]. auto. }
    congruence.
Qed.

Lemma after_opening_fails x rest :
  x <> "D"%char -> match_dated Any_stamp ("("%char :: x :: rest) = None.
Proof.
  intros Hx. unfold match_dated. cbn [lead Any_stamp lit list_ascii_of_string strip_key].
  rewrite Ascii.eqb_refl. destruct (Ascii.eqb_spec "D"%char x); [congruence | reflexivity].
Qed.

Lemma other_head_fails x rest :
  x <> "("%char -> match_dated Any_stamp (x :: rest) = None.
Proof.
  intros Hx. unfold match_dated. cbn [lead Any_stamp lit list_ascii_of_string strip_key].
  destruct (Ascii.eqb_spec "("%char x); [congruence | reflexivity].
Qed.

Lemma last_pass_clean s : forall pre post,
  T s = pre ++ post -> match_dated Any_stamp post = None.
Proof.
  revert s. apply (dated_scan_ind Any_stamp
    (fun s => forall pre post, T s = pre ++ post -> match_dated Any_stamp post = None)).
  - intros pre post E. rewrite replace_dated_nil in E.
    destruct pre; [|discriminate]. simpl in E. subst post. reflexivity.
  - intros c s M IH pre post E. rewrite (replace_dated_miss _ _ _ _ M) in E.
    destruct pre as [|a pre].
    + simpl in E. subst post. apply miss_stays, M.
    + simpl in E. injection E as _ E. exact (IH _ _ E).
  - intros s rest M IH pre post E. rewrite (replace_dated_hit _ _ _ _ M) in E.
    cbn [lit list_ascii_of_string app] in E.
    destruct pre as [|a [|a' pre]].
    + simpl in E. subst post. apply after_opening_fails. discriminate.
    + simpl in E. injection E as _ E. subst post. apply other_head_fails. discriminate.
    + simpl in E. injection E as _ _ E. exact (IH _ _ E).
Qed.

End LastPass.

(** Whatever the artifact, [makePDFDeterministic] leaves no PDF date in it:
    at no position of the result is there a [(D:] followed by fourteen
    digits and, further on, a closing parenthesis. *)
Theorem no_timestamp_left (pdfString pre post : bytes) :
  makePDFDeterministic pdfString = pre ++ post ->
  match_dated Any_stamp post = None.
Proof. unfold makePDFDeterministic. apply last_pass_clean. Qed.

Lemma no_timestamp_left_witness :
  match_dated Any_stamp (lit "()/T (D:2024)>>") = None.
Proof.
  apply (no_timestamp_left
           (lit "<</CreationDate (D:20240102030405Z)/M (D:20240102030405+01'00')/T (D:2024)>>")
           (lit "<</M ")).
  reflexivity.
Defined.

(** ** [formatDeterministicDate] *)

Import JsDate.

Open Scope Z_scope.

(** The fields of a time value in UTC, as the language specification
    defines them. *)
Definition DateFromTime (t : Z) : Z :=
  DayWithinYear t - month_start (InLeapYear (YearFromTime t)) (MonthFromTime t) + 1.

Definition HourFromTime (t : Z) : Z := (t / 3600000) mod 24.
Definition MinFromTime (t : Z) : Z := (t / 60000) mod 60.
Definition SecFromTime (t : Z) : Z := (t / 1000) mod 60.

(** [String.prototype.padStart(2, '0')]. *)
Definition padStart2 (s : bytes) : bytes := repeat "0"%char (2 - length s) ++ s.

(** The time value of [new Date('2024-01-01T00:00:00.000Z')]. *)
Definition fixed_date : Z := 1704067200000.

(** [formatDeterministicDate]: the argument is absent, or is a [Date],
    whose time value is a number or NaN ([None]); a [Date] is always
    truthy, so that only an absent argument gives the fixed date. *)
Definition formatDeterministicDate (date : option (option Z)) : bytes :=
  let d := match date with Some tv => tv | None => Some fixed_date end in
  let field (f : Z -> Z) : bytes :=
    match d with
    | Some t => decimal (f t)
    | None => lit "NaN"
    end in
  let year := field YearFromTime in
  let month := padStart2 (field (fun t => MonthFromTime t + 1)) in
  let day := padStart2 (field DateFromTime) in
  let hours := padStart2 (field HourFromTime) in
  let minutes := padStart2 (field MinFromTime) in
  let seconds := padStart2 (field SecFromTime) in
  lit "D:" ++ year ++ month ++ day ++ hours ++ minutes ++ seconds ++ lit "+00'00'".

Example formatDeterministicDate_default :
  fixed_date = MakeDate (MakeDay 2024 0 1) 0 /\
  formatDeterministicDate None = lit "D:20240101000000+00'00'" /\
  formatDeterministicDate (Some None) = lit "D:NaNNaNNaNNaNNaNNaN+00'00'" /\
  formatDeterministicDate (Some (Some (-1))) = lit "D:19691231235959+00'00'".
Proof. repeat split. Qed.

(** The year of a day. *)
Lemma year_search_bounds d fuel : forall y0,
  DayFromYear y0 <= d -> d < DayFromYear (y0 + Z.of_nat fuel + 1) ->
  DayFromYear (year_search fuel y0 d) <= d < DayFromYear (year_search fuel y0 d + 1).
Proof.
  induction fuel as [|f IH]; intros y0 Hlo Hup; simpl.
  - replace (y0 + Z.of_nat 0 + 1) with (y0 + 1) in Hup by lia. lia.
  - destruct (Z.leb_spec (DayFromYear (y0 + 1)) d) as [L|L].
    + apply IH; [exact L|].
      replace (y0 + 1 + Z.of_nat f + 1) with (y0 + Z.of_nat (S f) + 1) by lia. exact Hup.
    + lia.
Qed.

Lemma YearFromDay_bounds d :
  DayFromYear (YearFromDay d) <= d < DayFromYear (YearFromDay d + 1).
Proof.
  unfold YearFromDay. apply year_search_bounds.
  - unfold year_lower, DayFromYear. destruct (Z.leb_spec 0 d);
      Z.div_mod_to_equations; lia.
  - assert (Hle : year_lower d <= year_upper d).
    { unfold year_lower, year_upper. destruct (Z.leb_spec 0 d);
        Z.div_mod_to_equations; lia. }
    rewrite Z2Nat.id by lia.
    replace (year_lower d + (year_upper d - year_lower d) + 1) with (year_upper d + 1) by lia.
    unfold year_upper, DayFromYear. destruct (Z.leb_spec 0 d);
      Z.div_mod_to_equations; lia.
Qed.

Lemma DayWithinYear_bounds t : 0 <= DayWithinYear t < DaysInYear (YearFromTime t).
Proof.
  unfold DayWithinYear, YearFromTime.
  pose proof (YearFromDay_bounds (Day t)) as H.
  rewrite DayFromYear_step in H. lia.
Qed.

Lemma MonthFromTime_bounds t :
  0 <= MonthFromTime t <= 11 /\
  1 <= DateFromTime t
    <= days_in_month (YearFromTime t) (MonthFromTime t + 1).
Proof.
  pose proof (DayWithinYear_bounds t) as H.
  unfold DateFromTime, days_in_month, MonthFromTime, DaysInYear in *.
  destruct (InLeapYear (YearFromTime t));
    repeat match goal with
           | |- context [Z.ltb ?a ?b] => destruct (Z.ltb_spec a b)
           end; cbn in *; lia.
Qed.

(** Checking a property of the numbers below a bound by running it. *)
Lemma checked_below (f : Z -> bool) (k : nat) (n : Z) :
  forallb f (below k) = true -> 0 <= n < Z.of_nat k -> f n = true.
Proof.
  intros H Hn. rewrite forallb_forall in H. apply H, below_In, Hn.
Qed.

Definition same_bytes (a b : bytes) : bool :=
  if list_eq_dec ascii_dec a b then true else false.

Lemma same_bytes_eq a b : same_bytes a b = true -> a = b.
Proof. unfold same_bytes. destruct (list_eq_dec ascii_dec a b); [auto | discriminate]. Qed.

Lemma decimal_pad4 n : 1000 <= n <= 9999 -> decimal n = pad4 n.
Proof.
  intros H.
  assert (C : (n <? 1000) || same_bytes (decimal n) (pad4 n) = true).
  { apply (checked_below
             (fun n => (n <? 1000) || same_bytes (decimal n) (pad4 n))
             (Z.to_nat 10000) n); [vm_compute; reflexivity | lia]. }
  destruct (Z.ltb_spec n 1000); [lia|]. apply same_bytes_eq, C.
Qed.

Lemma decimal_padStart2 n : 0 <= n <= 99 -> padStart2 (decimal n) = pad2 n.
Proof.
  intros H. apply same_bytes_eq.
  apply (checked_below (fun n => same_bytes (padStart2 (decimal n)) (pad2 n)) 100 n);
    [vm_compute; reflexivity | lia].
Qed.

(** For every time in the years 1000 to 9999 of UTC,
    [formatDeterministicDate] writes [D:], the fourteen digits
    [YYYYMMDDHHmmSS] of a day of the calendar and a time of day, and
    [+00'00']; the digits give the time back, to the second.  The result is
    a PDF date in the sense of [makePDFDeterministic]. *)
Theorem formatDeterministicDate_digits (t : Z) :
  DayFromYear 1000 * msPerDay <= t < DayFromYear 10000 * msPerDay ->
  exists y mo d h mi s,
    formatDeterministicDate (Some (Some t))
    = lit "D:" ++ pad4 y ++ pad2 mo ++ pad2 d ++ pad2 h ++ pad2 mi ++ pad2 s
        ++ lit "+00'00'" /\
    1000 <= y <= 9999 /\ 1 <= mo <= 12 /\ 1 <= d <= days_in_month y mo /\
    0 <= h <= 23 /\ 0 <= mi <= 59 /\ 0 <= s <= 59 /\
    MakeDate (MakeDay y (mo - 1) d) (h * 3600000 + mi * 60000 + s * 1000)
    = t - t mod 1000 /\
    length (formatDeterministicDate (Some (Some t))) = 23%nat /\
    forall rest,
      match_dated Any_stamp
        (lit "(" ++ formatDeterministicDate (Some (Some t)) ++ lit ")" ++ rest)
      = Some rest.
Proof.
  intros Ht.
  set (y := YearFromTime t). set (m := MonthFromTime t). set (d := DateFromTime t).
  set (h := HourFromTime t). set (mi := MinFromTime t). set (s := SecFromTime t).
  pose proof (YearFromDay_bounds (Day t)) as HY. fold (YearFromTime t) in HY. fold y in HY.
  assert (HD : DayFromYear 1000 <= Day t < DayFromYear 10000).
  { unfold Day, msPerDay in *. Z.div_mod_to_equations. lia. }
  assert (Hy : 1000 <= y <= 9999).
  { split.
    - destruct (Z.le_gt_cases 1000 y) as [L|L]; [exact L|].
      pose proof (DayFromYear_mono (y + 1) 1000). lia.
    - destruct (Z.le_gt_cases y 9999) as [L|L]; [exact L|].
      pose proof (DayFromYear_mono 10000 y). lia. }
  destruct (MonthFromTime_bounds t) as [Hm Hd]. fold m in Hm, Hd. fold d in Hd. fold y in Hd.
  assert (Hd31 : d <= 31).
  { pose proof (days_in_month_bound y (m + 1)). lia. }
  assert (Hh : 0 <= h <= 23) by (unfold h, HourFromTime; Z.div_mod_to_equations; lia).
  assert (Hmi : 0 <= mi <= 59) by (unfold mi, MinFromTime; Z.div_mod_to_equations; lia).
  assert (Hs : 0 <= s <= 59) by (unfold s, SecFromTime; Z.div_mod_to_equations; lia).
  assert (E : formatDeterministicDate (Some (Some t))
              = lit "D:" ++ pad4 y ++ pad2 (m + 1) ++ pad2 d ++ pad2 h ++ pad2 mi ++ pad2 s
                  ++ lit "+00'00'").
  { unfold formatDeterministicDate. fold y m d h mi s.
    rewrite (decimal_pad4 y Hy).
    rewrite (decimal_padStart2 (m + 1)), (decimal_padStart2 d), (decimal_padStart2 h),
      (decimal_padStart2 mi), (decimal_padStart2 s) by lia.
    reflexivity. }
  exists y, (m + 1), d, h, mi, s.
  split; [exact E|]. split; [exact Hy|]. split; [lia|]. split; [exact Hd|].
  split; [exact Hh|]. split; [exact Hmi|]. split; [exact Hs|]. split; [|split].
  - replace (m + 1 - 1) with m by lia.
    unfold MakeDay. rewrite Z.div_small, Z.mod_small by lia. rewrite Z.add_0_r.
    unfold d, DateFromTime, DayWithinYear. fold y m.
    unfold MakeDate, h, mi, s, HourFromTime, MinFromTime, SecFromTime, Day, msPerDay.
    Z.div_mod_to_equations. lia.
  - rewrite E. reflexivity.
  - intros rest. rewrite E. apply match_dated_spec.
    exists (pad4 y ++ pad2 (m + 1) ++ pad2 d ++ pad2 h ++ pad2 mi ++ pad2 s),
           (lit "+00'00'").
    destruct (pad4_facts y) as (Y1 & _); [lia|].
    destruct (pad2_facts (m + 1)) as (M1 & _); [lia|].
    destruct (pad2_facts d) as (D1 & _); [lia|].
    destruct (pad2_facts h) as (H1 & _); [lia|].
    destruct (pad2_facts mi) as (I1 & _); [lia|].
    destruct (pad2_facts s) as (S1 & _); [lia|].
    split; [|split; [reflexivity|split]].
    + cbn [lead close Any_stamp]. unfold pad4, pad2. reflexivity.
    + rewrite !forallb_app, Y1, M1, D1, H1, I1, S1. reflexivity.
    + cbn. intros [H|[H|[H|[H|[H|[H|[H|[]]]]]]]]; discriminate.
Qed.

Lemma formatDeterministicDate_digits_witness :
  exists y mo d h mi s,
    formatDeterministicDate (Some (Some 1710503045678))
    = lit "D:" ++ pad4 y ++ pad2 mo ++ pad2 d ++ pad2 h ++ pad2 mi ++ pad2 s
        ++ lit "+00'00'" /\
    MakeDate (MakeDay y (mo - 1) d) (h * 3600000 + mi * 60000 + s * 1000)
    = 1710503045000.
Proof.
  destruct (formatDeterministicDate_digits 1710503045678)
    as (y & mo & d & h & mi & s & E & _ & _ & _ & _ & _ & _ & R & _).
  - vm_compute. split; [discriminate | reflexivity].
  - exists y, mo, d, h, mi, s. split; [exact E | exact R].
Defined.

End Timestamps.

(* ===================================================================== *)
(** * Paths into a resume: the paths of validation messages
      (src/validators/resume-validator.ts) and of the [--set] option
      (src/utils/json-update.ts)                                         *)
(* ===================================================================== *)

Module Paths.

Import JsDate.

Open Scope Z_scope.

(** ** Decimal numerals *)

Definition numeral (d : Decimal.uint) : bytes :=
  list_ascii_of_string (NilEmpty.string_of_uint d).

Lemma numeral_digits d : forallb is_digit (numeral d) = true.
Proof. induction d; simpl; auto. Qed.

Lemma of_uint_acc_value d : forall acc,
  Z.pos (Pos.of_uint_acc d acc)
  = fold_left (fun v c => 10 * v + digit_value c) (numeral d) (Z.pos acc).
Proof.
  induction d; intros acc; cbn [Pos.of_uint_acc numeral NilEmpty.string_of_uint
                                list_ascii_of_string fold_left];
    [reflexivity | ..]; fold (numeral d); rewrite IHd; f_equal;
    match goal with
    | |- _ = _ + digit_value ?c =>
        let v := eval vm_compute in (digit_value c) in
        change (digit_value c) with v
    end; lia.
Qed.

Lemma of_uint_value d : Z.of_N (Pos.of_uint d) = digits_value (numeral d).
Proof.
  unfold digits_value.
  induction d; cbn [Pos.of_uint numeral NilEmpty.string_of_uint
                    list_ascii_of_string fold_left];
    [reflexivity | ..]; fold (numeral d);
    try (cbn [Z.of_N]; rewrite of_uint_acc_value; f_equal).
  exact IHd.
Qed.

(** [Number.prototype.toString] writes digits, and reading them gives the
    number back. *)
Lemma decimal_value n :
  0 <= n ->
  decimal n <> [] /\ forallb is_digit (decimal n) = true /\
  digits_value (decimal n) = n.
Proof.
  intros Hn. destruct n as [|p|p]; [repeat split; discriminate | | lia].
  unfold decimal. cbn [Z.to_int NilZero.string_of_int].
  pose proof (DecimalPos.Unsigned.to_uint_nonnil p) as Hnil.
  assert (E : NilZero.string_of_uint (Pos.to_uint p)
              = NilEmpty.string_of_uint (Pos.to_uint p)).
  { destruct (Pos.to_uint p); [congruence | reflexivity ..]. }
  rewrite E. fold (numeral (Pos.to_uint p)). split; [|split].
  - destruct (Pos.to_uint p); [congruence | discriminate ..].
  - apply numeral_digits.
  - rewrite <- of_uint_value, DecimalPos.Unsigned.of_to. reflexivity.
Qed.

(** ** Segments *)

(** A segment of a path: a property name or an array index. *)
Inductive segment :=
| Key (name : bytes)
| Index (n : Z).

(** ** The path of a validation message *)

(** [path.replace(/^\//, '')]. *)
Definition strip_leading_slash (s : bytes) : bytes :=
  match s with
  | c :: s' => if Ascii.eqb c "/" then s' else s
  | [] => []
  end.

(** [path.replace(/\//g, '.')]. *)
Definition slashes_to_dots (s : bytes) : bytes :=
  map (fun c => if Ascii.eqb c "/" then "."%char else c) s.

Definition starts_with_digit (s : bytes) : bool :=
  match s with
  | c :: _ => is_digit c
  | [] => false
  end.

(** [path.replace(/\.(\d+)/g, '[$1]')], as the scan it is: outside a match,
    a dot followed by a digit opens one; inside, the digits are taken as
    long as there are some, and the match is closed at the first other
    character, which is then looked at as outside. *)
Fixpoint bracket_indices (inside : bool) (s : bytes) : bytes :=
  match s with
  | [] => if inside then ["]"%char] else []
  | c :: s' =>
      if inside && is_digit c then c :: bracket_indices true s'
      else
        (if inside then ["]"%char] else [])
        ++ (if Ascii.eqb c "." && starts_with_digit s'
            then "["%char :: bracket_indices true s'
            else c :: bracket_indices false s')
  end.

(** The path that [validateResumeData] writes in front of each message of
    Ajv, from the [instancePath] of the error. *)
Definition error_path (instancePath : bytes) : bytes :=
  bracket_indices false (slashes_to_dots (strip_leading_slash instancePath)).

Example error_path_example :
  error_path (lit "/work/0/highlights/12") = lit "work[0].highlights[12]" /\
  error_path (lit "/basics/name") = lit "basics.name" /\
  error_path [] = [] /\
  error_path (lit "/basics/2fa") = lit "basics[2]fa".
Proof. repeat split. Qed.

(** ** The path of a [--set] operation *)

(** [part.match(/^([^[]+)\[(\d+)\]$/)]: the name and the digits. *)
Definition array_match (part : bytes) : option (bytes * bytes) :=
  match Normalizer.until_stop "[" part with
  | Some (name, rest) =>
      match name, rest with
      | _ :: _, _ :: _ =>
          if Ascii.eqb (last rest " "%char) "]"
             && negb (Nat.eqb (length (removelast rest)) 0)
             && forallb is_digit (removelast rest)
          then Some (name, removelast rest)
          else None
      | _, _ => None
      end
  | None => None
  end.

(** [parseInt(digits, 10)] on a string of digits.  A number is an integer
    in this model; JavaScript rounds one that is above 2^53. *)
Definition parseInt10 (ds : bytes) : Z := digits_value ds.

Definition parseDotNotation (path : bytes) : list segment :=
  flat_map (fun part =>
              match array_match part with
              | Some (name, ds) => [Key name; Index (parseInt10 ds)]
              | None => [Key part]
              end)
           (split_on "." path).

(** [parseSetOperation]: the path and the value, or the message of the
    error thrown. *)
Definition parseSetOperation (setString : bytes) : bytes + (bytes * bytes) :=
  match Normalizer.until_stop "=" setString with
  | Some (path, value) => inr (path, value)
  | None =>
      inl (lit "Invalid set operation: " ++ setString
           ++ lit ". Expected format: " ++ dq ++ lit "path=value" ++ dq)
  end.

Example parseDotNotation_example :
  parseDotNotation (lit "work[0].position") = [Key (lit "work"); Index 0; Key (lit "position")] /\
  parseDotNotation (lit "a[0][1]") = [Key (lit "a[0][1]")] /\
  parseDotNotation (lit "[0]") = [Key (lit "[0]")] /\
  parseDotNotation [] = [Key []] /\
  parseSetOperation (lit "basics.name=a=b") = inr (lit "basics.name", lit "a=b").
Proof. repeat split. Qed.

(** ** Paths made of names, each followed by at most one index *)

Definition group := (bytes * option Z)%type.

Definition segments (gs : list group) : list segment :=
  flat_map (fun g => Key (fst g) :: match snd g with
                                    | Some n => [Index n]
                                    | None => []
                                    end) gs.

(** The [instancePath] of Ajv for these segments, a JSON pointer: every
    segment after a slash, an index in decimal.  (A name with a slash or a
    tilde would be escaped; such names are left out below.) *)
Definition instancePath (gs : list group) : bytes :=
  flat_map (fun g => "/"%char :: fst g ++ match snd g with
                                          | Some n => "/"%char :: decimal n
                                          | None => []
                                          end) gs.

Definition group_text (g : group) : bytes :=
  fst g ++ match snd g with
           | Some n => "["%char :: decimal n ++ ["]"%char]
           | None => []
           end.

(** The dot notation: [work[0].position]. *)
Fixpoint dot_path (gs : list group) : bytes :=
  match gs with
  | [] => []
  | [g] => group_text g
  | g :: gs' => group_text g ++ "."%char :: dot_path gs'
  end.

Definition without (c : ascii) (s : bytes) : bool := negb (existsb (Ascii.eqb c) s).

(** A name that the two conversions leave alone: no slash, tilde, dot or
    bracket in it, and no digit at its start. *)
Definition plain_name (k : bytes) : bool :=
  without "/" k && without "~" k && without "." k && without "[" k
  && negb (starts_with_digit k).

Definition plain_group (g : group) : bool :=
  plain_name (fst g)
  && match snd g with
     | Some n => (0 <=? n) && (n <? 2 ^ 53) && negb (Nat.eqb (length (fst g)) 0)
     | None => true
     end.

Lemma without_spec c s : without c s = true <-> ~ In c s.
Proof.
  unfold without. rewrite negb_true_iff. split.
  - intros H Hin. assert (E : existsb (Ascii.eqb c) s = true).
    { apply existsb_exists. exists c. split; [exact Hin | apply Ascii.eqb_refl]. }
    congruence.
  - intros H. destruct (existsb (Ascii.eqb c) s) eqn:E; [|reflexivity].
    apply existsb_exists in E. destruct E as (x & Hx & E).
    apply Ascii.eqb_eq in E. subst x. contradiction.
Qed.

Lemma digits_without c s :
  is_digit c = false -> forallb is_digit s = true -> ~ In c s.
Proof.
  intros Hc Hs Hin. rewrite forallb_forall in Hs. specialize (Hs c Hin). congruence.
Qed.

Lemma plain_name_inv k :
  plain_name k = true ->
  ~ In "/"%char k /\ ~ In "."%char k /\ ~ In "["%char k /\ starts_with_digit k = false.
Proof.
  unfold plain_name. rewrite !andb_true_iff, negb_true_iff, !without_spec. tauto.
Qed.

(** *** From the pointer to the dot notation *)

Lemma slashes_to_dots_plain s : ~ In "/"%char s -> slashes_to_dots s = s.
Proof.
  unfold slashes_to_dots. induction s as [|c s IH]; simpl; [reflexivity|].
  intros H. destruct (Ascii.eqb_spec c "/") as [->|N].
  - exfalso. apply H. left. reflexivity.
  - rewrite IH; [reflexivity|]. intros Hin. apply H. right. exact Hin.
Qed.

(** The pointer with dots for slashes. *)
Definition dotted (gs : list group) : bytes :=
  flat_map (fun g => "."%char :: fst g ++ match snd g with
                                          | Some n => "."%char :: decimal n
                                          | None => []
                                          end) gs.

Lemma decimal_no_slash n : 0 <= n -> ~ In "/"%char (decimal n).
Proof. intros H. apply digits_without; [reflexivity | apply decimal_value, H]. Qed.

Lemma dotted_of_pointer gs :
  forallb plain_group gs = true -> slashes_to_dots (instancePath gs) = dotted gs.
Proof.
  induction gs as [|[k i] gs IH]; simpl; [reflexivity|].
  intros H. apply andb_true_iff in H. destruct H as [Hg Hgs].
  unfold plain_group in Hg. cbn [fst snd] in Hg. apply andb_true_iff in Hg.
  destruct Hg as [Hk Hi]. apply plain_name_inv in Hk. destruct Hk as (Hs & _).
  unfold slashes_to_dots in *. rewrite !map_app. fold (slashes_to_dots k).
  rewrite (slashes_to_dots_plain k Hs). rewrite (IH Hgs).
  destruct i as [n|]; [|reflexivity].
  cbn [map]. fold (slashes_to_dots (decimal n)).
  rewrite slashes_to_dots_plain; [reflexivity|].
  apply decimal_no_slash. rewrite !andb_true_iff in Hi. lia.
Qed.

Lemma bracket_name k rest :
  ~ In "."%char k -> bracket_indices false (k ++ rest) = k ++ bracket_indices false rest.
Proof.
  induction k as [|c k IH]; intros H; [reflexivity|].
  cbn [app bracket_indices andb].
  destruct (Ascii.eqb_spec c ".") as [->|N].
  - exfalso. apply H. left. reflexivity.
  - cbn [andb app]. rewrite IH; [reflexivity|]. intros Hin. apply H. right. exact Hin.
Qed.

Lemma bracket_digits ds rest :
  forallb is_digit ds = true ->
  bracket_indices true (ds ++ rest) = ds ++ bracket_indices true rest.
Proof.
  induction ds as [|c ds IH]; intros H; [reflexivity|].
  simpl in H. apply andb_true_iff in H. destruct H as [Hc Hd].
  cbn [app bracket_indices]. rewrite Hc. cbn [andb]. rewrite (IH Hd). reflexivity.
Qed.

Lemma bracket_close rest :
  starts_with_digit rest = false ->
  bracket_indices true rest = "]"%char :: bracket_indices false rest.
Proof.
  destruct rest as [|c rest]; [reflexivity|]. cbn [starts_with_digit].
  intros Hc. cbn [bracket_indices]. rewrite Hc. reflexivity.
Qed.

Lemma dotted_head gs : starts_with_digit (dotted gs) = false.
Proof. destruct gs as [|[k i] gs]; reflexivity. Qed.

Lemma starts_with_digit_app k rest :
  starts_with_digit k = false -> starts_with_digit rest = false ->
  starts_with_digit (k ++ rest) = false.
Proof. destruct k; simpl; auto. Qed.

Lemma bracket_group k i gs :
  plain_group (k, i) = true ->
  bracket_indices false (k ++ match i with
                              | Some n => "."%char :: decimal n
                              | None => []
                              end ++ dotted gs)
  = group_text (k, i) ++ bracket_indices false (dotted gs).
Proof.
  unfold plain_group. cbn [fst snd]. intros H. apply andb_true_iff in H.
  destruct H as [Hk Hi]. apply plain_name_inv in Hk. destruct Hk as (_ & Hd & _ & _).
  rewrite (bracket_name k _ Hd). unfold group_text. cbn [fst snd].
  rewrite <- app_assoc. f_equal.
  destruct i as [n|]; [|reflexivity].
  rewrite !andb_true_iff in Hi. destruct Hi as [[Hn _] _].
  destruct (decimal_value n) as (Hne & Hdig & _); [lia|].
  cbn [app bracket_indices andb].
  assert (Hs : starts_with_digit (decimal n ++ dotted gs) = true).
  { destruct (decimal n) as [|c ds]; [congruence|]. simpl in Hdig.
    apply andb_true_iff in Hdig. apply Hdig. }
  rewrite Hs. cbn [andb app]. rewrite (bracket_digits _ _ Hdig).
  rewrite (bracket_close _ (dotted_head gs)). rewrite <- app_assoc. reflexivity.
Qed.

Lemma bracket_dotted gs :
  forallb plain_group gs = true ->
  bracket_indices false (dotted gs)
  = flat_map (fun g => "."%char :: group_text g) gs.
Proof.
  induction gs as [|[k i] gs IH]; intros H; [reflexivity|].
  simpl in H. apply andb_true_iff in H. destruct H as [Hg Hgs].
  cbn [dotted flat_map fst snd app]. fold (dotted gs).
  cbn [bracket_indices andb].
  assert (Hs : starts_with_digit
                 ((k ++ match i with
                        | Some n => "."%char :: decimal n
                        | None => []
                        end) ++ dotted gs) = false).
  { pose proof Hg as Hg'. unfold plain_group in Hg'. cbn [fst snd] in Hg'.
    apply andb_true_iff in Hg'. destruct Hg' as [Hk _].
    apply plain_name_inv in Hk. destruct Hk as (_ & _ & _ & Hk).
    rewrite <- app_assoc. apply starts_with_digit_app; [exact Hk|].
    destruct i; [reflexivity | apply dotted_head]. }
  rewrite Hs. cbn [andb app]. rewrite <- app_assoc.
  rewrite (bracket_group k i gs Hg), (IH Hgs). reflexivity.
Qed.

Lemma dot_path_flat g gs :
  "."%char :: dot_path (g :: gs) = flat_map (fun g => "."%char :: group_text g) (g :: gs).
Proof.
  revert g. induction gs as [|g' gs IH]; intros g.
  - simpl. rewrite app_nil_r. reflexivity.
  - cbn [dot_path flat_map]. cbn [flat_map] in IH. rewrite <- IH.
    cbn [app]. reflexivity.
Qed.

Lemma error_path_dot_path g gs :
  forallb plain_group (g :: gs) = true ->
  error_path (instancePath (g :: gs)) = dot_path (g :: gs).
Proof.
  intros H. unfold error_path.
  assert (E : slashes_to_dots (strip_leading_slash (instancePath (g :: gs)))
              = tl (dotted (g :: gs))).
  { rewrite <- (dotted_of_pointer _ H). destruct g as [k i]. reflexivity. }
  rewrite E.
  pose proof (bracket_dotted (g :: gs) H) as B.
  rewrite <- dot_path_flat in B.
  destruct g as [k i]. cbn [dotted flat_map fst snd app tl] in *. fold (dotted gs) in *.
  cbn [bracket_indices andb] in B.
  assert (Hs : starts_with_digit
                 ((k ++ match i with
                        | Some n => "."%char :: decimal n
                        | None => []
                        end) ++ dotted gs) = false).
  { simpl in H. apply andb_true_iff in H. destruct H as [Hg _].
    unfold plain_group in Hg. cbn [fst snd] in Hg.
    apply andb_true_iff in Hg. destruct Hg as [Hk _].
    apply plain_name_inv in Hk. destruct Hk as (_ & _ & _ & Hk).
    rewrite <- app_assoc. apply starts_with_digit_app; [exact Hk|].
    destruct i; [reflexivity | apply dotted_head]. }
  rewrite Hs in B. cbn [andb app] in B. injection B as B. exact B.
Qed.

(** *** From the dot notation to the segments *)

Lemma until_stop_none c s : ~ In c s -> Normalizer.until_stop c s = None.
Proof.
  intros H. destruct (Normalizer.until_stop c s) as [[b r]|] eqn:E; [|reflexivity].
  apply Normalizer.until_stop_sound in E. destruct E as [-> _].
  exfalso. apply H. apply in_or_app. right. left. reflexivity.
Qed.

Lemma array_match_name k :
  ~ In "["%char k -> array_match k = None.
Proof. intros H. unfold array_match. rewrite (until_stop_none _ _ H). reflexivity. Qed.

Lemma array_match_indexed k n :
  ~ In "["%char k -> k <> [] -> 0 <= n ->
  array_match (k ++ "["%char :: decimal n ++ ["]"%char]) = Some (k, decimal n).
Proof.
  intros Hk Hne Hn. unfold array_match.
  rewrite (Normalizer.until_stop_complete _ _ _ Hk).
  destruct (decimal_value n Hn) as (Hd0 & Hdig & _).
  destruct k as [|c k]; [congruence|].
  destruct (decimal n ++ ["]"%char]) as [|x xs] eqn:E.
  { destruct (decimal n); discriminate. }
  rewrite <- E. rewrite removelast_last, last_last. rewrite Hdig.
  destruct (decimal n); [congruence | reflexivity].
Qed.

Lemma group_text_no_dot g : plain_group g = true -> existsb (fun c => Ascii.eqb c ".") (group_text g) = false.
Proof.
  destruct g as [k i]. unfold plain_group, group_text. cbn [fst snd]. intros H.
  apply andb_true_iff in H. destruct H as [Hk Hi].
  apply plain_name_inv in Hk. destruct Hk as (_ & Hd & _ & _).
  assert (G : forall s, ~ In "."%char s -> existsb (fun c => Ascii.eqb c ".") s = false).
  { intros s Hs. destruct (existsb _ s) eqn:E; [|reflexivity].
    apply existsb_exists in E. destruct E as (x & Hx & E).
    apply Ascii.eqb_eq in E. subst x. contradiction. }
  apply G. intros Hin. apply in_app_or in Hin. destruct Hin as [Hin|Hin]; [exact (Hd Hin)|].
  destruct i as [n|]; [|destruct Hin].
  rewrite !andb_true_iff in Hi. destruct Hi as [[Hn _] _].
  destruct Hin as [Hin|Hin]; [discriminate|].
  apply in_app_or in Hin. destruct Hin as [Hin|[Hin|[]]]; [|discriminate].
  revert Hin. apply digits_without; [reflexivity | apply decimal_value; lia].
Qed.

Lemma split_dot_path gs :
  forallb plain_group gs = true -> gs <> [] ->
  split_on "." (dot_path gs) = map group_text gs.
Proof.
  induction gs as [|g gs IH]; intros H Hne; [congruence|].
  simpl in H. apply andb_true_iff in H. destruct H as [Hg Hgs].
  destruct gs as [|g' gs].
  - cbn [dot_path map]. apply split_on_plain, group_text_no_dot, Hg.
  - change (dot_path (g :: g' :: gs)) with (group_text g ++ "."%char :: dot_path (g' :: gs)).
    rewrite (split_on_app "." _ _ (group_text_no_dot g Hg)).
    rewrite (IH Hgs) by discriminate. reflexivity.
Qed.

Lemma parse_group g :
  plain_group g = true ->
  match array_match (group_text g) with
  | Some (name, ds) => [Key name; Index (parseInt10 ds)]
  | None => [Key (group_text g)]
  end
  = Key (fst g) :: match snd g with
                   | Some n => [Index n]
                   | None => []
                   end.
Proof.
  destruct g as [k i]. unfold plain_group, group_text. cbn [fst snd]. intros H.
  apply andb_true_iff in H. destruct H as [Hk Hi].
  apply plain_name_inv in Hk. destruct Hk as (_ & _ & Hb & _).
  destruct i as [n|].
  - rewrite !andb_true_iff in Hi. destruct Hi as [[Hn _] Hl].
    assert (Hne : k <> []) by (destruct k; [discriminate | discriminate]).
    rewrite (array_match_indexed k n Hb Hne) by lia.
    unfold parseInt10. destruct (decimal_value n) as (_ & _ & ->); [lia|]. reflexivity.
  - rewrite app_nil_r. rewrite (array_match_name k Hb). reflexivity.
Qed.

Lemma parse_dot_path gs :
  forallb plain_group gs = true -> gs <> [] ->
  parseDotNotation (dot_path gs) = segments gs.
Proof.
  intros H Hne. unfold parseDotNotation, segments. rewrite (split_dot_path gs H Hne).
  clear Hne. induction gs as [|g gs IH]; [reflexivity|].
  simpl in H. apply andb_true_iff in H. destruct H as [Hg Hgs].
  cbn [map flat_map]. rewrite (parse_group g Hg), (IH Hgs). reflexivity.
Qed.

(** ** The two conversions agree *)

(** For every path made of plain names, each followed by at most one
    index below 2^53: the path that [validateResumeData] writes for it is
    its dot notation, and [parseDotNotation] reads that path back into the
    segments of the pointer.  A path reported by the validator can be given
    to [--set] as it is. *)
Theorem error_path_round_trip (g : group) (gs : list group) :
  forallb plain_group (g :: gs) = true ->
  error_path (instancePath (g :: gs)) = dot_path (g :: gs) /\
  parseDotNotation (error_path (instancePath (g :: gs))) = segments (g :: gs).
Proof.
  intros H. rewrite (error_path_dot_path g gs H). split; [reflexivity|].
  apply parse_dot_path; [exact H | discriminate].
Qed.

Lemma error_path_round_trip_witness :
  error_path (lit "/work/0/highlights/12") = lit "work[0].highlights[12]" /\
  parseDotNotation (error_path (lit "/work/0/highlights/12"))
  = [Key (lit "work"); Index 0; Key (lit "highlights"); Index 12].
Proof.
  apply (error_path_round_trip (lit "work", Some 0) [(lit "highlights", Some 12)]).
  reflexivity.
Defined.

Lemma group_text_equals g :
  plain_group g = true -> without "=" (fst g) = true -> ~ In "="%char (group_text g).
Proof.
  destruct g as [k i]. unfold plain_group, group_text. cbn [fst snd].
  intros H He Hin. apply without_spec in He.
  apply in_app_or in Hin. destruct Hin as [Hin|Hin]; [exact (He Hin)|].
  destruct i as [n|]; [|destruct Hin].
  rewrite !andb_true_iff in H.
  destruct Hin as [Hin|Hin]; [discriminate|].
  apply in_app_or in Hin. destruct Hin as [Hin|[Hin|[]]]; [|discriminate].
  revert Hin. apply digits_without; [reflexivity | apply decimal_value; lia].
Qed.

Lemma dot_path_equals gs :
  forallb plain_group gs = true ->
  forallb (fun g => without "=" (fst g)) gs = true ->
  ~ In "="%char (dot_path gs).
Proof.
  induction gs as [|g gs IH]; intros H He; [intros []|].
  simpl in H, He. apply andb_true_iff in H. destruct H as [Hg Hgs].
  apply andb_true_iff in He. destruct He as [Heg Hegs].
  destruct gs as [|g' gs].
  - cbn [dot_path]. apply group_text_equals; assumption.
  - change (dot_path (g :: g' :: gs))
      with (group_text g ++ "."%char :: dot_path (g' :: gs)).
    intros Hin. apply in_app_or in Hin. destruct Hin as [Hin|[Hin|Hin]].
    + exact (group_text_equals g Hg Heg Hin).
    + discriminate.
    + exact (IH Hgs Hegs Hin).
Qed.

(** A [--set] operation is cut at its first equals sign: for a path without
    one (a path of plain names and indices, here) and every value, equals
    signs in the value included, [parseSetOperation] gives the path and the
    value, and [parseDotNotation] the segments of the path; a string
    without an equals sign is refused. *)
Theorem set_operation_round_trip (g : group) (gs : list group) (value : bytes) :
  forallb plain_group (g :: gs) = true ->
  forallb (fun g => without "=" (fst g)) (g :: gs) = true ->
  parseSetOperation (dot_path (g :: gs) ++ "="%char :: value)
  = inr (dot_path (g :: gs), value) /\
  parseDotNotation (dot_path (g :: gs)) = segments (g :: gs) /\
  forall s, ~ In "="%char s -> exists message, parseSetOperation s = inl message.
Proof.
  intros H He. split; [|split].
  - unfold parseSetOperation.
    rewrite (Normalizer.until_stop_complete _ _ _ (dot_path_equals _ H He)).
    reflexivity.
  - apply parse_dot_path; [exact H | discriminate].
  - intros s Hs. unfold parseSetOperation. rewrite (until_stop_none _ _ Hs). eauto.
Qed.

Lemma set_operation_round_trip_witness :
  parseSetOperation (lit "work[0].position=a=b") = inr (lit "work[0].position", lit "a=b") /\
  parseDotNotation (lit "work[0].position")
  = [Key (lit "work"); Index 0; Key (lit "position")].
Proof.
  destruct (set_operation_round_trip (lit "work", Some 0) [(lit "position", None)]
              (lit "a=b")) as (H1 & H2 & _); [reflexivity | reflexivity |].
  split; [exact H1 | exact H2].
Defined.

End Paths.

(* ===================================================================== *)
(** * The errors and their suggestions (src/utils/errors.ts,
      src/utils/error-handler.ts)                                        *)
(* ===================================================================== *)

Module Errors.

Record ErrorSuggestion := {
  action : bytes;
  command : option bytes;
  explanation : option bytes
}.

Record ResumeGeneratorError := {
  message : bytes;
  code : string;
  isCatastrophic : bool;
  suggestions : list ErrorSuggestion
}.

(** [String.prototype.includes] and [String.prototype.endsWith]. *)
Fixpoint includes (needle s : bytes) : bool :=
  Normalizer.starts_with needle s
  || match s with
     | [] => false
     | _ :: s' => includes needle s'
     end.

Definition endsWith (suffix s : bytes) : bool :=
  Normalizer.starts_with (rev suffix) (rev s).

(** An optional string that is given and not empty. *)
Definition given (o : option bytes) : option bytes :=
  match o with
  | Some (c :: s) => Some (c :: s)
  | _ => None
  end.

Definition quoted (s : bytes) : bytes := dq ++ s ++ dq.

(** [FileSystemError.generateSuggestions]. *)
Definition file_system_suggestions (message : bytes) (filePath : option bytes)
  : list ErrorSuggestion :=
  (if includes (lit "ENOENT") message || includes (lit "not found") message
   then
     {| action := lit "Check if the file path is correct";
        command := None;
        explanation :=
          Some (match given filePath with
                | Some p => lit "Verify that " ++ quoted p ++ lit " exists and is accessible"
                | None => lit "Verify the file path exists"
                end) |}
     :: (if match filePath with
            | Some p => endsWith (lit ".json") p
            | None => false
            end
         then [{| action := lit "Create the file if it doesn't exist";
                  command := Some (lit "resume-pdf init --example > resume.json");
                  explanation := Some (lit "Generate a sample resume JSON file") |}]
         else [])
   else [])
  ++ (if includes (lit "EACCES") message || includes (lit "permission") message
         || includes (lit "Permission denied") message
         || includes (lit "Access denied") message
      then [{| action := lit "Check file permissions";
               command :=
                 Some (match given filePath with
                       | Some p => lit "ls -la " ++ quoted p
                       | None => lit "ls -la"
                       end);
               explanation :=
                 Some (match given filePath with
                       | Some p =>
                           lit "Ensure you have read/write permissions for " ++ quoted p
                       | None =>
                           lit "Ensure you have read/write permissions for the file"
                       end) |}]
      else [])
  ++ (if includes (lit "ENOSPC") message || includes (lit "space") message
      then [{| action := lit "Free up disk space";
               command := Some (lit "df -h");
               explanation :=
                 Some (lit "Check available disk space and clean up if necessary") |}]
      else []).

(** [new FileSystemError(message, isCatastrophic, filePath)]. *)
Definition FileSystemError (message : bytes) (isCatastrophic : bool)
    (filePath : option bytes) : ResumeGeneratorError :=
  {| message := message; code := "FILESYSTEM_ERROR"; isCatastrophic := isCatastrophic;
     suggestions := file_system_suggestions message filePath |}.

(** [PDFGenerationError.generateSuggestions]; the context is not looked
    at. *)
Definition pdf_generation_suggestions (message : bytes) : list ErrorSuggestion :=
  (if includes (lit "browser") message || includes (lit "chromium") message
   then [{| action := lit "Install Playwright browsers";
            command := Some (lit "npx playwright install chromium");
            explanation :=
              Some (lit "PDF generation requires Playwright browser binaries") |}]
   else [])
  ++ (if includes (lit "timeout") message
      then [{| action := lit "Try with a simpler template";
               command := Some (lit "resume-pdf generate resume.json --ats-mode");
               explanation :=
                 Some (lit "ATS mode uses minimal styling and loads faster") |}]
      else [])
  ++ (if includes (lit "memory") message || includes (lit "heap") message
      then [{| action := lit "Increase Node.js memory limit";
               command :=
                 Some (lit "node --max-old-space-size=4096 resume-pdf generate resume.json");
               explanation := Some (lit "Allocate more memory for PDF generation") |}]
      else [])
  ++ [{| action := lit "Validate your JSON first";
         command := Some (lit "resume-pdf validate resume.json");
         explanation :=
           Some (lit "Ensure your resume data is valid before PDF generation") |}].

(** [new PDFGenerationError(message)]. *)
Definition PDFGenerationError (message : bytes) : ResumeGeneratorError :=
  {| message := message; code := "PDF_GENERATION_ERROR"; isCatastrophic := false;
     suggestions := pdf_generation_suggestions message |}.

(** [getExitCode] on an error of these classes. *)
Definition getExitCode (error : ResumeGeneratorError) : Z :=
  if isCatastrophic error then 2%Z else 1%Z.

(** The object that [generatePDF] throws from its catch block. *)
Definition thrown_by_catch (e : PdfGenerator.thrown) : option ResumeGeneratorError :=
  match e with
  | PdfGenerator.FileSystemError m => Some (FileSystemError m false None)
  | PdfGenerator.PDFGenerationError m => Some (PDFGenerationError m)
  | PdfGenerator.ValidationError => None
  end.

(** The words that [FileSystemError] looks for in its message. *)
Definition advice_words : list bytes :=
  map lit ["ENOENT"; "not found"; "EACCES"; "permission"; "Permission denied";
           "Access denied"; "ENOSPC"; "space"]%string.

Example suggestions_example :
  map action (suggestions (FileSystemError (lit "ENOENT: no such file") false
                             (Some (lit "cv.json"))))
  = [lit "Check if the file path is correct"; lit "Create the file if it doesn't exist"] /\
  suggestions (FileSystemError (lit "Cannot write to output path: /tmp/cv.pdf") false None)
  = [] /\
  map action (suggestions
                (FileSystemError (lit "Cannot write to output path: /my space/cv.pdf")
                   false None))
  = [lit "Free up disk space"].
Proof. repeat split. Qed.

(** ** The message of a write failure holds no cause *)

Lemma starts_with_clash w s rest :
  Handlebars.clash w s = true -> Normalizer.starts_with w (s ++ rest) = false.
Proof.
  intros H. unfold Normalizer.starts_with.
  destruct (Normalizer.strip_key w (s ++ rest)) as [t|] eqn:E; [|reflexivity].
  apply Normalizer.strip_key_spec in E.
  exfalso. exact (Handlebars.clash_spec w s rest t H E).
Qed.

(** A word that cannot begin inside [pre] is in [pre ++ s] only if it is
    in [s]. *)
Lemma includes_after w pre s :
  Handlebars.clear_of w pre = true -> includes w (pre ++ s) = includes w s.
Proof.
  induction pre as [|a pre IH]; intros H; [reflexivity|].
  cbn [Handlebars.clear_of] in H. apply andb_true_iff in H. destruct H as [Hc Hrest].
  cbn [app includes].
  change (a :: pre ++ s) with ((a :: pre) ++ s).
  rewrite (starts_with_clash w (a :: pre) s Hc). cbn [orb]. apply IH, Hrest.
Qed.

Lemma catch_message env now now' sys data options m :
  fst (PdfGenerator.generatePDF env now now' sys data options)
  = PdfGenerator.Threw (PdfGenerator.FileSystemError m) ->
  m = lit "Cannot write to output path: " ++ PdfGenerator.outputPath_of options.
Proof.
  unfold PdfGenerator.generatePDF.
  destruct (negb _); [discriminate|].
  destruct (PdfGenerator.try_block env now now' sys data options) as [[[e|p] sys'] pg];
    cbn [fst]; [|discriminate].
  unfold PdfGenerator.on_error. destruct (_ || _); [|discriminate].
  intros [= <-]. reflexivity.
Qed.

(** The FileSystemError that [generatePDF] throws is made from the output
    path alone: the code of the error that was caught is not in its message.
    So unless the output path itself holds one of the words that
    [FileSystemError] looks for, the error carries no suggestion; and it is
    never catastrophic (exit code 1). *)
Theorem write_failure_without_advice (env : PdfGenerator.environment) (now now' : Z)
    (sys : PdfGenerator.system) (resumeData : json)
    (options : HtmlGenerator.PDFOptions) (m : bytes) :
  fst (PdfGenerator.generatePDF env now now' sys resumeData options)
  = PdfGenerator.Threw (PdfGenerator.FileSystemError m) ->
  forallb (fun w => negb (includes w (PdfGenerator.outputPath_of options))) advice_words
  = true ->
  exists error,
    thrown_by_catch (PdfGenerator.FileSystemError m) = Some error /\
    suggestions error = [] /\ getExitCode error = 1%Z.
Proof.
  intros Hthrown Hwords. apply catch_message in Hthrown. subst m.
  eexists. split; [reflexivity|]. split; [|reflexivity].
  cbn [suggestions FileSystemError]. unfold file_system_suggestions.
  assert (G : forall w, In w advice_words ->
              includes w (lit "Cannot write to output path: "
                          ++ PdfGenerator.outputPath_of options) = false).
  { intros w Hw. rewrite forallb_forall in Hwords. specialize (Hwords w Hw).
    apply negb_true_iff in Hwords.
    rewrite includes_after; [exact Hwords|].
    unfold advice_words in Hw. cbn [map In] in Hw.
    repeat (destruct Hw as [<-|Hw]; [vm_compute; reflexivity|]). destruct Hw. }
  unfold advice_words in G. cbn [map In] in G.
  rewrite !G by auto 10. reflexivity.
Qed.

Lemma write_failure_without_advice_witness :
  exists error,
    thrown_by_catch
      (PdfGenerator.FileSystemError (lit "Cannot write to output path: resume.pdf"))
    = Some error /\
    suggestions error = [] /\ getExitCode error = 1%Z.
Proof.
  apply (write_failure_without_advice PdfGenerator.missing_directory 0 0
           PdfGenerator.initial_system HtmlGenerator.sample_resume
           HtmlGenerator.no_options).
  - vm_compute. reflexivity.
  - vm_compute. reflexivity.
Defined.

(** ** Reading a resume file (src/validators/resume-validator.ts) *)

(** [message.match(/word(\d+)/)] and [parseInt] of the digits: the number
    after the first place where [word] is followed by a digit.  ([word] is
    [line ] or [column ], with its space.) *)
Fixpoint leading_digits (s : bytes) : bytes :=
  match s with
  | c :: s' => if JsDate.is_digit c then c :: leading_digits s' else []
  | [] => []
  end.

Fixpoint number_after (word s : bytes) : option Z :=
  match match Normalizer.strip_key word s with
        | Some rest =>
            match leading_digits rest with
            | [] => None
            | ds => Some (JsDate.digits_value ds)
            end
        | None => None
        end with
  | Some n => Some n
  | None => match s with
            | [] => None
            | _ :: s' => number_after word s'
            end
  end.

Definition truthy_number (n : option Z) : bool :=
  match n with
  | Some n => negb (Z.eqb n 0)
  | None => false
  end.

(** The message that the constructor of [ValidationError] builds. *)
Definition validation_message (message : bytes) (lineNumber columnNumber : option Z)
  : bytes :=
  message
  ++ match lineNumber with
     | Some l =>
         lit " at line " ++ JsDate.decimal l
         ++ match columnNumber with
            | Some c => lit ", column " ++ JsDate.decimal c
            | None => []
            end
     | None => []
     end.

(** The message of the [ValidationError] that [validateResumeJSON] throws
    for a text that [JSON.parse] refuses with the given message. *)
Definition invalid_json_message (syntaxError : bytes) : bytes :=
  let lineNumber := number_after (lit "line ") syntaxError in
  let columnNumber := number_after (lit "column ") syntaxError in
  let message :=
    lit "Invalid JSON format"
    ++ (if truthy_number lineNumber
        then lit " at line "
             ++ JsDate.decimal (match lineNumber with Some l => l | None => 0%Z end)
             ++ (if truthy_number columnNumber
                 then lit ", column "
                      ++ JsDate.decimal
                           (match columnNumber with Some c => c | None => 0%Z end)
                 else [])
        else []) in
  validation_message message lineNumber columnNumber.

Example invalid_json_message_example :
  invalid_json_message (lit "Unexpected token } in JSON at position 15")
  = lit "Invalid JSON format" /\
  invalid_json_message (lit "Expected ',' after property value in JSON at line 3 column 5")
  = lit "Invalid JSON format at line 3, column 5 at line 3, column 5".
Proof. repeat split. Qed.

(** When the message of [JSON.parse] names a line and a column other than
    0 (and below 2^53, where [parseInt] is exact), the message of the
    [ValidationError] names them twice: once as [validateResumeJSON] writes
    them, once more as the constructor does. *)
Theorem invalid_json_position_twice (syntaxError : bytes) (l c : Z) :
  number_after (lit "line ") syntaxError = Some l -> l <> 0%Z -> (l < 2 ^ 53)%Z ->
  number_after (lit "column ") syntaxError = Some c -> c <> 0%Z -> (c < 2 ^ 53)%Z ->
  let position := lit " at line " ++ JsDate.decimal l
                  ++ lit ", column " ++ JsDate.decimal c in
  invalid_json_message syntaxError = lit "Invalid JSON format" ++ position ++ position.
Proof.
  intros Hl Hl0 _ Hc Hc0 _ position. unfold invalid_json_message, validation_message.
  rewrite Hl, Hc. cbn [truthy_number].
  destruct (Z.eqb_spec l 0); [contradiction|].
  destruct (Z.eqb_spec c 0); [contradiction|].
  cbn [negb]. unfold position. rewrite <- !app_assoc. reflexivity.
Qed.

Lemma invalid_json_position_twice_witness :
  invalid_json_message (lit "Expected ',' after property value in JSON at line 3 column 5")
  = lit "Invalid JSON format"
      ++ (lit " at line " ++ JsDate.decimal 3 ++ lit ", column " ++ JsDate.decimal 5)
      ++ (lit " at line " ++ JsDate.decimal 3 ++ lit ", column " ++ JsDate.decimal 5).
Proof.
  apply (invalid_json_position_twice
           (lit "Expected ',' after property value in JSON at line 3 column 5") 3 5);
    first [reflexivity | discriminate].
Defined.

(** How [fs.readFileSync] ends. *)
Inductive read_result :=
| Content (text : bytes)
| ReadError (code : option string) (message : bytes).

(** What [validateResumeFile] throws when the file cannot be read: a
    [FileSystemError] for the codes ENOENT and EACCES, and the error of the
    host as it is ([None]) for every other one. *)
Definition read_failure (filePath : bytes) (code : option string)
  : option ResumeGeneratorError :=
  match code with
  | Some c =>
      if String.eqb c "ENOENT"
      then Some (FileSystemError (lit "File not found: " ++ filePath) false (Some filePath))
      else if String.eqb c "EACCES"
      then Some (FileSystemError (lit "Permission denied: " ++ filePath) false
                   (Some filePath))
      else None
  | None => None
  end.

Lemma includes_here w s : includes w (w ++ s) = true.
Proof.
  destruct w as [|a w]; [destruct s; reflexivity|]. cbn [app includes].
  assert (E : Normalizer.starts_with (a :: w) (a :: w ++ s) = true).
  { apply Normalizer.starts_with_spec. exists s. reflexivity. }
  rewrite E. reflexivity.
Qed.

Lemma includes_later w pre s : includes w s = true -> includes w (pre ++ s) = true.
Proof.
  intros H. induction pre as [|a pre IH]; [exact H|].
  cbn [app includes]. rewrite IH. apply orb_true_r.
Qed.

(** A resume file that is missing or that may not be read always gets
    advice, whatever its path: for a missing file the first suggestion is to
    check the path, followed for a [.json] path by the suggestion to create
    the file; for a file that may not be read the suggestion to check the
    permissions is there, with the [ls -la] command on the path. *)
Theorem read_failure_advice (filePath : bytes) :
  (exists error rest,
     read_failure filePath (Some "ENOENT"%string) = Some error /\
     suggestions error
     = {| action := lit "Check if the file path is correct";
          command := None;
          explanation :=
            Some (match given (Some filePath) with
                  | Some p => lit "Verify that " ++ quoted p ++ lit " exists and is accessible"
                  | None => lit "Verify the file path exists"
                  end) |}
       :: rest /\
     (endsWith (lit ".json") filePath = true ->
      exists rest', rest = {| action := lit "Create the file if it doesn't exist";
                              command := Some (lit "resume-pdf init --example > resume.json");
                              explanation := Some (lit "Generate a sample resume JSON file") |}
                           :: rest')) /\
  (exists error,
     read_failure filePath (Some "EACCES"%string) = Some error /\
     In (lit "Check file permissions") (map action (suggestions error))).
Proof.
  split.
  - eexists. eexists. split; [reflexivity|].
    cbn [suggestions FileSystemError]. unfold file_system_suggestions.
    assert (E : includes (lit "not found") (lit "File not found: " ++ filePath) = true).
    { change (lit "File not found: " ++ filePath)
        with (lit "File " ++ (lit "not found" ++ (lit ": " ++ filePath))).
      apply includes_later, includes_here. }
    rewrite E, orb_true_r. cbn [app]. split; [reflexivity|].
    intros Hj. rewrite Hj. cbn [app]. eexists. reflexivity.
  - eexists. split; [reflexivity|].
    cbn [suggestions FileSystemError]. unfold file_system_suggestions.
    assert (E : includes (lit "Permission denied")
                  (lit "Permission denied: " ++ filePath) = true).
    { change (lit "Permission denied: " ++ filePath)
        with (lit "Permission denied" ++ (lit ": " ++ filePath)).
      apply includes_here. }
    rewrite E, !orb_true_r. rewrite !map_app. apply in_or_app. right.
    apply in_or_app. left. left. reflexivity.
Qed.

End Errors.

(* ===================================================================== *)
(** * Updates of a resume (src/utils/json-update.ts)                     *)
(* ===================================================================== *)

Module JsonUpdate.

Local Open Scope string_scope.

(** The data is what [JSON.parse] gave, and [JSON.parse(JSON.stringify(data))]
    is a copy of it: the functions below work on the copy and return it,
    which is what a function of the value does. *)

(** [object[k] = v]: the property is replaced where it is, or added after
    the others. *)
Fixpoint set_property (k : string) (v : json) (fields : list (string * json))
  : list (string * json) :=
  match fields with
  | [] => [(k, v)]
  | (k', v') :: fields' =>
      if String.eqb k' k then (k', v) :: fields'
      else (k', v') :: set_property k v fields'
  end.

(** [addWorkExperience]; [None] when it throws a TypeError: the data is
    [null] or a primitive value (reading a property of [null], creating one
    on a primitive value in strict mode), or [work] is there and is no array
    ([unshift] is not a function).  On an array, [work] is made a property
    of the array, which neither the validator nor [JSON.stringify] sees: the
    array is returned. *)
Definition addWorkExperience (data : json) (workEntry : json) : option json :=
  match data with
  | JObj fields =>
      if negb (ToBoolean (assoc "work" fields))
      then Some (JObj (set_property "work" (JArr [workEntry]) fields))
      else match assoc "work" fields with
           | Some (JArr items) =>
               Some (JObj (set_property "work" (JArr (workEntry :: items)) fields))
           | _ => None
           end
  | JArr items => Some (JArr items)
  | _ => None
  end.

Lemma assoc_set_property k v fields k' :
  assoc k' (set_property k v fields)
  = if String.eqb k k' then Some v else assoc k' fields.
Proof.
  induction fields as [|[k0 v0] fields IH]; simpl.
  - reflexivity.
  - destruct (String.eqb_spec k0 k) as [->|N]; simpl.
    + destruct (String.eqb k k'); reflexivity.
    + rewrite IH. destruct (String.eqb_spec k k') as [->|N'].
      * destruct (String.eqb_spec k0 k'); [congruence | reflexivity].
      * reflexivity.
Qed.

(** Adding a work entry that the schema accepts to a resume that
    [validateResumeData] accepts gives a resume that it accepts: the entry
    comes first in [work], the entries that were there follow, and every
    other property is as it was.  The validation that [applyUpdates] runs
    after the update does not fail. *)
Theorem addWorkExperience_valid (formats : string -> bytes -> bool)
    (data workEntry : json) :
  Validator.validateResumeData formats data = true ->
  Validator.validate formats Validator.work_item_schema workEntry = true ->
  exists updated items,
    addWorkExperience data workEntry = Some updated /\
    property "work" data = Some (JArr items) /\
    property "work" updated = Some (JArr (workEntry :: items)) /\
    (forall k, k <> "work" -> property k updated = property k data) /\
    Validator.validateResumeData formats updated = true.
Proof.
  intros Hv He.
  pose proof Hv as Hv0.
  unfold Validator.validateResumeData, Validator.resumeSchema in Hv.
  apply Validator.validate_obj in Hv. destruct Hv as (fields & -> & Hreq & Hprops).
  destruct (Hreq "work") as [w Hw]; [cbn; auto|].
  pose proof (Hprops "work" _ w (or_intror (or_introl eq_refl)) Hw) as Vw.
  apply Validator.validate_arr in Vw. destruct Vw as (items & -> & Hitems).
  exists (JObj (set_property "work" (JArr (workEntry :: items)) fields)), items.
  split; [|split; [|split; [|split]]].
  - unfold addWorkExperience. rewrite Hw. reflexivity.
  - exact Hw.
  - cbn [property]. rewrite assoc_set_property. reflexivity.
  - intros k Hk. cbn [property]. rewrite assoc_set_property.
    destruct (String.eqb_spec "work" k); [congruence | reflexivity].
  - unfold Validator.validateResumeData, Validator.resumeSchema.
    apply Validator.validate_obj_intro.
    + intros k Hk. rewrite assoc_set_property.
      destruct (String.eqb "work" k); [eauto | apply Hreq, Hk].
    + intros k sk x Hin Hx. rewrite assoc_set_property in Hx.
      destruct (String.eqb_spec "work" k) as [<-|N].
      * injection Hx as <-.
        assert (Hsk : sk = Validator.arr Validator.work_item_schema).
        { cbn [In] in Hin.
          repeat (destruct Hin as [Hin|Hin];
                  [first [discriminate Hin | injection Hin as <-; reflexivity]|]).
          destruct Hin. }
        subst sk. unfold Validator.arr.
        cbn [Validator.validate Validator.has_type forallb andb].
        rewrite He. cbn [andb]. apply forallb_forall. exact Hitems.
      * exact (Hprops k sk x Hin Hx).
Qed.

Definition sample_entry : json :=
  JObj [("name", JStr (lit "Initech")); ("position", JStr (lit "Manager"));
        ("startDate", JStr (lit "2024-02-01"))].

Lemma addWorkExperience_valid_witness :
  exists updated items,
    addWorkExperience HtmlGenerator.sample_resume sample_entry = Some updated /\
    property "work" updated = Some (JArr (sample_entry :: items)) /\
    Validator.validateResumeData (fun _ _ => true) updated = true.
Proof.
  destruct (addWorkExperience_valid (fun _ _ => true) HtmlGenerator.sample_resume
              sample_entry eq_refl eq_refl)
    as (updated & items & H1 & _ & H2 & _ & H3).
  exists updated, items. auto.
Defined.

(** ** [updateField] *)

Import Paths.

Open Scope Z_scope.

(** What a call throws: a TypeError of the language (the module is an ES
    module, so its code is strict), or the error for a root property that
    is not known. *)
Inductive thrown :=
| TypeError
| InvalidRoot.

(** How a call ends, as far as this model describes it.  The data is a
    value of [JSON], and the model follows a path through properties that
    objects have of their own and through the elements of arrays.
    [Unmodelled] stands for the calls that leave these: a name that is
    looked up on a prototype ([constructor], [toString], [__proto__] ...),
    a property of an array that is no index ([length] too), a property of a
    string, a number or a boolean, a new property of an object whose name
    is a number (such names are enumerated before the others), and a number
    that [parseInt] does not give exactly.  Of a call that is [Unmodelled]
    nothing is said: the code may return or throw. *)
Inductive outcome (A : Type) :=
| Returns (a : A)
| Throws (e : thrown)
| Unmodelled.
Arguments Returns {A} a.
Arguments Throws {A} e.
Arguments Unmodelled {A}.

Definition and_then {A B} (r : outcome A) (k : A -> outcome B) : outcome B :=
  match r with
  | Returns a => k a
  | Throws e => Throws e
  | Unmodelled => Unmodelled
  end.

(** The names that [Object.prototype] defines. *)
Definition object_prototype_names : list bytes :=
  map lit ["constructor"; "__defineGetter__"; "__defineSetter__"; "hasOwnProperty";
           "__lookupGetter__"; "__lookupSetter__"; "isPrototypeOf";
           "propertyIsEnumerable"; "toString"; "valueOf"; "__proto__";
           "toLocaleString"]%string.

Definition inherited (name : bytes) : bool :=
  existsb (Timestamps.same_bytes name) object_prototype_names.

(** The property name of a segment: the name, or the numeral of a number
    below 2^53. *)
Definition name_of (seg : segment) : option bytes :=
  match seg with
  | Key k => Some k
  | Index n => if (0 <=? n) && (n <? 2 ^ 53) then Some (JsDate.decimal n) else None
  end.

(** The index of an array that a segment names, if it names one: a number,
    or the decimal numeral of one, below 2^32 - 1. *)
Definition array_index (seg : segment) : option nat :=
  match seg with
  | Index n => if (0 <=? n) && (n <? 2 ^ 32 - 1) then Some (Z.to_nat n) else None
  | Key k =>
      if forallb JsDate.is_digit k
         && Timestamps.same_bytes k (JsDate.decimal (JsDate.digits_value k))
         && (JsDate.digits_value k <? 2 ^ 32 - 1)
      then Some (Z.to_nat (JsDate.digits_value k))
      else None
  end.

(** A name made of digits. *)
Definition numeric (name : bytes) : bool :=
  match name with
  | [] => false
  | _ => forallb JsDate.is_digit name
  end.

(** [current[segment]]; [None] is [undefined].  A hole of an array is
    written [JNull] in this model (it is [null] once the data has been
    copied or written to the file); what is read from it is [undefined] in
    the code and [JNull] here, and both are what [== null] tests. *)
Definition read (current : json) (seg : segment) : outcome (option json) :=
  match current with
  | JNull => Throws TypeError
  | JObj fields =>
      match name_of seg with
      | Some name =>
          match assoc (string_of_list_ascii name) fields with
          | Some v => Returns (Some v)
          | None => if inherited name then Unmodelled else Returns None
          end
      | None => Unmodelled
      end
  | JArr items =>
      match array_index seg with
      | Some n => Returns (nth_error items n)
      | None => Unmodelled
      end
  | JStr _ | JNum _ | JBool _ => Unmodelled
  end.

(** [array[n] = x]: beyond the end, the array grows, with holes before the
    new element. *)
Fixpoint set_index (n : nat) (x : json) (items : list json) : list json :=
  match n, items with
  | O, [] => [x]
  | O, _ :: items' => x :: items'
  | S n', [] => JNull :: set_index n' x []
  | S n', y :: items' => y :: set_index n' x items'
  end.

(** [current[segment] = x].  A property that the object has is replaced
    where it is; a new one comes after the others, also when
    [Object.prototype] has a property of that name, which the new one
    hides, except for [__proto__], whose assignment goes to a setter.  On a
    string, a number or a boolean the assignment throws, in strict mode,
    except again for [__proto__]. *)
Definition write (current : json) (seg : segment) (x : json) : outcome json :=
  match current with
  | JNull => Throws TypeError
  | JObj fields =>
      match name_of seg with
      | Some name =>
          match assoc (string_of_list_ascii name) fields with
          | Some _ => Returns (JObj (set_property (string_of_list_ascii name) x fields))
          | None =>
              if Timestamps.same_bytes name (lit "__proto__") || numeric name
              then Unmodelled
              else Returns (JObj (set_property (string_of_list_ascii name) x fields))
          end
      | None => Unmodelled
      end
  | JArr items =>
      match array_index seg with
      | Some n => Returns (JArr (set_index n x items))
      | None => Unmodelled
      end
  | JStr _ | JNum _ | JBool _ =>
      match name_of seg with
      | Some name =>
          if Timestamps.same_bytes name (lit "__proto__") then Unmodelled
          else Throws TypeError
      | None => Unmodelled
      end
  end.

Definition is_null (v : option json) : bool :=
  match v with
  | None => true
  | Some JNull => true
  | _ => false
  end.

Definition known_roots : list bytes :=
  map lit ["basics"; "work"; "education"; "skills"; "projects"; "awards";
           "certifications"; "publications"; "languages"; "interests";
           "references"]%string.

Definition is_known_root (seg : segment) : bool :=
  match seg with
  | Key k => existsb (Timestamps.same_bytes k) known_roots
  | Index _ => false
  end.

(** [while (current.length <= finalSegment) current.push({})]. *)
Definition pad_array (seg : segment) (current : json) : json :=
  match seg, current with
  | Index n, JArr items =>
      JArr (items ++ repeat (JObj []) (Z.to_nat (n + 1) - length items))
  | _, _ => current
  end.

(** The loop of [setNestedValue] from [segment] on, and the assignment
    that follows it; [first] tells whether [segment] is the first one.  The
    value returned is [current] after the assignments. *)
Fixpoint set_from (first : bool) (current : json) (seg : segment)
    (rest : list segment) (value : json) {struct rest} : outcome json :=
  match rest with
  | [] => write (pad_array seg current) seg value
  | next :: rest' =>
      and_then (read current seg) (fun child =>
        if is_null child then
          if first && negb (is_known_root seg) then Throws InvalidRoot
          else
            let fresh := match next with
                         | Index _ => JArr []
                         | Key _ => JObj []
                         end in
            and_then (write current seg fresh) (fun _ =>
              and_then (set_from false fresh next rest' value) (fun child' =>
                write current seg child'))
        else
          match child with
          | Some c =>
              and_then (set_from false c next rest' value) (fun child' =>
                write current seg child')
          | None => Unmodelled
          end)
  end.

(** [setNestedValue]; the path of [parseDotNotation] is never empty. *)
Definition setNestedValue (obj : json) (path : list segment) (value : json)
  : outcome json :=
  match path with
  | [] => Unmodelled
  | seg :: rest => set_from true obj seg rest value
  end.

(** [updateField]: the data is what [JSON.parse] gave, so that
    [JSON.parse(JSON.stringify(data))] is a copy of it. *)
Definition updateField (data : json) (fieldPath value : bytes) : outcome json :=
  setNestedValue data (parseDotNotation fieldPath) (JStr value).

(** [getNestedValue]. *)
Fixpoint getNestedValue (current : option json) (path : list segment)
  : outcome (option json) :=
  match path with
  | [] => Returns current
  | seg :: rest =>
      match current with
      | None | Some JNull => Returns None
      | Some c => and_then (read c seg) (fun v => getNestedValue v rest)
      end
  end.

Example updateField_example :
  updateField HtmlGenerator.sample_resume (lit "basics.name") (lit "Jane")
  = Returns (JObj [("basics"%string,
                    JObj [("name"%string, JStr (lit "Jane"));
                          ("email"%string, JStr (lit "john@example.com"))]);
                   ("work"%string,
                    match property "work" HtmlGenerator.sample_resume with
                    | Some w => w
                    | None => JNull
                    end)]) /\
  updateField (JObj []) (lit "skills[2].name") (lit "Rocq")
  = Returns (JObj [("skills"%string,
                    JArr [JNull; JNull; JObj [("name"%string, JStr (lit "Rocq"))]])]) /\
  updateField (JObj [("work"%string, JArr [])]) (lit "work[1]") (lit "x")
  = Returns (JObj [("work"%string, JArr [JObj []; JStr (lit "x")])]) /\
  updateField (JObj []) (lit "hobbies.first") (lit "x") = Throws InvalidRoot /\
  updateField (JObj []) (lit "hobbies") (lit "x")
  = Returns (JObj [("hobbies"%string, JStr (lit "x"))]) /\
  updateField (JObj [("basics"%string, JStr (lit "abc"))]) (lit "basics.name") (lit "x")
  = Throws TypeError /\
  updateField (JObj []) (lit "toString") (lit "x")
  = Returns (JObj [("toString"%string, JStr (lit "x"))]).
Proof. repeat split. Qed.

(** Calls that the model does not describe. *)
Example updateField_unmodelled :
  updateField (JObj []) (lit "__proto__") (lit "x") = Unmodelled /\
  updateField (JObj []) (lit "constructor.prototype.email") (lit "a@b.co") = Unmodelled /\
  updateField (JObj [("work"%string, JArr [])]) (lit "work.length") (lit "0")
  = Unmodelled /\
  updateField (JObj [("work"%string, JArr [])]) (lit "work.foo") (lit "bar")
  = Unmodelled /\
  updateField (JObj []) (lit "7") (lit "x") = Unmodelled.
Proof. repeat split. Qed.

(** ** What is written can be read *)

Lemma nth_error_set_index n x : forall items, nth_error (set_index n x items) n = Some x.
Proof.
  induction n as [|n IH]; intros [|y items]; simpl; auto.
Qed.

Lemma read_write current seg x out :
  write current seg x = Returns out -> read out seg = Returns (Some x).
Proof.
  unfold write. destruct current as [| | | |items|fields]; try discriminate.
  - destruct (name_of seg) as [name|]; [|discriminate].
    destruct (Timestamps.same_bytes _ _); discriminate.
  - destruct (name_of seg) as [name|]; [|discriminate].
    destruct (Timestamps.same_bytes _ _); discriminate.
  - destruct (name_of seg) as [name|]; [|discriminate].
    destruct (Timestamps.same_bytes _ _); discriminate.
  - destruct (array_index seg) as [n|] eqn:E; [|discriminate].
    intros [= <-]. cbn [read]. rewrite E, nth_error_set_index. reflexivity.
  - destruct (name_of seg) as [name|] eqn:N; [|discriminate].
    assert (G : read (JObj (set_property (string_of_list_ascii name) x fields)) seg
                = Returns (Some x)).
    { cbn [read]. rewrite N, assoc_set_property, String.eqb_refl. reflexivity. }
    destruct (assoc (string_of_list_ascii name) fields).
    + intros [= <-]. exact G.
    + destruct (_ || _); [discriminate|]. intros [= <-]. exact G.
Qed.

Lemma write_container current seg x out :
  write current seg x = Returns out -> is_null (Some out) = false.
Proof.
  unfold write. destruct current as [| | | |items|fields]; try discriminate.
  - destruct (name_of seg) as [name|]; [|discriminate].
    destruct (Timestamps.same_bytes _ _); discriminate.
  - destruct (name_of seg) as [name|]; [|discriminate].
    destruct (Timestamps.same_bytes _ _); discriminate.
  - destruct (name_of seg) as [name|]; [|discriminate].
    destruct (Timestamps.same_bytes _ _); discriminate.
  - destruct (array_index seg); [|discriminate]. intros [= <-]. reflexivity.
  - destruct (name_of seg) as [name|]; [|discriminate].
    destruct (assoc _ fields); [intros [= <-]; reflexivity|].
    destruct (_ || _); [discriminate|]. intros [= <-]. reflexivity.
Qed.

Lemma get_non_null out seg rest v :
  is_null (Some out) = false -> read out seg = Returns v ->
  getNestedValue (Some out) (seg :: rest) = getNestedValue v rest.
Proof.
  intros Hn Hr. cbn [getNestedValue]. destruct out; try discriminate; rewrite Hr; reflexivity.
Qed.

Lemma set_from_get rest : forall first current seg value out,
  set_from first current seg rest value = Returns out ->
  getNestedValue (Some out) (seg :: rest) = Returns (Some value).
Proof.
  induction rest as [|next rest IH]; intros first current seg value out; cbn [set_from].
  - intros H. rewrite (get_non_null out seg [] (Some value)
                         (write_container _ _ _ _ H) (read_write _ _ _ _ H)).
    reflexivity.
  - destruct (read current seg) as [child|e|]; try discriminate. cbn [and_then].
    assert (G : forall c,
              and_then (set_from false c next rest value)
                       (fun child' => write current seg child') = Returns out ->
              getNestedValue (Some out) (seg :: next :: rest) = Returns (Some value)).
    { intros c H.
      destruct (set_from false c next rest value) as [child'|e|] eqn:S; try discriminate.
      cbn [and_then] in H.
      rewrite (get_non_null out seg (next :: rest) (Some child')
                 (write_container _ _ _ _ H) (read_write _ _ _ _ H)).
      exact (IH _ _ _ _ _ S). }
    destruct (is_null child).
    + destruct (first && negb (is_known_root seg)); [discriminate|].
      destruct (write current seg _) as [c1|e|]; try discriminate. cbn [and_then].
      apply G.
    + destruct child as [c|]; [|discriminate]. apply G.
Qed.

Lemma write_object fields seg x updated :
  write (JObj fields) seg x = Returns updated ->
  exists name fields',
    name_of seg = Some name /\ updated = JObj fields' /\
    forall k, k <> string_of_list_ascii name -> assoc k fields' = assoc k fields.
Proof.
  cbn [write]. destruct (name_of seg) as [name|]; [|discriminate]. intros H.
  assert (G : Returns (JObj (set_property (string_of_list_ascii name) x fields))
              = Returns updated ->
              exists name0 fields',
                Some name = Some name0 /\ updated = JObj fields' /\
                forall k, k <> string_of_list_ascii name0 ->
                          assoc k fields' = assoc k fields).
  { intros [= <-]. exists name. eexists. split; [reflexivity|]. split; [reflexivity|].
    intros k Hk. rewrite assoc_set_property.
    destruct (String.eqb_spec (string_of_list_ascii name) k); [congruence|]. reflexivity. }
  destruct (assoc _ fields); [exact (G H)|].
  destruct (_ || _); [discriminate | exact (G H)].
Qed.

(** Within what the model describes (paths through the own properties of
    objects and the elements of arrays), every update that [updateField]
    makes can be read back: when it returns, [getNestedValue] on what it
    returns, along the segments of the path, gives the value; and on an
    object nothing changes at the top but the property that the path starts
    with. *)
Theorem updateField_get (data : json) (fieldPath value : bytes) (updated : json) :
  updateField data fieldPath value = Returns updated ->
  getNestedValue (Some updated) (parseDotNotation fieldPath)
  = Returns (Some (JStr value)) /\
  forall fields, data = JObj fields ->
    exists fields' seg rest name,
      updated = JObj fields' /\ parseDotNotation fieldPath = seg :: rest /\
      name_of seg = Some name /\
      forall k, k <> string_of_list_ascii name -> assoc k fields' = assoc k fields.
Proof.
  unfold updateField, setNestedValue.
  destruct (parseDotNotation fieldPath) as [|seg rest] eqn:P; [discriminate|].
  intros H. split; [exact (set_from_get rest true data seg (JStr value) updated H)|].
  intros fields ->.
  assert (G : exists name fields',
            name_of seg = Some name /\ updated = JObj fields' /\
            forall k, k <> string_of_list_ascii name -> assoc k fields' = assoc k fields).
  { destruct rest as [|next rest]; cbn [set_from] in H.
    - apply (write_object fields seg (JStr value)). destruct seg; exact H.
    - destruct (read (JObj fields) seg) as [child|e|]; try discriminate.
      cbn [and_then] in H.
      destruct (is_null child).
      + destruct (true && negb (is_known_root seg)); [discriminate|].
        destruct (write (JObj fields) seg _) as [c1|e|]; try discriminate.
        cbn [and_then] in H.
        destruct (set_from false _ next rest (JStr value)) as [child'|e|];
          try discriminate.
        cbn [and_then] in H. exact (write_object _ _ _ _ H).
      + destruct child as [c|]; [|discriminate].
        destruct (set_from false c next rest (JStr value)) as [child'|e|];
          try discriminate.
        cbn [and_then] in H. exact (write_object _ _ _ _ H). }
  destruct G as (name & fields' & N & E & F). exists fields', seg, rest, name. auto.
Qed.

Lemma updateField_get_witness :
  getNestedValue
    (match updateField (JObj []) (lit "skills[2].name") (lit "Rocq") with
     | Returns updated => Some updated
     | _ => None
     end)
    (parseDotNotation (lit "skills[2].name"))
  = Returns (Some (JStr (lit "Rocq"))).
Proof.
  destruct (updateField (JObj []) (lit "skills[2].name") (lit "Rocq"))
    as [updated|e|] eqn:E; try (vm_compute in E; discriminate).
  apply (updateField_get (JObj []) (lit "skills[2].name") (lit "Rocq") updated E).
Defined.

(** ** [applyUpdates] *)

Local Open Scope list_scope.

Section Apply.

Variable formats : string -> bytes -> bool.

(** [JSON.parse] ([None] when it throws) and [JSON.stringify(data, null, 2)]. *)
Variable JSON_parse : bytes -> option json.
Variable JSON_stringify : json -> bytes.

(** The files: paths and contents. *)
Definition files := list (bytes * bytes).

Definition file_content (path : bytes) (fs : files) : option bytes :=
  option_map snd (find (fun f => Timestamps.same_bytes (fst f) path) fs).

Record UpdateOptions := {
  set : option (bytes + list bytes);     (* a string, or an array of strings *)
  addWork : option json;
  noBackup : bool
}.

Inductive update_error :=
| ReadFailed
| InvalidJSON
| InvalidSetOperation (message : bytes)
| UpdateThrew (e : thrown)
| AddWorkThrew
| SchemaValidationFailed.

(** How [applyUpdates] ends: it returns, it throws, or a set operation is
    one that the model does not describe. *)
Inductive update_outcome :=
| Updated
| Failed (e : update_error)
| NotDescribed.

(** [createBackup]. *)
Definition createBackup (filePath : bytes) (content : bytes) (fs : files) : files :=
  PdfGenerator.write_file (filePath ++ lit ".bak") content fs.

(** The set operations to apply: [options.set] when it is truthy, as an
    array. *)
Definition setOperations (options : UpdateOptions) : list bytes :=
  match set options with
  | Some (inl []) => []
  | Some (inl s) => [s]
  | Some (inr l) => l
  | None => []
  end.

(** The loop over the set operations: the data after them, the error that
    ended the loop, or an operation that the model does not describe. *)
Inductive sets_outcome :=
| SetsApplied (data : json)
| SetsThrew (e : update_error)
| SetsNotDescribed.

Fixpoint apply_sets (data : json) (ops : list bytes) : sets_outcome :=
  match ops with
  | [] => SetsApplied data
  | op :: ops' =>
      match parseSetOperation op with
      | inl message => SetsThrew (InvalidSetOperation message)
      | inr (path, value) =>
          match updateField data path value with
          | Returns updated => apply_sets updated ops'
          | Throws e => SetsThrew (UpdateThrew e)
          | Unmodelled => SetsNotDescribed
          end
      end
  end.

Definition apply_addWork (data : json) (options : UpdateOptions) : update_error + json :=
  match addWork options with
  | Some entry =>
      if ToBoolean (Some entry)
      then match addWorkExperience data entry with
           | Some updated => inr updated
           | None => inl AddWorkThrew
           end
      else inr data
  | None => inr data
  end.

(** [applyUpdates]: how it ends, and the files it leaves.  Reading the
    file fails when it is not there; the copy and the write are taken to
    succeed. *)
Definition applyUpdates (fs : files) (filePath : bytes) (options : UpdateOptions)
  : update_outcome * files :=
  match file_content filePath fs with
  | None => (Failed ReadFailed, fs)
  | Some fileContent =>
      match JSON_parse fileContent with
      | None => (Failed InvalidJSON, fs)
      | Some data =>
          let fs1 := if noBackup options then fs
                     else createBackup filePath fileContent fs in
          match apply_sets data (setOperations options) with
          | SetsApplied d1 =>
              match apply_addWork d1 options with
              | inl e => (Failed e, fs1)
              | inr updatedData =>
                  if Validator.validateResumeData formats updatedData
                  then (Updated,
                        PdfGenerator.write_file filePath (JSON_stringify updatedData) fs1)
                  else (Failed SchemaValidationFailed, fs1)
              end
          | SetsThrew e => (Failed e, fs1)
          | SetsNotDescribed => (NotDescribed, fs1)
          end
      end
  end.

Lemma same_bytes_refl a : Timestamps.same_bytes a a = true.
Proof.
  unfold Timestamps.same_bytes. destruct (list_eq_dec ascii_dec a a); [reflexivity | congruence].
Qed.

Lemma same_bytes_neq a b : a <> b -> Timestamps.same_bytes a b = false.
Proof.
  unfold Timestamps.same_bytes. destruct (list_eq_dec ascii_dec a b); [congruence | reflexivity].
Qed.

Lemma file_content_written path content fs :
  file_content path (PdfGenerator.write_file path content fs) = Some content.
Proof.
  unfold file_content, PdfGenerator.write_file. cbn [find fst].
  rewrite same_bytes_refl. reflexivity.
Qed.

Lemma file_content_other path other content fs :
  other <> path ->
  file_content path (PdfGenerator.write_file other content fs) = file_content path fs.
Proof.
  intros Hne. unfold file_content, PdfGenerator.write_file. cbn [find fst].
  rewrite (same_bytes_neq other path Hne). f_equal.
  induction fs as [|[p c] fs IH]; [reflexivity|].
  cbn [filter fst]. destruct (list_eq_dec ascii_dec p other) as [->|N].
  - cbn [find fst]. rewrite (same_bytes_neq other path Hne). exact IH.
  - cbn [find fst]. destruct (Timestamps.same_bytes p path); [reflexivity | exact IH].
Qed.

Lemma backup_path_differs (filePath : bytes) : filePath ++ lit ".bak" <> filePath.
Proof.
  intros E. apply (f_equal (@length ascii)) in E. rewrite length_app in E.
  simpl in E. lia.
Qed.

(** Within what the model describes (set operations whose paths go
    through the own properties of objects and the elements of arrays, and
    with the copy and the write of the files succeeding), [applyUpdates]
    changes the resume only to write data that [validateResumeData]
    accepts: when it returns, the file holds the text of such data; when it
    throws, for whatever reason (a file that cannot be read or parsed, a set
    operation that is refused, a validation that fails), the file holds what
    it held.  Unless [noBackup] is set, the backup holds the old text as
    soon as that text has been parsed, also when the update fails
    afterwards. *)
Theorem applyUpdates_writes_valid_data (fs : files) (filePath : bytes)
    (options : UpdateOptions) :
  let outcome := fst (applyUpdates fs filePath options) in
  let fs' := snd (applyUpdates fs filePath options) in
  (outcome = Updated ->
   exists updatedData,
     Validator.validateResumeData formats updatedData = true /\
     file_content filePath fs' = Some (JSON_stringify updatedData)) /\
  (forall e, outcome = Failed e -> file_content filePath fs' = file_content filePath fs) /\
  (noBackup options = false ->
   forall text data,
     file_content filePath fs = Some text -> JSON_parse text = Some data ->
     file_content (filePath ++ lit ".bak") fs' = Some text).
Proof.
  intros outcome fs'. unfold outcome, fs', applyUpdates.
  destruct (file_content filePath fs) as [text|] eqn:R.
  2:{ cbn [fst snd]. split; [discriminate|]. split; [auto|]. intros _ t d H. discriminate. }
  destruct (JSON_parse text) as [data|] eqn:P.
  2:{ cbn [fst snd]. split; [discriminate|]. split; [auto|].
      intros _ t d [= <-] H. congruence. }
  set (fs1 := if noBackup options then fs else createBackup filePath text fs).
  assert (K1 : file_content filePath fs1 = Some text).
  { unfold fs1. destruct (noBackup options); [exact R|].
    unfold createBackup. rewrite file_content_other; [exact R|].
    apply backup_path_differs. }
  assert (K2 : noBackup options = false ->
               file_content (filePath ++ lit ".bak") fs1 = Some text).
  { intros Hb. unfold fs1. rewrite Hb. apply file_content_written. }
  assert (K3 : noBackup options = false ->
               forall c, file_content (filePath ++ lit ".bak")
                           (PdfGenerator.write_file filePath c fs1) = Some text).
  { intros Hb c. rewrite file_content_other; [apply K2, Hb|].
    intros E. symmetry in E. exact (backup_path_differs filePath E). }
  assert (Kept : forall o,
            o <> Updated ->
            (o = Updated -> exists updatedData,
               Validator.validateResumeData formats updatedData = true /\
               file_content filePath fs1 = Some (JSON_stringify updatedData)) /\
            (forall e, o = Failed e -> file_content filePath fs1 = Some text) /\
            (noBackup options = false ->
             forall t d, Some text = Some t -> JSON_parse t = Some d ->
                         file_content (filePath ++ lit ".bak") fs1 = Some t)).
  { intros o Ho. split; [intros E; contradiction|]. split; [intros e _; exact K1|].
    intros Hb t d [= <-] _. apply K2, Hb. }
  destruct (apply_sets data (setOperations options)) as [d1|e|].
  - destruct (apply_addWork d1 options) as [e|updatedData];
      [cbn [fst snd]; apply Kept; discriminate|].
    destruct (Validator.validateResumeData formats updatedData) eqn:V;
      [|cbn [fst snd]; apply Kept; discriminate].
    cbn [fst snd]. split; [|split].
    + intros _. exists updatedData. split; [exact V | apply file_content_written].
    + discriminate.
    + intros Hb t d [= <-] _. apply K3, Hb.
  - cbn [fst snd]. apply Kept. discriminate.
  - cbn [fst snd]. apply Kept. discriminate.
Qed.

End Apply.

Lemma applyUpdates_writes_valid_data_witness :
  let fs := [(lit "cv.json", lit "{}")] in
  let options := {| set := Some (inl (lit "basics.name=Jane"));
                    addWork := None; noBackup := false |} in
  file_content (lit "cv.json")
    (snd (applyUpdates (fun _ _ => true)
            (fun _ => Some HtmlGenerator.sample_resume) (fun _ => lit "{...}")
            fs (lit "cv.json") options))
  = Some (lit "{...}") /\
  file_content (lit "cv.json.bak")
    (snd (applyUpdates (fun _ _ => true)
            (fun _ => Some HtmlGenerator.sample_resume) (fun _ => lit "{...}")
            fs (lit "cv.json") options))
  = Some (lit "{}").
Proof.
  intros fs options.
  destruct (applyUpdates_writes_valid_data (fun _ _ => true)
              (fun _ => Some HtmlGenerator.sample_resume) (fun _ => lit "{...}")
              fs (lit "cv.json") options) as (H1 & _ & H3).
  split.
  - destruct H1 as (d & _ & Hd); [reflexivity|]. exact Hd.
  - apply (H3 eq_refl (lit "{}") HtmlGenerator.sample_resume); reflexivity.
Defined.

End JsonUpdate.

(** * Debouncing and the file watcher (src/utils/file-watcher.ts) *)

Module FileWatcher.

Local Open Scope Z_scope.
Local Open Scope list_scope.

(** ** The timers of the event loop

    Time is the clock of the event loop, in milliseconds.  [setTimeout]
    takes a delay that is no number from 1 to 2^31 - 1 as 1. *)
Definition TIMEOUT_MAX : Z := 2147483647.

Definition timer_delay (ms : Z) : Z :=
  if (1 <=? ms) && (ms <=? TIMEOUT_MAX) then ms else 1.

Record timer (A : Type) := { id : nat; due : Z; payload : A }.
Arguments id {A}. Arguments due {A}. Arguments payload {A}.

Record loop (A : Type) := { now : Z; next_id : nat; pending : list (timer A) }.
Arguments now {A}. Arguments next_id {A}. Arguments pending {A}.

Definition setTimeout {A} (callback : A) (ms : Z) (l : loop A) : nat * loop A :=
  (next_id l,
   {| now := now l;
      next_id := S (next_id l);
      pending := pending l
                 ++ [{| id := next_id l; due := now l + timer_delay ms;
                        payload := callback |}] |}).

Definition clearTimeout {A} (i : nat) (l : loop A) : loop A :=
  {| now := now l;
     next_id := next_id l;
     pending := filter (fun t => negb (Nat.eqb (id t) i)) (pending l) |}.

(** The clock moves on by [d] milliseconds and the loop takes the timers
    that are due, the oldest first. *)
Definition advance {A} (d : N) (l : loop A) : list A * loop A :=
  let now' := now l + Z.of_N d in
  (map payload (filter (fun t => due t <=? now') (pending l)),
   {| now := now';
      next_id := next_id l;
      pending := filter (fun t => negb (due t <=? now')) (pending l) |}).

(** What is seen from outside: the calls, and the runs of the callback, the
    latest first. *)
Inductive entry (A : Type) :=
| Called (t : Z) (a : A)
| Ran (t : Z) (a : A).
Arguments Called {A}. Arguments Ran {A}.

(** ** [debounce] *)

Section Debounce.

Context {A : Type}.
Variable waitMs : Z.

(** The closure of the function that [debounce] returns. *)
Record debounced := {
  timers : loop A;
  timeoutId : option nat;
  history : list (entry A)
}.

Definition fresh (start : Z) : debounced :=
  {| timers := {| now := start; next_id := 0; pending := [] |};
     timeoutId := None;
     history := [] |}.

(** A call of the returned function with the arguments [a].  ([func] is
    taken to return, and not to call the returned function itself.) *)
Definition call (a : A) (s : debounced) : debounced :=
  let l := match timeoutId s with
           | Some i => clearTimeout i (timers s)
           | None => timers s
           end in
  let (i, l') := setTimeout a waitMs l in
  {| timers := l'; timeoutId := Some i; history := Called (now l) a :: history s |}.

(** Time passes: every timer that is due calls [func] with its arguments. *)
Definition tick (d : N) (s : debounced) : debounced :=
  let (fired, l') := advance d (timers s) in
  {| timers := l';
     timeoutId := timeoutId s;
     history := rev (map (Ran (now l')) fired) ++ history s |}.

Inductive event :=
| Call (a : A)
| Tick (d : N).

Definition step (s : debounced) (e : event) : debounced :=
  match e with
  | Call a => call a s
  | Tick d => tick d s
  end.

Definition run (start : Z) (events : list event) : debounced :=
  fold_left step events (fresh start).

End Debounce.

Arguments debounced : clear implicits.
Arguments event : clear implicits.

(** ** [watchFile] *)

Section WatchFile.

Variable debounceMs : option Z.
(** Whether NODE_ENV is [test]. *)
Variable test_environment : bool.

Definition debounce_delay : Z :=
  match debounceMs with
  | Some ms => ms
  | None => 500
  end.

(** The watcher that [watchFile] returns, with the timer of its closure.
    [history] has the [change] events that the listener saw and the starts
    of [onchange]; [exited] is set by [process.exit]. *)
Record watcher := {
  loop_of : loop unit;
  debounceTimer : option nat;
  closed : bool;
  exited : bool;
  seen : list (entry unit)
}.

Definition watch (start : Z) : watcher :=
  {| loop_of := {| now := start; next_id := 0; pending := [] |};
     debounceTimer := None;
     closed := false;
     exited := false;
     seen := [] |}.

(** The listener given to [fs.watch]. *)
Definition listener (eventType : string) (w : watcher) : watcher :=
  if String.eqb eventType "change"
  then
    let l := match debounceTimer w with
             | Some i => clearTimeout i (loop_of w)
             | None => loop_of w
             end in
    let (i, l') := setTimeout tt debounce_delay l in
    {| loop_of := l'; debounceTimer := Some i; closed := closed w; exited := exited w;
       seen := Called (now l) tt :: seen w |}
  else w.

(** [watcher.close], as [watchFile] replaces it. *)
Definition close (w : watcher) : watcher :=
  {| loop_of := match debounceTimer w with
                | Some i => clearTimeout i (loop_of w)
                | None => loop_of w
                end;
     debounceTimer := debounceTimer w;
     closed := true;
     exited := exited w;
     seen := seen w |}.

(** The handler of SIGINT and SIGTERM. *)
Definition cleanup (w : watcher) : watcher :=
  let w' := close w in
  if test_environment then w'
  else {| loop_of := loop_of w'; debounceTimer := debounceTimer w';
          closed := closed w'; exited := true; seen := seen w' |}.

Definition timers_fire (d : N) (w : watcher) : watcher :=
  let (fired, l') := advance d (loop_of w) in
  {| loop_of := l';
     debounceTimer := debounceTimer w;
     closed := closed w;
     exited := exited w;
     seen := rev (map (Ran (now l')) fired) ++ seen w |}.

(** What happens around a watcher: the file system reports an event or
    an error (which is logged and handed to [onError]), the caller closes
    the watcher, a signal arrives, time passes.  A closed watcher gets no
    events of the file system any more, and nothing runs in a process that
    has exited. *)
Inductive watch_event :=
| FsEvent (eventType : string)
| FsError
| Close
| Signal
| Wait (d : N).

Definition watch_step (w : watcher) (e : watch_event) : watcher :=
  if exited w then w
  else match e with
       | FsEvent eventType => if closed w then w else listener eventType w
       | FsError => w
       | Close => close w
       | Signal => cleanup w
       | Wait d => timers_fire d w
       end.

Definition watch_run (start : Z) (events : list watch_event) : watcher :=
  fold_left watch_step events (watch start).

End WatchFile.

(** ** Properties *)

(** Every run of the callback comes straight after the call that set its
    timer, and no sooner than the delay after it. *)
Fixpoint in_turn {A} (delay : Z) (h : list (entry A)) : Prop :=
  match h with
  | [] => True
  | Called _ _ :: pre => in_turn delay pre
  | Ran t a :: pre =>
      match pre with
      | Called t0 a0 :: _ => a = a0 /\ t0 + delay <= t /\ in_turn delay pre
      | _ => False
      end
  end.

Lemma settled_split {A} delay (h : list (entry A)) post pre t a :
  in_turn delay h -> h = post ++ Ran t a :: pre ->
  exists t0 pre', pre = Called t0 a :: pre' /\ t0 + delay <= t.
Proof.
  revert h. induction post as [|e post IH]; intros h S ->.
  - cbn in S. destruct pre as [|[t0 a0|] pre']; try contradiction.
    destruct S as (-> & Hle & _). eauto.
  - apply (IH (post ++ Ran t a :: pre)); [|reflexivity].
    cbn [app] in S. destruct e as [t1 a1|t1 a1]; [exact S|].
    cbn in S. destruct (post ++ Ran t a :: pre) as [|[]]; try contradiction.
    apply S.
Qed.

(** The timers of a closure: none, or the one that the latest call set. *)
Definition one_timer {A} (delay : Z) (l : loop A) (current : option nat)
  (h : list (entry A)) : Prop :=
  pending l = []
  \/ exists i t0 a rest,
       pending l = [{| id := i; due := t0 + delay; payload := a |}]
       /\ current = Some i /\ h = Called t0 a :: rest.

Lemma clear_current {A} delay (l : loop A) current h :
  one_timer delay l current h ->
  pending (match current with
           | Some i => clearTimeout i l
           | None => l
           end) = [] /\
  now (match current with
       | Some i => clearTimeout i l
       | None => l
       end) = now l.
Proof.
  intros [E|(i & t0 & a & rest & E & -> & _)].
  - destruct current; cbn; rewrite ?E; auto.
  - cbn. rewrite E. cbn. rewrite Nat.eqb_refl. auto.
Qed.

Lemma set_one_timer {A} delay ms (l : loop A) (a : A) h :
  delay = timer_delay ms -> pending l = [] ->
  one_timer delay (snd (setTimeout a ms l)) (Some (fst (setTimeout a ms l)))
    (Called (now l) a :: h).
Proof.
  intros -> E. right. exists (next_id l), (now l), a, h. cbn. rewrite E. auto.
Qed.

Lemma advance_one_timer {A} delay d (l : loop A) current h :
  one_timer delay l current h -> in_turn delay h ->
  one_timer delay (snd (advance d l)) current
    (rev (map (Ran (now (snd (advance d l)))) (fst (advance d l))) ++ h)
  /\ in_turn delay
       (rev (map (Ran (now (snd (advance d l)))) (fst (advance d l))) ++ h).
Proof.
  intros [E|(i & t0 & a & rest & E & -> & ->)] S.
  - unfold advance. cbn. rewrite E. cbn. split; [left; reflexivity|exact S].
  - unfold advance. cbn [fst snd now pending]. rewrite E. cbn [filter due].
    destruct (Z.leb_spec (t0 + delay) (now l + Z.of_N d)) as [Hd|Hd]; cbn.
    + split; [left; reflexivity|]. repeat split; [exact Hd|exact S].
    + split; [|exact S]. right. exists i, t0, a, rest. auto.
Qed.

Section DebounceFacts.

Context {A : Type}.
Variable waitMs : Z.

Definition debounce_inv (s : debounced A) : Prop :=
  one_timer (timer_delay waitMs) (timers s) (timeoutId s) (history s)
  /\ in_turn (timer_delay waitMs) (history s).

Lemma call_inv a s : debounce_inv s -> debounce_inv (call waitMs a s).
Proof.
  intros [O S]. destruct (clear_current _ _ _ _ O) as [E N].
  unfold call.
  destruct (setTimeout a waitMs _) as [i l'] eqn:T.
  split; cbn [timers timeoutId history].
  - change i with (fst (i, l')). change l' with (snd (i, l')) at 1.
    rewrite <- T. apply set_one_timer; [reflexivity|exact E].
  - exact S.
Qed.

Lemma tick_inv d s : debounce_inv s -> debounce_inv (tick d s).
Proof.
  intros [O S]. unfold tick.
  pose proof (advance_one_timer _ d _ _ _ O S) as H.
  destruct (advance d (timers s)) as [fired l']. exact H.
Qed.

Lemma run_inv start events : debounce_inv (run waitMs start events).
Proof.
  unfold run.
  assert (I : debounce_inv (fresh start)) by (split; [left; reflexivity|exact Logic.I]).
  revert I. generalize (fresh (A := A) start).
  induction events as [|e events IH]; intros s I; [exact I|].
  cbn [fold_left]. apply IH. destruct e; [apply call_inv|apply tick_inv]; exact I.
Qed.

End DebounceFacts.

(** [debounce]: whatever the calls and however time passes, every run of
    [func] is for the call just before it: it has that call's arguments, no
    other call and no other run lies between the two, and it comes no
    sooner than the delay of the timer after that call. *)
Theorem debounce_runs_latest_call {A} (waitMs start : Z) (events : list (event A))
  (post pre : list (entry A)) (t : Z) (a : A) :
  history (run waitMs start events) = post ++ Ran t a :: pre ->
  exists t0 pre', pre = Called t0 a :: pre' /\ t0 + timer_delay waitMs <= t.
Proof.
  intros H. destruct (run_inv waitMs start events) as [_ S].
  exact (settled_split _ _ _ _ _ _ S H).
Qed.

Lemma debounce_runs_latest_call_witness :
  exists t0 pre',
    [Called 120 "b"%string; Called 0 "a"%string] = Called t0 "b"%string :: pre'
    /\ t0 + timer_delay 300 <= 500.
Proof.
  apply (debounce_runs_latest_call 300 0
           [Call "a"%string; Tick 120; Call "b"%string; Tick 380]
           [] [Called 120 "b"%string; Called 0 "a"%string] 500 "b"%string).
  reflexivity.
Defined.

(** [debounce]: a call that is followed by a quiet time of the delay or
    more runs [func] once, with the arguments of that call, whatever went
    before. *)
Theorem debounce_fires_after_quiet {A} (waitMs start : Z) (events : list (event A))
  (a : A) (d : N) :
  timer_delay waitMs <= Z.of_N d ->
  let s := run waitMs start events in
  history (run waitMs start (events ++ [Call a; Tick d]))
  = Ran (now (timers s) + Z.of_N d) a :: Called (now (timers s)) a :: history s.
Proof.
  intros Hd s. unfold run. rewrite fold_left_app. fold (run waitMs start events).
  fold s. destruct (run_inv waitMs start events) as [O _]. fold s in O.
  destruct (clear_current _ _ _ _ O) as [E N].
  cbn [fold_left step]. unfold tick, call, setTimeout, advance.
  cbn [timers history now pending next_id]. rewrite E, N.
  cbn [app filter due].
  destruct (Z.leb_spec (now (timers s) + timer_delay waitMs)
              (now (timers s) + Z.of_N d)) as [_|C]; [|lia].
  reflexivity.
Qed.

Lemma debounce_fires_after_quiet_witness :
  history (run 300 0 ([Call "a"%string; Tick 120] ++ [Call "b"%string; Tick 300]))
  = [Ran 420 "b"%string; Called 120 "b"%string; Called 0 "a"%string].
Proof.
  apply (debounce_fires_after_quiet 300 0 [Call "a"%string; Tick 120] "b"%string 300).
  vm_compute. discriminate.
Defined.

Section WatchFacts.

Variable debounceMs : option Z.
Variable test_environment : bool.

Definition watch_inv (w : watcher) : Prop :=
  one_timer (timer_delay (debounce_delay debounceMs)) (loop_of w) (debounceTimer w) (seen w)
  /\ in_turn (timer_delay (debounce_delay debounceMs)) (seen w)
  /\ (closed w = true -> pending (loop_of w) = []).

Lemma listener_inv eventType w :
  closed w = false -> watch_inv w -> watch_inv (listener debounceMs eventType w).
Proof.
  intros Hc (O & S & C). unfold listener.
  destruct (String.eqb eventType "change"); [|exact (conj O (conj S C))].
  destruct (clear_current _ _ _ _ O) as [E N].
  destruct (setTimeout tt (debounce_delay debounceMs) _) as [i l'] eqn:T.
  repeat split; cbn [loop_of debounceTimer seen closed].
  - change i with (fst (i, l')). change l' with (snd (i, l')) at 1.
    rewrite <- T. apply set_one_timer; [reflexivity|exact E].
  - exact S.
  - rewrite Hc. discriminate.
Qed.

Lemma close_inv w : watch_inv w -> watch_inv (close w) /\ closed (close w) = true.
Proof.
  intros (O & S & C). destruct (clear_current _ _ _ _ O) as [E N].
  split; [|reflexivity]. repeat split; cbn [loop_of debounceTimer seen closed].
  - left. exact E.
  - exact S.
  - intros _. exact E.
Qed.

Lemma timers_fire_inv d w : watch_inv w -> watch_inv (timers_fire d w).
Proof.
  intros (O & S & C). unfold timers_fire.
  pose proof (advance_one_timer _ d _ _ _ O S) as H.
  assert (P : closed w = true -> pending (snd (advance d (loop_of w))) = []).
  { intros Hc. cbn. rewrite (C Hc). reflexivity. }
  destruct (advance d (loop_of w)) as [fired l'].
  destruct H as [O' S']. repeat split; assumption.
Qed.

Lemma watch_step_inv w e : watch_inv w -> watch_inv (watch_step debounceMs test_environment w e).
Proof.
  intros I. unfold watch_step. destruct (exited w); [exact I|].
  destruct e as [eventType| | | |d].
  - destruct (closed w) eqn:Hc; [exact I|]. apply listener_inv; assumption.
  - exact I.
  - apply close_inv, I.
  - unfold cleanup. destruct test_environment; [apply close_inv, I|].
    destruct (close_inv w I) as [(O & S & C) _]. repeat split; assumption.
  - apply timers_fire_inv, I.
Qed.

Lemma watch_run_inv start events : watch_inv (watch_run debounceMs test_environment start events).
Proof.
  unfold watch_run.
  assert (I : watch_inv (watch start)).
  { split; [left; reflexivity|]. split; [exact Logic.I|discriminate]. }
  revert I. generalize (watch start).
  induction events as [|e events IH]; intros w I; [exact I|].
  cbn [fold_left]. apply IH, watch_step_inv, I.
Qed.

(** A watcher that is closed, with no timer left, stays as it is seen. *)
Definition stopped (w : watcher) : Prop :=
  exited w = true \/ (closed w = true /\ pending (loop_of w) = []).

Lemma stopped_step w e :
  stopped w ->
  stopped (watch_step debounceMs test_environment w e)
  /\ seen (watch_step debounceMs test_environment w e) = seen w.
Proof.
  intros [X|[Hc P]]; unfold watch_step.
  - rewrite X. split; [left; exact X|reflexivity].
  - destruct (exited w) eqn:X; [split; [left; exact X|reflexivity]|].
    destruct e as [eventType| | | |d].
    + rewrite Hc. split; [right; auto|reflexivity].
    + split; [right; auto|reflexivity].
    + split; [|reflexivity]. right. split; [reflexivity|].
      cbn. destruct (debounceTimer w); cbn; rewrite ?P; reflexivity.
    + assert (Q : pending (loop_of (close w)) = []).
      { cbn. destruct (debounceTimer w); cbn; rewrite ?P; reflexivity. }
      unfold cleanup. destruct test_environment.
      * split; [right; split; [reflexivity|exact Q]|reflexivity].
      * split; [left; reflexivity|reflexivity].
    + unfold timers_fire, advance. cbn. rewrite P. cbn.
      split; [right; split; [exact Hc|reflexivity]|reflexivity].
Qed.

Lemma stopped_run events : forall w,
  stopped w -> seen (fold_left (watch_step debounceMs test_environment) events w) = seen w.
Proof.
  induction events as [|e events IH]; intros w S; [reflexivity|].
  cbn [fold_left]. destruct (stopped_step w e S) as [S' E].
  rewrite (IH _ S'). exact E.
Qed.

Lemma close_stops w :
  watch_inv w -> stopped (watch_step debounceMs test_environment w Close).
Proof.
  intros I. unfold watch_step. destruct (exited w) eqn:X; [left; exact X|].
  destruct (close_inv w I) as [(_ & _ & C) Hc]. right. split; [exact Hc|exact (C Hc)].
Qed.

Lemma signal_stops w :
  watch_inv w -> stopped (watch_step debounceMs test_environment w Signal).
Proof.
  intros I. unfold watch_step. destruct (exited w) eqn:X; [left; exact X|].
  unfold cleanup. destruct test_environment; [|left; reflexivity].
  destruct (close_inv w I) as [(_ & _ & C) Hc]. right. split; [exact Hc|exact (C Hc)].
Qed.

End WatchFacts.

(** [watchFile]: once the watcher is closed, by the caller or by a signal,
    [onchange] never starts again, also not for a change that was seen less
    than the delay before: what is seen of the watcher stays as it was when
    it was closed, whatever happens afterwards. *)
Theorem watchFile_close_stops (debounceMs : option Z) (test_environment : bool)
  (start : Z) (before after : list watch_event) (stop : watch_event) :
  stop = Close \/ stop = Signal ->
  seen (watch_run debounceMs test_environment start (before ++ stop :: after))
  = seen (watch_run debounceMs test_environment start before).
Proof.
  intros Hs. unfold watch_run. rewrite fold_left_app. cbn [fold_left].
  fold (watch_run debounceMs test_environment start before).
  pose proof (watch_run_inv debounceMs test_environment start before) as I.
  set (w := watch_run debounceMs test_environment start before) in *.
  assert (S : stopped (watch_step debounceMs test_environment w stop)).
  { destruct Hs as [-> | ->]; [apply close_stops|apply signal_stops]; exact I. }
  rewrite (stopped_run debounceMs test_environment after _ S).
  unfold watch_step. destruct (exited w); [reflexivity|].
  destruct Hs as [-> | ->]; [reflexivity|].
  unfold cleanup. destruct test_environment; reflexivity.
Qed.

Lemma watchFile_close_stops_witness :
  seen (watch_run None false 0
          ([FsEvent "change"; Wait 100] ++ Close :: [Wait 1000; FsEvent "change"; Wait 1000]))
  = [Called 0 tt].
Proof.
  apply (watchFile_close_stops None false 0 [FsEvent "change"; Wait 100]
           [Wait 1000; FsEvent "change"; Wait 1000] Close).
  left. reflexivity.
Defined.

(** [watchFile]: every start of [onchange] comes straight after a [change]
    event that the listener saw, no sooner than the delay after it: a burst
    of changes, each sooner than the delay after the one before, starts
    [onchange] once at most. *)
Theorem watchFile_debounced (debounceMs : option Z) (test_environment : bool)
  (start : Z) (events : list watch_event) (post pre : list (entry unit)) (t : Z) :
  seen (watch_run debounceMs test_environment start events) = post ++ Ran t tt :: pre ->
  exists t0 pre',
    pre = Called t0 tt :: pre' /\ t0 + timer_delay (debounce_delay debounceMs) <= t.
Proof.
  intros H.
  destruct (watch_run_inv debounceMs test_environment start events) as (_ & S & _).
  exact (settled_split _ _ _ _ _ _ S H).
Qed.

Lemma watchFile_debounced_witness :
  exists t0 pre',
    [Called 400 tt; Called 0 tt] = Called t0 tt :: pre'
    /\ t0 + timer_delay (debounce_delay None) <= 900.
Proof.
  apply (watchFile_debounced None false 0
           [FsEvent "change"; Wait 400; FsEvent "rename"; FsEvent "change"; Wait 500]
           [] [Called 400 tt; Called 0 tt] 900).
  reflexivity.
Defined.

End FileWatcher.
